(** * image-process: a shallow embedding of the image utility pages

    The development follows the repository page by page:

    - [Js]: the fragment of the JavaScript run time the pages rely on
      (strings with [trim], values as produced by [JSON.parse], property
      access, truthiness, exceptions);
    - [Compress]: [compressImage] of [src/app/compress/page.tsx];
    - [RemoveBackground]: the batch queue of the remove-background page
      ([createQueueItem], [handleFileChange], [handleRemoveItem],
      [updateQueueItem], [handleProcessQueue]);
    - [Generate]: the image-generation route ([buildImageUrl],
      [normalizeImages], [callVolcengine], [shouldRetryWithBase64], [POST]);
    - [Identify]: [extractMessageContent] of [src/app/identify/page.tsx];
    - [CompressPage]: [deriveDownloadName], [handleCompress] and
      [downloadName] of the compression page;
    - [IdentifyRoute]: [POST] of [src/app/api/identify/route.ts];
    - [IdentifyPage] and [GeneratePage]: [readFileAsDataUrl],
      [handleSubmit] and [handleReset] of the recognition and the
      generation page, alone and in front of their routes;
    - [FileSize] and [KeyStorage]: [formatFileSize] and the key kept in
      [localStorage], which the pages share.

    Definitions come first; the statements about them follow. *)

From Stdlib Require Import String Ascii List ZArith NArith Bool Lia.
From Stdlib Require Import DecimalString DecimalNat.
From Stdlib Require QArith.
Import ListNotations.

Local Open Scope list_scope.
Local Open Scope string_scope.
Local Open Scope nat_scope.

(* ================================================================== *)
(** * The JavaScript fragment *)
(* ================================================================== *)

Module Js.

(** ** Strings

    A JavaScript string is represented by its UTF-8 bytes. *)

Definition reverse (s : string) : string :=
  string_of_list_ascii (rev (list_ascii_of_string s)).

(** One-byte white space and line terminators: TAB, LF, VT, FF, CR, SP. *)
Definition ws1 (c : ascii) : bool :=
  let n := nat_of_ascii c in
  ((9 <=? n) && (n <=? 13)) || (n =? 32).

(** Two-byte white space: U+00A0 (C2 A0). *)
Definition ws2 (c0 c1 : ascii) : bool :=
  (nat_of_ascii c0 =? 194) && (nat_of_ascii c1 =? 160).

(** Three-byte white space and line terminators: U+1680, U+2000..U+200A,
    U+2028, U+2029, U+202F, U+205F, U+3000, U+FEFF. *)
Definition ws3 (c0 c1 c2 : ascii) : bool :=
  let a := nat_of_ascii c0 in
  let b := nat_of_ascii c1 in
  let c := nat_of_ascii c2 in
  ((a =? 225) && (b =? 154) && (c =? 128))
  || ((a =? 226) && (b =? 128)
      && (((128 <=? c) && (c <=? 138)) || (c =? 168) || (c =? 169) || (c =? 175)))
  || ((a =? 226) && (b =? 129) && (c =? 159))
  || ((a =? 227) && (b =? 128) && (c =? 128))
  || ((a =? 239) && (b =? 187) && (c =? 191)).

(** Drops leading white space.  With [back = true] the argument is a
    reversed string, so multi-byte characters are met last byte first. *)
Fixpoint dropSpace (back : bool) (s : string) : string :=
  match s with
  | EmptyString => s
  | String c0 s1 =>
      if ws1 c0 then dropSpace back s1
      else
        match s1 with
        | EmptyString => s
        | String c1 s2 =>
            if (if back then ws2 c1 c0 else ws2 c0 c1) then dropSpace back s2
            else
              match s2 with
              | EmptyString => s
              | String c2 s3 =>
                  if (if back then ws3 c2 c1 c0 else ws3 c0 c1 c2)
                  then dropSpace back s3
                  else s
              end
        end
  end.

Definition trimStart (s : string) : string := dropSpace false s.
Definition trimEnd (s : string) : string := reverse (dropSpace true (reverse s)).

(** [String.prototype.trim]. *)
Definition trim (s : string) : string := trimEnd (trimStart s).

Definition isEmpty (s : string) : bool :=
  match s with EmptyString => true | _ => false end.

(** [s.endsWith(p)] and [s.includes(p)]. *)
Definition endsWith (s p : string) : bool := String.prefix (reverse p) (reverse s).

Fixpoint includes (s p : string) : bool :=
  String.prefix p s
  || match s with
     | EmptyString => false
     | String _ s' => includes s' p
     end.

(** Case folding of a regular expression with the [i] flag and without
    the [u] flag: only the ASCII letters fold onto ASCII letters. *)
Definition foldCase (c : ascii) : ascii :=
  let n := nat_of_ascii c in
  if (65 <=? n) && (n <=? 90) then ascii_of_nat (n + 32) else c.

Fixpoint foldCaseString (s : string) : string :=
  match s with
  | EmptyString => EmptyString
  | String c s' => String (foldCase c) (foldCaseString s')
  end.

(** [/lit/i.test(s)] for a pattern [lit] made of letters and spaces only. *)
Definition testLiteralIgnoreCase (lit s : string) : bool :=
  includes (foldCaseString s) (foldCaseString lit).

(** Decimal rendering of an array index. *)
Definition showNat (n : nat) : string := NilZero.string_of_uint (Nat.to_uint n).

(** The characters of a decimal rendering. *)
Definition isDigit (c : ascii) : bool :=
  (48 <=? nat_of_ascii c) && (nat_of_ascii c <=? 57).

Fixpoint digits (s : string) : bool :=
  match s with
  | EmptyString => true
  | String c rest => isDigit c && digits rest
  end.

(** [s.startsWith(p)]. *)
Definition startsWith (s p : string) : bool := String.prefix p s.

(** [s.split(sep)] for a separator of one character: the pieces between
    the occurrences of [sep], at least one piece. *)
Fixpoint split (sep : ascii) (s : string) : list string :=
  match s with
  | EmptyString => [EmptyString]
  | String c rest =>
      if Ascii.eqb c sep then EmptyString :: split sep rest
      else match split sep rest with
           | piece :: pieces => String c piece :: pieces
           | [] => [String c EmptyString]
           end
  end.

(** [s] matches [[^/.]*]: none of its characters is a slash or a dot.
    The bytes of a character outside ASCII are neither. *)
Fixpoint plain (s : string) : bool :=
  match s with
  | EmptyString => true
  | String c rest =>
      negb (Ascii.eqb c "/"%char) && negb (Ascii.eqb c "."%char) && plain rest
  end.

(** [s.replace(/\.[^/.]+$/, "")]: the match, if any, starts at the
    leftmost dot that is followed, up to the end of [s], by one or more
    characters other than slash and dot; it is removed. *)
Fixpoint dropExtension (s : string) : string :=
  match s with
  | EmptyString => EmptyString
  | String c rest =>
      if Ascii.eqb c "."%char && negb (isEmpty rest) && plain rest
      then EmptyString
      else String c (dropExtension rest)
  end.

(** ** Values

    What [JSON.parse] builds, together with [undefined], which property
    access adds.  Numbers are the integer-valued ones; an object is the
    list of its own properties, looked up by key. *)

#[local] Set Warnings "-register-all".

Inductive value : Type :=
| VUndefined
| VNull
| VBool (b : bool)
| VNum (z : Z)
| VStr (s : string)
| VArr (xs : list value)
| VObj (fields : list (string * value)).

(** [Boolean(v)]. *)
Definition truthy (v : value) : bool :=
  match v with
  | VUndefined | VNull => false
  | VBool b => b
  | VNum z => negb (z =? 0)%Z
  | VStr s => negb (isEmpty s)
  | VArr _ | VObj _ => true
  end.

Definition nullish (v : value) : bool :=
  match v with
  | VUndefined | VNull => true
  | _ => false
  end.

(** [a || b] and [a ?? b]. *)
Definition or_ (a b : value) : value := if truthy a then a else b.
Definition coalesce (a b : value) : value := if nullish a then b else a.

Fixpoint lookup (k : string) (fields : list (string * value)) : option value :=
  match fields with
  | [] => None
  | (k', v) :: rest => if String.eqb k k' then Some v else lookup k rest
  end.

(** [v?.k]: [undefined] on [null] and [undefined]; the own property of an
    object; [undefined] on every other value, for the keys the pages read
    (none of them names a built-in property of strings, numbers, booleans
    or arrays). *)
Definition optGet (v : value) (k : string) : value :=
  match v with
  | VObj fields =>
      match lookup k fields with
      | Some x => x
      | None => VUndefined
      end
  | _ => VUndefined
  end.

(** [k in v] for an object or an array; [None] is the [TypeError] raised
    when the right operand is a primitive. *)
Definition hasProperty (k : string) (v : value) : option bool :=
  match v with
  | VObj fields =>
      Some match lookup k fields with Some _ => true | None => false end
  | VArr _ => Some false
  | _ => None
  end.

(** ** Exceptions

    A thrown value is an [Error] instance carrying its message, or some
    other value, given by what [String] makes of it. *)
Inductive thrown : Type :=
| ThrownError (message : string)
| ThrownOther (shown : string).

(** The outcome of an operation that may throw (or of a promise that may
    reject). *)
Inductive completion (A : Type) : Type :=
| Normal (a : A)
| Throw (e : thrown).
Arguments Normal {A} a.
Arguments Throw {A} e.

(** [error instanceof Error ? error.message : fallback]. *)
Definition messageOr (fallback : string) (e : thrown) : string :=
  match e with
  | ThrownError m => m
  | ThrownOther _ => fallback
  end.

(** ** Numbers as text

    [VNum z] is the number [JSON.parse] makes of the integer literal
    [z]: the double nearest to [z].  [Number::toString] prints the
    shortest decimal that reads back as that double, in full up to 21
    digits and with an exponent beyond. *)

Definition showN (n : N) : string := NilZero.string_of_uint (N.to_uint n).

(** The double nearest to [n], ties going to the even significand. *)
Definition roundToDouble (n : N) : N :=
  let size := N.size n in
  if (size <=? 53)%N then n
  else
    let shift := (size - 53)%N in
    let q := N.shiftr n shift in
    let r := N.land n (N.ones shift) in
    let half := N.shiftl 1 (shift - 1) in
    let q' := if (half <? r)%N || ((r =? half)%N && N.odd q) then (q + 1)%N else q in
    N.shiftl q' shift.

(** The integers that are read as [Infinity]. *)
Definition overflows (n : N) : bool := (2 ^ 1024 - 2 ^ 970 <=? n)%N.

(** For a double [x] that is an integer and at least 1: the exponent of
    its last binary place, twice the bounds of the numbers that round to
    [x], and whether the bounds themselves do. *)
Definition exponentOf (x : N) : N := (N.size x - 53)%N.
Definition low2 (x : N) : N :=
  let e := exponentOf x in
  if (x =? N.shiftl 1 (N.size x - 1))%N && (1 <=? e)%N
  then (2 * x - N.shiftl 1 (e - 1))%N
  else (2 * x - N.shiftl 1 e)%N.
Definition high2 (x : N) : N := (2 * x + N.shiftl 1 (exponentOf x))%N.
Definition inclusive (x : N) : bool := N.even (N.shiftr x (exponentOf x)).

Definition roundsTo (x v : N) : bool :=
  if inclusive x
  then ((low2 x <=? 2 * v) && (2 * v <=? high2 x))%N
  else ((low2 x <? 2 * v) && (2 * v <? high2 x))%N.

(** The multiple of the largest power of ten, from [10 ^ j] down, that
    rounds to [x]; of two, the nearer one, and the even one on a tie. *)
Fixpoint shortestFrom (j : nat) (x : N) : N :=
  let p := (10 ^ N.of_nat j)%N in
  let q := (x / p)%N in
  let lo := (q * p)%N in
  let hi := (lo + p)%N in
  let okLo := (0 <? q)%N && roundsTo x lo in
  let okHi := roundsTo x hi in
  if okLo && okHi
  then (if (x - lo <? hi - x)%N then lo
        else if (hi - x <? x - lo)%N then hi
        else if N.even q then lo else hi)
  else if okLo then lo
  else if okHi then hi
  else match j with
       | O => x
       | S j' => shortestFrom j' x
       end.

Definition shortest (x : N) : N := shortestFrom (String.length (showN x)) x.

Fixpoint dropZeros (s : string) : string :=
  match s with
  | EmptyString => EmptyString
  | String c rest =>
      match dropZeros rest with
      | EmptyString => if Ascii.eqb c "0" then EmptyString else String c EmptyString
      | kept => String c kept
      end
  end.

Definition showDouble (x : N) : string :=
  let all := showN (shortest x) in
  let n := String.length all in
  if n <=? 21 then all
  else
    match dropZeros all with
    | EmptyString => all
    | String first rest =>
        String first (match rest with
                      | EmptyString => ""
                      | _ => "." ++ rest
                      end) ++ "e+" ++ showNat (n - 1)
    end.

(** [Number::toString] of [VNum z]. *)
Definition showNumber (z : Z) : string :=
  let magnitude (n : N) : string :=
    if overflows n then "Infinity" else showDouble (roundToDouble n) in
  match z with
  | Z0 => "0"
  | Zpos p => magnitude (Npos p)
  | Zneg p => "-" ++ magnitude (Npos p)
  end.

(** ** Conversion to a string *)

(** The message of the [TypeError] raised when an object cannot be
    converted to a primitive value. *)
Definition cannotConvert : string := "Cannot convert object to primitive value".

(** [String(v)], also the conversion applied by template literals and by
    [RegExp.prototype.test].  An object is converted by its [toString]
    method: the inherited one gives ["[object Object]"]; an own property
    [toString] hides it, and since no value built by [JSON.parse] can be
    called the conversion then throws.  An array joins the conversions of
    its elements, [null] and [undefined] giving the empty string. *)
Fixpoint toString (v : value) : completion string :=
  match v with
  | VUndefined => Normal "undefined"
  | VNull => Normal "null"
  | VBool true => Normal "true"
  | VBool false => Normal "false"
  | VNum z => Normal (showNumber z)
  | VStr s => Normal s
  | VArr xs =>
      (fix join (l : list value) : completion string :=
         match l with
         | [] => Normal ""
         | x :: l' =>
             match match x with
                   | VUndefined | VNull => Normal ""
                   | _ => toString x
                   end with
             | Throw e => Throw e
             | Normal here =>
                 match l' with
                 | [] => Normal here
                 | _ =>
                     match join l' with
                     | Throw e => Throw e
                     | Normal rest => Normal (here ++ "," ++ rest)
                     end
                 end
             end
         end) xs
  | VObj fields =>
      match lookup "toString" fields with
      | Some _ => Throw (ThrownError cannotConvert)
      | None => Normal "[object Object]"
      end
  end.

(** [a !== b] against a string literal. *)
Definition notStrictlyString (v : value) (lit : string) : bool :=
  match v with
  | VStr s => negb (String.eqb s lit)
  | _ => true
  end.

(** ** Platform objects *)

(** A [File] picked in an upload field. *)
Record File : Type := {
  file_name : string;
  file_type : string;
  file_size : N;
  file_bytes : string
}.

(** What [fetch] resolves to, as a page reads it: the status, and the
    outcome of [await response.json()]. *)
Record HttpResponse : Type := {
  http_status : N;
  http_json : completion value
}.

(** [response.ok] *)
Definition http_ok (r : HttpResponse) : bool :=
  ((200 <=? http_status r) && (http_status r <=? 299))%N.

End Js.

(* ================================================================== *)
(** * Handlers as state passing with exceptions *)
(* ================================================================== *)

Module Eff.
Import Js.

Section WithState.
Context {S : Type}.

(** A computation over a state [S] that completes normally or throws. *)
Definition M (A : Type) : Type := S -> completion A * S.

Definition ret {A : Type} (a : A) : M A := fun s => (Normal a, s).
Definition raise {A : Type} (e : thrown) : M A := fun s => (Throw e, s).
Definition bind {A B : Type} (m : M A) (k : A -> M B) : M B :=
  fun s =>
    match m s with
    | (Normal a, s') => k a s'
    | (Throw e, s') => (Throw e, s')
    end.

(** [try { body } catch (e) { handler }] *)
Definition tryCatch {A : Type} (body : M A) (handler : thrown -> M A) : M A :=
  fun s =>
    match body s with
    | (Normal a, s') => (Normal a, s')
    | (Throw e, s') => handler e s'
    end.

(** [await] of a promise whose outcome the environment has fixed; also
    the lifting of an operation that may throw. *)
Definition await {A : Type} (c : completion A) : M A := fun s => (c, s).

Definition modify (f : S -> S) : M unit := fun s => (Normal tt, f s).

End WithState.

Arguments M S A : clear implicits.

Declare Scope eff_scope.
Delimit Scope eff_scope with eff.
Notation "x <- m ;; k" := (bind m (fun x => k))
  (at level 61, m at next level, right associativity) : eff_scope.
Notation "m ;; k" := (bind m (fun _ => k))
  (at level 61, right associativity) : eff_scope.

(** [for (const x of xs) body(x)] *)
Fixpoint forOf {S A : Type} (xs : list A) (body : A -> M S unit) : M S unit :=
  match xs with
  | [] => ret tt
  | x :: rest => bind (body x) (fun _ => forOf rest body)
  end.

(** [xs.forEach((x, index) => body(x, index))], the index starting at [i]. *)
Fixpoint forEachFrom {S A : Type} (i : nat) (xs : list A)
  (body : A -> nat -> M S unit) : M S unit :=
  match xs with
  | [] => ret tt
  | x :: rest => bind (body x i) (fun _ => forEachFrom (Datatypes.S i) rest body)
  end.

Definition forEach {S A : Type} (xs : list A) (body : A -> nat -> M S unit)
  : M S unit :=
  forEachFrom 0 xs body.

End Eff.

(* ================================================================== *)
(** * Compression page *)
(* ================================================================== *)

Module Compress.
Import Js.

(** ** The canvas

    Pixels are RGBA, eight bits a channel, as the image data of a
    canvas gives them (not premultiplied).  A surface maps coordinates
    to pixels; only coordinates inside its width and height are
    meaningful. *)

Record Pixel : Type := { red : N; green : N; blue : N; alpha : N }.

Definition transparentBlack : Pixel :=
  {| red := 0; green := 0; blue := 0; alpha := 0 |}.
Definition opaqueWhite : Pixel :=
  {| red := 255; green := 255; blue := 255; alpha := 255 |}.

(** A decoded [HTMLImageElement]. *)
Record Image : Type := {
  naturalWidth : N;
  naturalHeight : N;
  texel : N -> N -> Pixel
}.

(** A canvas with its 2D context state. *)
Record Canvas : Type := {
  width : N;
  height : N;
  fillStyle : Pixel;
  bitmap : N -> N -> Pixel
}.

Definition opaqueBlack : Pixel :=
  {| red := 0; green := 0; blue := 0; alpha := 255 |}.

(** [document.createElement("canvas")]: 300 by 150, transparent. *)
Definition createCanvas : Canvas :=
  {| width := 300; height := 150; fillStyle := opaqueBlack;
     bitmap := fun _ _ => transparentBlack |}.

(** Assigning [canvas.width] or [canvas.height] clears the bitmap and
    resets the context state. *)
Definition setWidth (w : N) (c : Canvas) : Canvas :=
  {| width := w; height := height c; fillStyle := opaqueBlack;
     bitmap := fun _ _ => transparentBlack |}.
Definition setHeight (h : N) (c : Canvas) : Canvas :=
  {| width := width c; height := h; fillStyle := opaqueBlack;
     bitmap := fun _ _ => transparentBlack |}.

Definition setFillStyle (p : Pixel) (c : Canvas) : Canvas :=
  {| width := width c; height := height c; fillStyle := p;
     bitmap := bitmap c |}.

Definition inBox (x0 y0 w h x y : N) : bool :=
  ((x0 <=? x) && (x <? x0 + w) && (y0 <=? y) && (y <? y0 + h))%N.

(** The blob handed back by [canvas.toBlob(callback, type, quality)]: a
    file of type [blobType] that encodes the surface as it was at the
    call, at the requested quality.  Its pixel dimensions are those of
    the surface. *)
Record Blob : Type := {
  blobType : string;
  requestedQuality : QArith_base.Q;
  encoded : Canvas
}.

Definition blobWidth (b : Blob) : N := width (encoded b).
Definition blobHeight (b : Blob) : N := height (encoded b).

(** What the browser answers to the calls of [compressImage]. *)
Record Browser : Type := {
  (** [FileReader.readAsDataURL]: the data URL, or [None] for [onerror] *)
  readAsDataURL : File -> option string;
  (** [new Image()] with [src] set: the decoded image, or [None] for [onerror] *)
  loadImage : string -> option Image;
  (** whether [canvas.getContext("2d")] yields a context *)
  context2d : bool;
  (** the default compositing operation of the 2D context,
      [source-over]: the pixel the canvas holds once the first pixel has
      been drawn over the second one.  How colours are rounded on the
      way is the browser's business. *)
  sourceOver : Pixel -> Pixel -> Pixel;
  (** whether the encoder of [toBlob] knows a type; a type it does not
      know is replaced by [image/png] *)
  canEncode : string -> bool;
  (** whether [toBlob] calls back with a blob rather than with [null] *)
  encodes : Canvas -> string -> QArith_base.Q -> bool;
  createObjectURL : Blob -> string
}.

(** [context.fillRect(x0, y0, w, h)]. *)
Definition fillRect (B : Browser) (x0 y0 w h : N) (c : Canvas) : Canvas :=
  {| width := width c; height := height c; fillStyle := fillStyle c;
     bitmap := fun x y =>
       if inBox x0 y0 w h x y then sourceOver B (fillStyle c) (bitmap c x y)
       else bitmap c x y |}.

(** [context.drawImage(image, dx, dy)]: the image at its natural size. *)
Definition drawImage (B : Browser) (image : Image) (dx dy : N) (c : Canvas)
  : Canvas :=
  {| width := width c; height := height c; fillStyle := fillStyle c;
     bitmap := fun x y =>
       if inBox dx dy (naturalWidth image) (naturalHeight image) x y
       then sourceOver B (texel image (x - dx) (y - dy)) (bitmap c x y)
       else bitmap c x y |}.

(** [canvas.toBlob(callback, type, quality)], when it yields a blob. *)
Definition toBlob (B : Browser) (c : Canvas) (type : string)
  (quality : QArith_base.Q) : Blob :=
  {| blobType := if canEncode B type then type else "image/png";
     requestedQuality := quality;
     encoded := c |}.

Record CompressionResult : Type := {
  blob : Blob;
  url : string;
  mimeType : string
}.

(** [["image/png", "image/webp"].includes(file.type)] *)
Definition supportsAlpha (file : File) : bool :=
  String.eqb (file_type file) "image/png"
  || String.eqb (file_type file) "image/webp".

Definition targetType (file : File) : string :=
  if supportsAlpha file then "image/webp" else "image/jpeg".

(** The canvas as [compressImage] leaves it before encoding. *)
Definition render (B : Browser) (file : File) (image : Image) : Canvas :=
  let canvas := createCanvas in
  let canvas := setWidth (naturalWidth image) canvas in
  let canvas := setHeight (naturalHeight image) canvas in
  let canvas :=
    if String.eqb (targetType file) "image/jpeg"
    then fillRect B 0 0 (width canvas) (height canvas)
           (setFillStyle opaqueWhite canvas)
    else canvas in
  drawImage B image 0 0 canvas.

Definition compressImage (B : Browser) (file : File) (quality : QArith_base.Q)
  : completion CompressionResult :=
  match readAsDataURL B file with
  | None => Throw (ThrownError "无法读取图片，请重试。")
  | Some dataUrl =>
      match loadImage B dataUrl with
      | None => Throw (ThrownError "图片加载失败，请使用其他文件。")
      | Some image =>
          if negb (context2d B)
          then Throw (ThrownError "浏览器暂不支持 Canvas 操作。")
          else
            let canvas := render B file image in
            if encodes B canvas (targetType file) quality
            then
              let result := toBlob B canvas (targetType file) quality in
              Normal {| blob := result;
                        url := createObjectURL B result;
                        mimeType := targetType file |}
            else Throw (ThrownError "压缩失败，请稍后重试。")
      end
  end.

(** ** Notions used in the statements *)

(** A pixel whose channels fit in eight bits. *)
Definition eightBit (p : Pixel) : Prop :=
  (red p <= 255 /\ green p <= 255 /\ blue p <= 255 /\ alpha p <= 255)%N.

(** What every implementation of [source-over] does, however it stores
    and rounds colours: an opaque pixel replaces what it is drawn over; a
    fully transparent pixel leaves an opaque pixel and an empty one as
    they are; what is drawn over an opaque pixel is opaque; what is drawn
    on an empty canvas keeps its alpha. *)
Definition compositing (over : Pixel -> Pixel -> Pixel) : Prop :=
  (forall s d, eightBit s -> alpha s = 255%N -> over s d = s) /\
  (forall s d, alpha s = 0%N -> eightBit d ->
     alpha d = 255%N \/ d = transparentBlack -> over s d = d) /\
  (forall s d, eightBit s -> alpha d = 255%N -> alpha (over s d) = 255%N) /\
  (forall s, eightBit s -> alpha (over s transparentBlack) = alpha s).

End Compress.

(* ================================================================== *)
(** * Remove-background page: the batch queue *)
(* ================================================================== *)

Module RemoveBackground.
Import Js Eff.
Local Open Scope eff_scope.

(** ["pending" | "processing" | "success" | "error"] *)
Inductive QueueStatus : Type := Pending | Processing | Success | Error.

(** The bytes of a response body, as [response.blob()] yields them. *)
Record Blob : Type := { blob_type : string; blob_bytes : string }.

(** An optional property is an [option]: [None] stands for [undefined].
    A header value of type [string | null] is an [option string]; the
    credit fields of type [string | null | undefined] nest the two.  The
    error is declared a string; at run time it is whatever the loop
    stores, which may come unchecked from a JSON body, hence a [value]. *)
Record QueueItem : Type := {
  id : string;
  file : File;
  previewUrl : string;
  resultUrl : option string;
  resultBlob : option Blob;
  status : QueueStatus;
  error : option value;
  creditsRemaining : option (option string);
  creditsCharged : option (option string);
  creditType : option (option string)
}.

Record CreditInfo : Type := {
  remaining : option string;
  charged : option string;
  type : option string
}.

(** [Partial<QueueItem>]: [None] when the updater lacks the key, [Some v]
    when it carries it (also with the value [undefined]). *)
Record Updater : Type := {
  set_id : option string;
  set_file : option File;
  set_previewUrl : option string;
  set_resultUrl : option (option string);
  set_resultBlob : option (option Blob);
  set_status : option QueueStatus;
  set_error : option (option value);
  set_creditsRemaining : option (option (option string));
  set_creditsCharged : option (option (option string));
  set_creditType : option (option (option string))
}.

Definition pick {A : Type} (old : A) (new : option A) : A :=
  match new with
  | Some v => v
  | None => old
  end.

(** [{ ...item, ...updater }] *)
Definition spread (item : QueueItem) (updater : Updater) : QueueItem :=
  {| id := pick (id item) (set_id updater);
     file := pick (file item) (set_file updater);
     previewUrl := pick (previewUrl item) (set_previewUrl updater);
     resultUrl := pick (resultUrl item) (set_resultUrl updater);
     resultBlob := pick (resultBlob item) (set_resultBlob updater);
     status := pick (status item) (set_status updater);
     error := pick (error item) (set_error updater);
     creditsRemaining := pick (creditsRemaining item) (set_creditsRemaining updater);
     creditsCharged := pick (creditsCharged item) (set_creditsCharged updater);
     creditType := pick (creditType item) (set_creditType updater) |}.

(** ** The response of [/api/remove-background] *)

Record Response : Type := {
  res_status : N;
  (** [response.headers.get(name)], names in lower case *)
  res_header : string -> option string;
  (** [await response.json()], [await response.text()], [await response.blob()] *)
  res_json : completion value;
  res_text : completion string;
  res_blob : completion Blob
}.

(** [response.ok]: the status is in the range 200 to 299. *)
Definition ok (r : Response) : bool :=
  ((200 <=? res_status r) && (res_status r <=? 299))%N.

(** What the environment answers during a batch run: the outcome of the
    n-th [fetch] and the URL minted by the n-th [URL.createObjectURL]. *)
Record Network : Type := {
  respond : nat -> completion Response;
  mint : nat -> string
}.

(** ** Page state and observable actions *)

Record Page : Type := {
  apiKey : string;
  queue : list QueueItem;
  (** [queueRef.current], copied from [queue] by an effect after each render *)
  queueRef : list QueueItem;
  activeId : option string;
  isProcessing : bool;
  globalError : option string;
  lastCreditInfo : option CreditInfo
}.

(** What a handler does that can be observed, in the order it happens:
    requests to the route, calls of [updateQueueItem], object URLs minted
    and revoked. *)
Inductive Event : Type :=
| Fetch (image : File) (key : string)
| Update (target : string) (updater : Updater)
| CreateObjectURL (minted : string)
| RevokeObjectURL (u : string).

Definition isFetch (e : Event) : bool :=
  match e with Fetch _ _ => true | _ => false end.
Definition isCreate (e : Event) : bool :=
  match e with CreateObjectURL _ => true | _ => false end.

(** The fetches of a trace, in order. *)
Fixpoint fetches (t : list Event) : list (File * string) :=
  match t with
  | [] => []
  | Fetch f k :: t' => (f, k) :: fetches t'
  | _ :: t' => fetches t'
  end.

Record World : Type := { page : Page; trace : list Event }.

Definition withQueue (q : list QueueItem) (p : Page) : Page :=
  {| apiKey := apiKey p; queue := q; queueRef := queueRef p;
     activeId := activeId p; isProcessing := isProcessing p;
     globalError := globalError p; lastCreditInfo := lastCreditInfo p |}.
Definition withActiveId (a : option string) (p : Page) : Page :=
  {| apiKey := apiKey p; queue := queue p; queueRef := queueRef p;
     activeId := a; isProcessing := isProcessing p;
     globalError := globalError p; lastCreditInfo := lastCreditInfo p |}.
Definition withIsProcessing (b : bool) (p : Page) : Page :=
  {| apiKey := apiKey p; queue := queue p; queueRef := queueRef p;
     activeId := activeId p; isProcessing := b;
     globalError := globalError p; lastCreditInfo := lastCreditInfo p |}.
Definition withGlobalError (e : option string) (p : Page) : Page :=
  {| apiKey := apiKey p; queue := queue p; queueRef := queueRef p;
     activeId := activeId p; isProcessing := isProcessing p;
     globalError := e; lastCreditInfo := lastCreditInfo p |}.
Definition withLastCreditInfo (c : option CreditInfo) (p : Page) : Page :=
  {| apiKey := apiKey p; queue := queue p; queueRef := queueRef p;
     activeId := activeId p; isProcessing := isProcessing p;
     globalError := globalError p; lastCreditInfo := c |}.
Definition withApiKey (k : string) (p : Page) : Page :=
  {| apiKey := k; queue := queue p; queueRef := queueRef p;
     activeId := activeId p; isProcessing := isProcessing p;
     globalError := globalError p; lastCreditInfo := lastCreditInfo p |}.

(** The effect of lines 83 to 85, run once the render following a state
    change has committed. *)
Definition commit (p : Page) : Page :=
  {| apiKey := apiKey p; queue := queue p; queueRef := queue p;
     activeId := activeId p; isProcessing := isProcessing p;
     globalError := globalError p; lastCreditInfo := lastCreditInfo p |}.

(** ** Actions of the handlers *)

Definition M (A : Type) : Type := Eff.M World A.

Definition emit (e : Event) : M unit :=
  modify (fun w => {| page := page w; trace := trace w ++ [e] |}).
Definition setPage (f : Page -> Page) : M unit :=
  modify (fun w => {| page := f (page w); trace := trace w |}).

(** ** Platform calls *)

(** How many fetches and how many object URLs a trace holds. *)
Definition fetchCount (t : list Event) : nat := length (filter isFetch t).
Definition createCount (t : list Event) : nat := length (filter isCreate t).

(** [fetch("/api/remove-background", ...)] with the image and the key in
    the form data; the environment answers by the rank of the call. *)
Definition fetch (net : Network) (image : File) (key : string) : M Response :=
  fun w =>
    (respond net (fetchCount (trace w)),
     {| page := page w; trace := trace w ++ [Fetch image key] |}).

Definition createObjectURL (net : Network) : M string :=
  fun w =>
    let u := mint net (createCount (trace w)) in
    (Normal u, {| page := page w; trace := trace w ++ [CreateObjectURL u] |}).

Fixpoint emitAll (es : list Event) : M unit :=
  match es with
  | [] => ret tt
  | e :: rest => emit e ;; emitAll rest
  end.

(** ** Queue operations *)

Definition sameId (target : string) (item : QueueItem) : bool :=
  String.eqb (id item) target.

(** The result URL of [item] that [updateQueueItem] revokes. *)
Definition revoked (updater : Updater) (item : QueueItem) : list Event :=
  match set_resultUrl updater, resultUrl item with
  | Some (Some new), Some old =>
      if negb (isEmpty new) && negb (isEmpty old) && negb (String.eqb old new)
      then [RevokeObjectURL old]
      else []
  | _, _ => []
  end.

(** The function [updateQueueItem] passes to [setQueue]. *)
Definition updateQueue (target : string) (updater : Updater)
  (prev : list QueueItem) : list QueueItem :=
  map (fun item => if negb (sameId target item) then item
                   else spread item updater) prev.

(** The revocations it performs along the way. *)
Definition revocations (target : string) (updater : Updater)
  (prev : list QueueItem) : list Event :=
  flat_map (fun item => if negb (sameId target item) then []
                        else revoked updater item) prev.

Definition updateQueueItem (target : string) (updater : Updater) : M unit :=
  emit (Update target updater) ;;
  (fun w =>
     (emitAll (revocations target updater (queue (page w))) ;;
      setPage (fun p => withQueue (updateQueue target updater (queue p)) p)) w).

Definition revokeItem (item : QueueItem) : list Event :=
  RevokeObjectURL (previewUrl item)
  :: match resultUrl item with
     | Some u => if negb (isEmpty u) then [RevokeObjectURL u] else []
     | None => []
     end.

Definition showN (n : N) : string := NilZero.string_of_uint (N.to_uint n).

(** The answers of [Date.now()], of
    [Math.random().toString(16).slice(2)] and of [URL.createObjectURL]
    while one item is created. *)
Record Upload : Type := {
  picked : File;
  now : N;
  random : string;
  preview : string
}.

Definition createQueueItem (u : Upload) : QueueItem :=
  {| id := (showN (now u) ++ "-" ++ random u)%string;
     file := picked u;
     previewUrl := preview u;
     resultUrl := None; resultBlob := None;
     status := Pending;
     error := None;
     creditsRemaining := None; creditsCharged := None; creditType := None |}.

(** [!activeId] *)
Definition noActive (a : option string) : bool :=
  match a with
  | None => true
  | Some s => isEmpty s
  end.

Definition handleFileChange (uploads : list Upload) : M unit :=
  fun w =>
    match uploads with
    | [] => (Normal tt, w)
    | first :: _ =>
        (setPage (withGlobalError None) ;;
         emitAll (map (fun u => CreateObjectURL (preview u)) uploads) ;;
         setPage (fun p => withQueue (queue p ++ map createQueueItem uploads) p) ;;
         (if noActive (activeId (page w))
          then setPage (withActiveId (Some (id (createQueueItem first))))
          else ret tt)) w
    end.

Definition handleRemoveItem (target : string) : M unit :=
  fun w =>
    let queue0 := queue (page w) in
    (match find (sameId target) queue0 with
     | Some item => emitAll (revokeItem item)
     | None => ret tt
     end ;;
     setPage (fun p => withQueue (filter (fun item => negb (sameId target item)) (queue p)) p) ;;
     setPage (fun p =>
       withActiveId
         (match activeId p with
          | Some current =>
              if String.eqb current target
              then match filter (fun item => negb (sameId target item)) queue0 with
                   | item :: _ => Some (id item)
                   | [] => None
                   end
              else Some current
          | None => None
          end) p)) w.

Definition handleClearQueue : M unit :=
  fun w =>
    (emitAll (flat_map revokeItem (queue (page w))) ;;
     setPage (withQueue []) ;;
     setPage (withActiveId None)) w.

(** ** The batch run *)

Definition missingCredential : string := "请先填写 remove.bg 的 API Key。".
Definition emptyQueue : string := "请先上传至少一张图片。".
Definition noEligibleItems : string := "队列中暂无待处理的图片。".

Definition eligible (item : QueueItem) : bool :=
  match status item with
  | Pending | Error => true
  | Processing | Success => false
  end.

Definition toProcessing : Updater :=
  {| set_id := None; set_file := None; set_previewUrl := None;
     set_resultUrl := None; set_resultBlob := None;
     set_status := Some Processing;
     set_error := Some None;
     set_creditsRemaining := None; set_creditsCharged := None;
     set_creditType := None |}.

Definition toError (message : value) (credits : option CreditInfo) : Updater :=
  {| set_id := None; set_file := None; set_previewUrl := None;
     set_resultUrl := None; set_resultBlob := None;
     set_status := Some Error;
     set_error := Some (Some message);
     set_creditsRemaining := option_map (fun c => Some (remaining c)) credits;
     set_creditsCharged := option_map (fun c => Some (charged c)) credits;
     set_creditType := option_map (fun c => Some (type c)) credits |}.

Definition toSuccess (b : Blob) (u : string) (credits : CreditInfo) : Updater :=
  {| set_id := None; set_file := None; set_previewUrl := None;
     set_resultUrl := Some (Some u); set_resultBlob := Some (Some b);
     set_status := Some Success;
     set_error := Some None;
     set_creditsRemaining := Some (Some (remaining credits));
     set_creditsCharged := Some (Some (charged credits));
     set_creditType := Some (Some (type credits)) |}.

Definition failureText : string := "去除背景失败，请稍后再试。".
Definition unknownFailureText : string := "去除背景时出现未知错误，请重试。".

(** The credit headers of a response. *)
Definition creditsOf (response : Response) : CreditInfo :=
  {| remaining :=
       match res_header response "x-credits-remaining" with
       | Some v => Some v
       | None => res_header response "x-credit-balance"
       end;
     charged := res_header response "x-credits-charged";
     type := res_header response "x-credit-type" |}.

(** Message and error code read from a response that is not [ok]. *)
Definition readFailure (response : Response) : M (value * value) :=
  match res_header response "content-type" with
  | Some contentType =>
      if includes contentType "application/json"
      then body <- await (res_json response) ;;
           ret (or_ (optGet body "error") (VStr failureText), optGet body "code")
      else text <- await (res_text response) ;;
           ret (or_ (VStr text) (VStr failureText), VUndefined)
  | None =>
      text <- await (res_text response) ;;
      ret (or_ (VStr text) (VStr failureText), VUndefined)
  end.

(** [errorCode && errorCode !== "" ? `${message}...错误码：${errorCode}` : message].
    The template converts [message] to a string before it calls
    [message.endsWith], and [errorCode] last. *)
Definition combineMessage (message errorCode : value) : M value :=
  if truthy errorCode && notStrictlyString errorCode ""
  then shown <- await (toString message) ;;
       match message with
       | VStr m =>
           code <- await (toString errorCode) ;;
           ret (VStr (shown ++ (if endsWith m "。" then "" else "。")
                        ++ "错误码：" ++ code)%string)
       | _ => raise (ThrownError "message.endsWith is not a function")
       end
  else ret message.

(** The body of the [try] from the moment the response is there. *)
Definition settleResponse (net : Network) (item : QueueItem)
  (response : Response) : M unit :=
  let credits := creditsOf response in
  if negb (ok response)
  then
    failure <- readFailure response ;;
    combinedMessage <- combineMessage (fst failure) (snd failure) ;;
    updateQueueItem (id item) (toError combinedMessage (Some credits)) ;;
    setPage (withLastCreditInfo (Some credits))
  else
    b <- await (res_blob response) ;;
    u <- createObjectURL net ;;
    updateQueueItem (id item) (toSuccess b u credits) ;;
    setPage (withLastCreditInfo (Some credits)).

(** The [catch] clause. *)
Definition onFailure (item : QueueItem) (e : thrown) : M unit :=
  updateQueueItem (id item)
    (toError (VStr (messageOr unknownFailureText e)) None).

(** One turn of the loop of [handleProcessQueue]. *)
Definition processItem (net : Network) (key : string) (item : QueueItem) : M unit :=
  updateQueueItem (id item) toProcessing ;;
  tryCatch
    (response <- fetch net (file item) key ;;
     settleResponse net item response)
    (onFailure item).

(** A turn in two halves: the handler is suspended while the request is
    in flight.  [beginTurn] runs up to the sending of the request and
    yields what the promise of [fetch] settles to; [finishTurn] runs from
    the moment it settles. *)
Definition beginTurn (net : Network) (key : string) (item : QueueItem)
  : M (completion Response) :=
  updateQueueItem (id item) toProcessing ;;
  (fun w =>
     (Normal (respond net (fetchCount (trace w))),
      {| page := page w; trace := trace w ++ [Fetch (file item) key] |})).

Definition finishTurn (net : Network) (item : QueueItem)
  (outcome : completion Response) : M unit :=
  tryCatch
    (response <- await outcome ;;
     settleResponse net item response)
    (onFailure item).

Definition handleProcessQueue (net : Network) : M unit :=
  fun w =>
    let apiKey := apiKey (page w) in
    let queue := queue (page w) in
    if isEmpty (trim apiKey)
    then setPage (withGlobalError (Some missingCredential)) w
    else
      match queue with
      | [] => setPage (withGlobalError (Some emptyQueue)) w
      | _ :: _ =>
          match filter eligible (queueRef (page w)) with
          | [] => setPage (withGlobalError (Some noEligibleItems)) w
          | itemsToProcess =>
              (setPage (withGlobalError None) ;;
               setPage (withIsProcessing true) ;;
               forOf itemsToProcess (processItem net (trim apiKey)) ;;
               setPage (withIsProcessing false)) w
          end
      end.

(** ** The page as a transition system *)

Definition initialPage (storedKey : string) : Page :=
  {| apiKey := storedKey; queue := []; queueRef := []; activeId := None;
     isProcessing := false; globalError := None; lastCreditInfo := None |}.

(** A handler run to completion from page [p], and the render after it. *)
Definition run (handler : M unit) (p : Page) : World :=
  snd (handler {| page := p; trace := [] |}).
Definition act (handler : M unit) (p : Page) : Page :=
  commit (page (run handler p)).

(** The identifiers of a queue. *)
Definition ids (q : list QueueItem) : list string := map id q.

(** The pages a user can bring about.  The identifiers minted for an
    upload are new: they differ from one another and from those in the
    queue. *)
Inductive reachable : Page -> Prop :=
| reach_initial (storedKey : string) :
    reachable (initialPage storedKey)
| reach_setApiKey (p : Page) (k : string) :
    reachable p -> reachable (act (setPage (withApiKey k)) p)
| reach_select (p : Page) (a : string) :
    reachable p -> reachable (act (setPage (withActiveId (Some a))) p)
| reach_enqueue (p : Page) (uploads : list Upload) :
    reachable p ->
    NoDup (ids (queue p ++ map createQueueItem uploads)) ->
    reachable (act (handleFileChange uploads) p)
| reach_remove (p : Page) (target : string) :
    reachable p -> reachable (act (handleRemoveItem target) p)
| reach_clear (p : Page) :
    reachable p -> reachable (act handleClearQueue p)
| reach_runBatch (p : Page) (net : Network) :
    reachable p -> reachable (act (handleProcessQueue net) p).

(** ** Notions used in the statements *)

(** The state changes and external calls of a trace, in order. *)
Definition steps (t : list Event) : list Event :=
  filter (fun e => match e with
                   | Fetch _ _ | Update _ _ => true
                   | CreateObjectURL _ | RevokeObjectURL _ => false
                   end) t.

(** An external call succeeds when the request is answered with a status
    in the 2xx range and the body can be read. *)
Definition succeeds (outcome : completion Response) : bool :=
  match outcome with
  | Normal r => ok r && match res_blob r with
                        | Normal _ => true
                        | Throw _ => false
                        end
  | Throw _ => false
  end.

(** [settles outcome updater]: [updater] is a final update that the loop
    may apply to an item whose external call had this outcome. *)
Inductive settles : completion Response -> Updater -> Prop :=
| settles_success (r : Response) (b : Blob) (u : string) :
    ok r = true -> res_blob r = Normal b ->
    settles (Normal r) (toSuccess b u (creditsOf r))
| settles_error (outcome : completion Response) (m : value)
    (credits : option CreditInfo) :
    succeeds outcome = false ->
    settles outcome (toError m credits).

(** The three updates and calls spent on one item. *)
Definition turn (key : string) (item : QueueItem) (final : Updater) : list Event :=
  [Update (id item) toProcessing; Fetch (file item) key; Update (id item) final].

(** What a turn makes of an item. *)
Definition settled (item : QueueItem) (final : Updater) : QueueItem :=
  spread (spread item toProcessing) final.

(** The queue after one turn, and the trace of a run of turns. *)
Definition afterTurn (q : list QueueItem) (tf : QueueItem * Updater)
  : list QueueItem :=
  updateQueue (id (fst tf)) (snd tf) (updateQueue (id (fst tf)) toProcessing q).

Definition turns (key : string) (work : list (QueueItem * Updater)) : list Event :=
  flat_map (fun tf => turn key (fst tf) (snd tf)) work.

(** The queue in which every eligible item has had its turn, the final
    updates being taken from [finals] in order. *)
Fixpoint settleQueue (q : list QueueItem) (finals : list Updater)
  : list QueueItem :=
  match q with
  | [] => []
  | item :: rest =>
      if eligible item
      then match finals with
           | final :: finals' => settled item final :: settleQueue rest finals'
           | [] => item :: settleQueue rest []
           end
      else item :: settleQueue rest finals
  end.

(** The world in which the loop of a batch run starts, and the world
    when the loop over [work] has done its first [k] turns. *)
Definition loopStart (p : Page) : World :=
  {| page := withIsProcessing true (withGlobalError None p); trace := [] |}.

Definition afterTurns (net : Network) (key : string) (work : list QueueItem)
  (k : nat) (w : World) : World :=
  snd (forOf (firstn k work) (processItem net key) w).

(** The status of the item of a queue that has a given identifier. *)
Definition statusOf (target : string) (q : list QueueItem) : option QueueStatus :=
  option_map status (find (sameId target) q).

(** The parts of a page a turn does not touch. *)
Definition sameShell (p p' : Page) : Prop :=
  apiKey p' = apiKey p /\ queueRef p' = queueRef p /\
  activeId p' = activeId p /\ isProcessing p' = isProcessing p /\
  globalError p' = globalError p.

(** The run is refused with message [m]: nothing is called, nothing is
    changed but the page-level error. *)
Definition refused (net : Network) (p : Page) (m : string) : Prop :=
  handleProcessQueue net {| page := p; trace := [] |} =
  (Normal tt, {| page := withGlobalError (Some m) p; trace := [] |}).

(** The rank of the item at position [n] among the eligible items. *)
Definition rank (q : list QueueItem) (n : nat) : nat :=
  length (filter eligible (firstn n q)).

(** Pages at rest: the reference is in step with the queue, identifiers
    are unique, no item is being processed, and result and error agree
    with the status. *)
Definition consistent (item : QueueItem) : Prop :=
  match status item with
  | Pending => resultUrl item = None /\ resultBlob item = None
  | Processing => False
  | Success =>
      resultUrl item <> None /\ resultBlob item <> None /\ error item = None
  | Error =>
      resultUrl item = None /\ resultBlob item = None /\ error item <> None
  end.

Definition atRest (p : Page) : Prop :=
  queueRef p = queue p /\ NoDup (ids (queue p)) /\ Forall consistent (queue p).

(** ** The page while a batch runs

    The handler is suspended at every [await], and the user can act in
    the meantime.  A session is the page together with what the
    suspended handler holds: nothing, the items still to come, or the
    item whose request is in flight with the outcome it will have. *)

Inductive Phase : Type :=
| Idle
| Between (net : Network) (key : string) (remaining : list QueueItem)
| InFlight (net : Network) (key : string) (item : QueueItem)
    (outcome : completion Response) (remaining : list QueueItem).

Record Session : Type := { world : World; phase : Phase }.

(** The identifiers the suspended handler still holds. *)
Definition held (ph : Phase) : list string :=
  match ph with
  | Idle => []
  | Between _ _ remaining => ids remaining
  | InFlight _ _ item _ remaining => id item :: ids remaining
  end.

(** A user's handler run in a session, and the render after it. *)
Definition perform (handler : M unit) (s : Session) : Session :=
  {| world := {| page := commit (page (snd (handler (world s))));
                 trace := trace (snd (handler (world s))) |};
     phase := phase s |}.

(** One step of a session: a user action (an upload mints identifiers
    that are new, also with respect to the items the handler holds), the
    refusal or the start of a batch run from an idle page, the first or
    the second half of a turn, the end of the run. *)
Inductive step : Session -> Session -> Prop :=
| step_setApiKey (s : Session) (k : string) :
    step s (perform (setPage (withApiKey k)) s)
| step_select (s : Session) (a : string) :
    step s (perform (setPage (withActiveId (Some a))) s)
| step_enqueue (s : Session) (uploads : list Upload) :
    NoDup (ids (queue (page (world s)) ++ map createQueueItem uploads)) ->
    (forall u, In u uploads -> ~ In (id (createQueueItem u)) (held (phase s))) ->
    step s (perform (handleFileChange uploads) s)
| step_remove (s : Session) (target : string) :
    step s (perform (handleRemoveItem target) s)
| step_clear (s : Session) :
    step s (perform handleClearQueue s)
| step_refuse (p : Page) (t : list Event) (net : Network) (m : string) :
    refused net p m ->
    step {| world := {| page := p; trace := t |}; phase := Idle |}
         {| world := {| page := withGlobalError (Some m) p; trace := [] |};
            phase := Idle |}
| step_start (p : Page) (t : list Event) (net : Network) :
    isEmpty (trim (apiKey p)) = false ->
    queue p <> [] ->
    filter eligible (queueRef p) <> [] ->
    step {| world := {| page := p; trace := t |}; phase := Idle |}
         {| world := {| page := withIsProcessing true (withGlobalError None p);
                        trace := [] |};
            phase := Between net (trim (apiKey p))
                       (filter eligible (queueRef p)) |}
| step_begin (w w' : World) (net : Network) (key : string) (item : QueueItem)
    (outcome : completion Response) (rest : list QueueItem) :
    beginTurn net key item w = (Normal outcome, w') ->
    step {| world := w; phase := Between net key (item :: rest) |}
         {| world := w'; phase := InFlight net key item outcome rest |}
| step_finish (w w' : World) (net : Network) (key : string) (item : QueueItem)
    (outcome : completion Response) (rest : list QueueItem) :
    finishTurn net item outcome w = (Normal tt, w') ->
    step {| world := w; phase := InFlight net key item outcome rest |}
         {| world := w'; phase := Between net key rest |}
| step_end (w : World) (net : Network) (key : string) :
    step {| world := w; phase := Between net key [] |}
         {| world := {| page := commit (withIsProcessing false (page w));
                        trace := trace w |};
            phase := Idle |}.

(** Any number of steps. *)
Inductive steps_to : Session -> Session -> Prop :=
| steps_none (s : Session) : steps_to s s
| steps_more (s s' s'' : Session) : steps_to s s' -> step s' s'' -> steps_to s s''.

(** The session of a freshly mounted page. *)
Definition initialSession (storedKey : string) : Session :=
  {| world := {| page := initialPage storedKey; trace := [] |}; phase := Idle |}.

(** Result and error exclude each other once an item is done. *)
Definition exclusive (item : QueueItem) : Prop :=
  (status item = Success ->
   resultBlob item <> None /\ resultUrl item <> None /\ error item = None) /\
  (status item = Error ->
   error item <> None /\ resultBlob item = None /\ resultUrl item = None).

(** What holds of the items of a session: an item the handler still
    holds is eligible, the item in flight is being processed and has no
    result, every other item agrees with its status. *)
Definition waiting (item : QueueItem) : Prop :=
  eligible item = true /\ consistent item.
Definition awaited (item : QueueItem) : Prop :=
  status item = Processing /\ resultUrl item = None /\ resultBlob item = None.

(** What holds of item [x] in phase [ph]. *)
Definition itemInv (ph : Phase) (x : QueueItem) : Prop :=
  match ph with
  | Idle => consistent x
  | Between _ _ rest =>
      (In (id x) (ids rest) -> waiting x) /\
      (~ In (id x) (ids rest) -> consistent x)
  | InFlight _ _ item _ rest =>
      (id x = id item -> awaited x) /\
      (id x <> id item -> In (id x) (ids rest) -> waiting x) /\
      (id x <> id item -> ~ In (id x) (ids rest) -> consistent x)
  end.

(** The invariant of sessions: identifiers are unique in the queue and
    among the items held, an idle page has its reference in step, and
    every item is as its phase expects. *)
Definition sessionInv (s : Session) : Prop :=
  NoDup (ids (queue (page (world s)))) /\
  NoDup (held (phase s)) /\
  (phase s = Idle -> queueRef (page (world s)) = queue (page (world s))) /\
  Forall (itemInv (phase s)) (queue (page (world s))).

(** ** What the page derives from its state *)

(** [activeItem] (lines 98 to 101): the item the pointer names, else the
    first one; nothing for an empty queue. *)
Definition activeItem (p : Page) : option QueueItem :=
  match queue p with
  | [] => None
  | first :: _ =>
      match find (fun item => match activeId p with
                              | Some a => String.eqb (id item) a
                              | None => false
                              end) (queue p) with
      | Some item => Some item
      | None => Some first
      end
  end.

(** [item.status === s] *)
Definition hasStatus (s : QueueStatus) (item : QueueItem) : bool :=
  match status item, s with
  | Pending, Pending | Processing, Processing
  | Success, Success | Error, Error => true
  | _, _ => false
  end.

Definition pendingCount (p : Page) : nat :=
  length (filter (hasStatus Pending) (queue p)).
Definition processingCount (p : Page) : nat :=
  length (filter (hasStatus Processing) (queue p)).
Definition successCount (p : Page) : nat :=
  length (filter (hasStatus Success) (queue p)).
Definition totalCount (p : Page) : nat := length (queue p).

(** The name under which a result is saved (lines 470 and 543). *)
Definition resultName (item : QueueItem) : string :=
  (dropExtension (file_name (file item)) ++ "-no-bg.png")%string.

(** The clean-up of lines 87 to 96, run when the page is left: the URLs
    of the items the reference holds are revoked. *)
Definition unmount (p : Page) : list Event := flat_map revokeItem (queueRef p).

(** The pages a user can bring about through the page itself: the
    pointer is moved by clicking an item of the list (line 426). *)
Inductive visited : Page -> Prop :=
| visit_initial (storedKey : string) :
    visited (initialPage storedKey)
| visit_setApiKey (p : Page) (k : string) :
    visited p -> visited (act (setPage (withApiKey k)) p)
| visit_select (p : Page) (item : QueueItem) :
    visited p -> In item (queue p) ->
    visited (act (setPage (withActiveId (Some (id item)))) p)
| visit_enqueue (p : Page) (uploads : list Upload) :
    visited p -> visited (act (handleFileChange uploads) p)
| visit_remove (p : Page) (target : string) :
    visited p -> visited (act (handleRemoveItem target) p)
| visit_clear (p : Page) :
    visited p -> visited (act handleClearQueue p)
| visit_runBatch (p : Page) (net : Network) :
    visited p -> visited (act (handleProcessQueue net) p).

(** The pointer names an item of the queue, or the queue is empty. *)
Definition pointerValid (p : Page) : Prop :=
  match activeId p with
  | Some a => In a (ids (queue p))
  | None => queue p = []
  end.

(** A batch run is under way. *)
Definition running (ph : Phase) : bool :=
  match ph with
  | Idle => false
  | Between _ _ _ | InFlight _ _ _ _ _ => true
  end.

(** How many of the first [n] calls succeed, and how many fail. *)
Definition successes (net : Network) (n : nat) : nat :=
  length (filter (fun k => succeeds (respond net k)) (seq 0 n)).
Definition failures (net : Network) (n : nat) : nat :=
  length (filter (fun k => negb (succeeds (respond net k))) (seq 0 n)).

End RemoveBackground.

(* ================================================================== *)
(** * Image-generation route *)
(* ================================================================== *)

Module Generate.
Import Js Eff.
Local Open Scope eff_scope.

Definition DEFAULT_MODEL : string := "ep-20251023012547-2jjbx".

Inductive ResponseFormat : Type := Url | B64Json.

Definition formatName (f : ResponseFormat) : string :=
  match f with
  | Url => "url"
  | B64Json => "b64_json"
  end.

Definition isUrl (f : ResponseFormat) : bool :=
  match f with Url => true | B64Json => false end.

(** What the provider answers to one request: the status, the body text
    and what [JSON.parse] makes of that text ([None] when it throws). *)
Record Reply : Type := {
  reply_status : N;
  reply_text : string;
  reply_json : option value
}.

(** The server side: the configured key, the outcome of the n-th
    request to the provider (a reply, or a rejected promise), and the
    message of the error with which the [Response] constructor refuses a
    status. *)
Record Server : Type := {
  ARK_API_KEY : option string;
  answer : nat -> completion Reply;
  refusal : N -> string
}.

(** A request sent to the provider. *)
Record Call : Type := {
  authorization : string;
  body : list (string * value)
}.

Record VolcengineCallResult : Type := {
  status : N;
  rawText : string;
  parsedBody : value;
  format : ResponseFormat
}.

(** [result.response.ok] *)
Definition ok (result : VolcengineCallResult) : bool :=
  ((200 <=? status result) && (status result <=? 299))%N.

Definition callVolcengine (srv : Server) (apiKey : string)
  (payload : list (string * value)) (responseFormat : ResponseFormat)
  : M (list Call) VolcengineCallResult :=
  let finalPayload :=
    (payload ++ [("response_format", VStr (formatName responseFormat))])%list in
  fun calls =>
    let sent :=
      (calls ++ [{| authorization := ("Bearer " ++ apiKey)%string;
                    body := finalPayload |}])%list in
    match answer srv (length calls) with
    | Throw e => (Throw e, sent)
    | Normal reply =>
        let parsed :=
          if isEmpty (reply_text reply) then VNull
          else match reply_json reply with
               | Some v => v
               | None => VStr (reply_text reply)
               end in
        (Normal {| status := reply_status reply;
                   rawText := reply_text reply;
                   parsedBody := parsed;
                   format := responseFormat |}, sent)
    end.

Definition closedEndpoint : string :=
  "endpoint that is currently closed or temporarily unavailable".

(** [parsedBody?.error?.message || parsedBody?.message] *)
Definition providerMessage (parsed : value) : value :=
  or_ (optGet (optGet parsed "error") "message") (optGet parsed "message").

(** [test] converts the message to a string, which may throw. *)
Definition shouldRetryWithBase64 (result : VolcengineCallResult)
  : completion bool :=
  if ok result then Normal false
  else if negb (isUrl (format result)) then Normal false
  else if (status result =? 404)%N then Normal true
  else
    let message := providerMessage (parsedBody result) in
    if negb (truthy message) then Normal false
    else match toString message with
         | Normal text => Normal (testLiteralIgnoreCase closedEndpoint text)
         | Throw e => Throw e
         end.

(** [item.content_type || item.mime_type || fallbackMime] *)
Definition mimeOf (item : value) (fallbackMime : string) : value :=
  or_ (or_ (optGet item "content_type") (optGet item "mime_type"))
      (VStr fallbackMime).

(** Reading a property of [null] or [undefined] throws. *)
Definition requireObjectCoercible (v : value) : completion unit :=
  if nullish v
  then Throw (ThrownError "Cannot read properties of null or undefined")
  else Normal tt.

(** [`data:${mime};base64,${payload}`]: the template converts [mime],
    then [payload]. *)
Definition dataUrl (mime payload : value) : completion string :=
  match toString mime with
  | Throw e => Throw e
  | Normal mimeText =>
      match toString payload with
      | Throw e => Throw e
      | Normal payloadText =>
          Normal ("data:" ++ mimeText ++ ";base64," ++ payloadText)%string
      end
  end.

(** The result is the pair of [url] and [mime], or [None] for [null]. *)
Definition buildImageUrl (item : value) (fallbackMime : string)
  : completion (option (value * value)) :=
  match requireObjectCoercible item with
  | Throw e => Throw e
  | Normal _ =>
      if truthy (optGet item "url")
      then Normal (Some (optGet item "url", mimeOf item fallbackMime))
      else if truthy (optGet item "b64_json")
      then
        let mime := mimeOf item fallbackMime in
        match dataUrl mime (optGet item "b64_json") with
        | Throw e => Throw e
        | Normal text => Normal (Some (VStr text, mime))
        end
      else Normal None
  end.

Record NormalizedImage : Type := {
  id : string;
  url : value;
  mimeType : value;
  size : value;
  prompt : value;
  revisedPrompt : value;
  seed : value;
  created : value
}.

(** The body of the [forEach] of [normalizeImages], pushing to [results]. *)
Definition normalizeItem (item : value) (index : nat)
  : M (list NormalizedImage) unit :=
  built <- await (buildImageUrl item "image/png") ;;
  match built with
  | None => ret tt
  | Some (builtUrl, builtMime) =>
      name <- await (toString (coalesce (optGet item "index")
                                 (VNum (Z.of_nat index)))) ;;
      modify (fun results =>
        (results ++
        [{| id := ("image-" ++ name)%string;
            url := builtUrl;
            mimeType := builtMime;
            size := coalesce (optGet item "size") VNull;
            prompt := coalesce (optGet item "prompt") VNull;
            revisedPrompt := coalesce (optGet item "revised_prompt") VNull;
            seed := coalesce (optGet item "seed") VNull;
            created := coalesce (optGet item "created") VNull |}])%list)
  end.

Definition normalizeImages (data : value) : completion (list NormalizedImage) :=
  match optGet data "data" with
  | VArr items =>
      match forEach items normalizeItem [] with
      | (Normal _, results) => Normal results
      | (Throw e, _) => Throw e
      end
  | _ => Normal []
  end.

(** A response built by [NextResponse.json]. *)
Record JsonResponse : Type := {
  res_status : N;
  res_body : value;
  res_cacheControl : option string
}.

Definition imageValue (image : NormalizedImage) : value :=
  VObj [("id", VStr (id image)); ("url", url image);
        ("mimeType", mimeType image); ("size", size image);
        ("prompt", prompt image); ("revisedPrompt", revisedPrompt image);
        ("seed", seed image); ("created", created image)].

Definition trimmedString (v : value) : option string :=
  match v with
  | VStr s => Some (trim s)
  | _ => None
  end.

Definition isString (v : value) (lit : string) : bool :=
  match v with
  | VStr s => String.eqb s lit
  | _ => false
  end.

(** The requested format, [url] unless the body asks for [b64_json]. *)
Definition initialResponseFormat (requestBody : value) : ResponseFormat :=
  if isString (optGet requestBody "responseFormat") "b64_json" then B64Json
  else if isString (optGet requestBody "responseFormat") "url" then Url
  else Url.

(** [(typeof body.apiKey === "string" && body.apiKey.trim()) || process.env.ARK_API_KEY] *)
Definition resolvedApiKey (srv : Server) (requestBody : value) : option string :=
  match trimmedString (optGet requestBody "apiKey") with
  | Some k => if isEmpty k then ARK_API_KEY srv else Some k
  | None => ARK_API_KEY srv
  end.

Definition promptOf (requestBody : value) : string :=
  match trimmedString (optGet requestBody "prompt") with
  | Some s => s
  | None => ""
  end.

Definition payloadBase (requestBody : value) : list (string * value) :=
  let negativePrompt := trimmedString (optGet requestBody "negativePrompt") in
  let size :=
    match trimmedString (optGet requestBody "size") with
    | Some s => if isEmpty s then "2K" else s
    | None => "2K"
    end in
  let sequential :=
    if isString (optGet requestBody "sequential") "enabled" then "enabled"
    else "disabled" in
  let watermark :=
    match optGet requestBody "watermark" with
    | VBool b => b
    | w => if isString w "false" then false else true
    end in
  ([("model", VStr DEFAULT_MODEL);
   ("prompt", VStr (promptOf requestBody));
   ("size", VStr size);
   ("stream", VBool false);
   ("watermark", VBool watermark);
   ("sequential_image_generation", VStr sequential)]
  ++ match negativePrompt with
     | Some n => if isEmpty n then [] else [("negative_prompt", VStr n)]
     | None => []
     end)%list.

(** The statuses the [Response] constructor takes together with a
    body: those from 200 to 599 but for the ones that have no body. *)
Definition nullBodyStatus (s : N) : bool :=
  ((s =? 101) || (s =? 103) || (s =? 204) || (s =? 205) || (s =? 304))%N.

Definition acceptsStatus (s : N) : bool :=
  ((200 <=? s) && (s <=? 599))%N && negb (nullBodyStatus s).

(** [NextResponse.json(body, { status, headers })]: the response, or
    the error of the constructor. *)
Definition json (srv : Server) (body : value) (status : N)
  (cacheControl : option string) : completion JsonResponse :=
  if acceptsStatus status
  then Normal {| res_status := status; res_body := body;
                 res_cacheControl := cacheControl |}
  else Throw (ThrownError (refusal srv status)).

Definition badRequest (message : string) : JsonResponse :=
  {| res_status := 400; res_body := VObj [("error", VStr message)];
     res_cacheControl := None |}.

Definition POST (srv : Server) (request : completion value)
  : M (list Call) JsonResponse :=
  tryCatch
    (requestBody <- await request ;;
     await (requireObjectCoercible requestBody) ;;
     if isEmpty (promptOf requestBody)
     then await (json srv (VObj [("error", VStr "提示词不能为空。")]) 400 None)
     else
       match resolvedApiKey srv requestBody with
       | None =>
           await (json srv
                    (VObj [("error",
                            VStr "服务器未配置火山引擎 API Key，请联系管理员或填写自定义密钥。")])
                    400 None)
       | Some key =>
           if isEmpty key
           then await (json srv
                         (VObj [("error",
                                 VStr "服务器未配置火山引擎 API Key，请联系管理员或填写自定义密钥。")])
                         400 None)
           else
             initialResult <-
               callVolcengine srv key (payloadBase requestBody)
                 (initialResponseFormat requestBody) ;;
             retry <- await (shouldRetryWithBase64 initialResult) ;;
             finalResult <-
               (if retry
                then callVolcengine srv key (payloadBase requestBody) B64Json
                else ret initialResult) ;;
             if negb (ok finalResult)
             then
               await (json srv
                        (VObj [("error",
                                or_ (providerMessage (parsedBody finalResult))
                                    (VStr "生成失败，请稍后再试。"));
                               ("details", parsedBody finalResult)])
                        (status finalResult) None)
             else
               images <- await (normalizeImages (parsedBody finalResult)) ;;
               await (json srv
                        (VObj [("data",
                                VObj [("images", VArr (map imageValue images));
                                      ("raw", parsedBody finalResult);
                                      ("responseFormat",
                                       VStr (formatName (format finalResult)))])])
                        200 (Some "no-store"))
       end)
    (fun e =>
       await (json srv
                (VObj [("error", VStr "服务异常，请稍后重试。");
                       ("details",
                        VStr match e with
                             | ThrownError m => m
                             | ThrownOther shown => shown
                             end)])
                500 None)).

(** One request served from start to finish: the response and the
    requests sent to the provider, in order. *)
Definition serve (srv : Server) (request : completion value)
  : completion JsonResponse * list Call :=
  POST srv request [].

(** ** Notions used in the statements *)

(** The request [callVolcengine] sends for a given format. *)
Definition requestFor (key : string) (requestBody : value)
  (responseFormat : ResponseFormat) : Call :=
  {| authorization := ("Bearer " ++ key)%string;
     body := (payloadBase requestBody
              ++ [("response_format", VStr (formatName responseFormat))])%list |}.

(** The result [callVolcengine] builds from a reply. *)
Definition resultOf (reply : Reply) (responseFormat : ResponseFormat)
  : VolcengineCallResult :=
  {| status := reply_status reply;
     rawText := reply_text reply;
     parsedBody :=
       if isEmpty (reply_text reply) then VNull
       else match reply_json reply with
            | Some v => v
            | None => VStr (reply_text reply)
            end;
     format := responseFormat |}.

(** The [response_format] of a request, and the [responseFormat] a
    response reports. *)
Definition sentFormat (c : Call) : value := optGet (VObj (body c)) "response_format".
Definition reportedFormat (r : JsonResponse) : value :=
  optGet (optGet (res_body r) "data") "responseFormat".



(** The property of a result that makes URL delivery count as
    unavailable. *)
Definition urlDeliveryUnavailable (result : VolcengineCallResult) : Prop :=
  ok result = false /\ format result = Url /\
  (status result = 404%N \/
   (truthy (providerMessage (parsedBody result)) = true /\
    exists text,
      toString (providerMessage (parsedBody result)) = Normal text /\
      testLiteralIgnoreCase closedEndpoint text = true)).


(** [String] has a text for the value. *)
Definition printable (v : value) : bool :=
  match toString v with
  | Normal _ => true
  | Throw _ => false
  end.



(** The response of the [catch] clause for a thrown value. *)
Definition serverError (e : thrown) : JsonResponse :=
  {| res_status := 500;
     res_body :=
       VObj [("error", VStr "服务异常，请稍后重试。");
             ("details",
              VStr match e with
                   | ThrownError m => m
                   | ThrownOther shown => shown
                   end)];
     res_cacheControl := None |}.

Definition missingPrompt : string := "提示词不能为空。".
Definition missingKey : string :=
  "服务器未配置火山引擎 API Key，请联系管理员或填写自定义密钥。".

(** The request gets as far as the provider: it can be read, has a
    prompt, and a key is at hand. *)
Definition accepted (srv : Server) (request : completion value) : bool :=
  match request with
  | Throw _ => false
  | Normal requestBody =>
      negb (nullish requestBody)
      && negb (isEmpty (promptOf requestBody))
      && match resolvedApiKey srv requestBody with
         | Some key => negb (isEmpty key)
         | None => false
         end
  end.

(** The response that delivers the images of a reply. *)
Definition delivered (images : list NormalizedImage)
  (result : VolcengineCallResult) : JsonResponse :=
  {| res_status := 200;
     res_body :=
       VObj [("data",
              VObj [("images", VArr (map imageValue images));
                    ("raw", parsedBody result);
                    ("responseFormat", VStr (formatName (format result)))])];
     res_cacheControl := Some "no-store" |}.

(** The response that relays a reply of the provider that is not [ok]. *)
Definition relayed (result : VolcengineCallResult) : JsonResponse :=
  {| res_status := status result;
     res_body :=
       VObj [("error",
              or_ (providerMessage (parsedBody result))
                  (VStr "生成失败，请稍后再试。"));
             ("details", parsedBody result)];
     res_cacheControl := None |}.

(** The response to the last reply of the provider: its images; or its
    status and message, when a response can carry that status; or the
    response of the [catch] clause. *)
Definition responseTo (srv : Server) (result : VolcengineCallResult)
  : JsonResponse :=
  if ok result
  then match normalizeImages (parsedBody result) with
       | Normal images => delivered images result
       | Throw e => serverError e
       end
  else if acceptsStatus (status result) then relayed result
  else serverError (ThrownError (refusal srv (status result))).


(** A response that reports a failure: a status outside the 2xx range,
    an [error] that is truthy, no cache header. *)
Definition reportsFailure (r : JsonResponse) : Prop :=
  ((res_status r <? 200) || (299 <? res_status r))%N = true /\
  truthy (optGet (res_body r) "error") = true /\
  res_cacheControl r = None.

(** A response that delivers images: status 200, never cached, the
    images, the raw reply and the format under [data]. *)
Definition reportsImages (r : JsonResponse) : Prop :=
  res_status r = 200%N /\ res_cacheControl r = Some "no-store" /\
  exists images raw f,
    res_body r = VObj [("data", VObj [("images", VArr images); ("raw", raw);
                                      ("responseFormat", VStr (formatName f))])].

End Generate.

(* ================================================================== *)
(** * Recognition page *)
(* ================================================================== *)

Module Identify.
Import Js Eff.
Local Open Scope eff_scope.

Record NormalizedContentBlock : Type := {
  id : string;
  text : string
}.

Definition blockId (index innerIndex : nat) : string :=
  ("choice-" ++ showNat index ++ "-text-" ++ showNat innerIndex)%string.

(** [if (t) blocks.push({ id, text: t })] *)
Definition pushText (blockName t : string) : M (list NormalizedContentBlock) unit :=
  if isEmpty t then ret tt
  else modify (fun blocks => (blocks ++ [{| id := blockName; text := t |}])%list).

(** The body of the inner [forEach], over the elements of an array
    content. *)
Definition contentItem (index : nat) (item : value) (innerIndex : nat)
  : M (list NormalizedContentBlock) unit :=
  match item with
  | VStr s => pushText (blockId index innerIndex) (trim s)
  | VObj fields =>
      match lookup "type" fields with
      | Some kind =>
          match kind with
          | VStr k =>
              if String.eqb k "text"
              then
                match optGet item "text" with
                | VUndefined | VNull => ret tt
                | VStr t => pushText (blockId index innerIndex) (trim t)
                | _ => raise (ThrownError "item.text.trim is not a function")
                end
              else ret tt
          | _ => ret tt
          end
      | None => ret tt
      end
  | _ => ret tt
  end.

(** The body of the outer [forEach], over the choices. *)
Definition choiceItem (choice : value) (index : nat)
  : M (list NormalizedContentBlock) unit :=
  let message := optGet choice "message" in
  let content := optGet message "content" in
  match content with
  | VStr s => pushText (blockId index 0) (trim s)
  | VArr items => forEach items (contentItem index)
  | _ => ret tt
  end.

Definition extractMessageContent (result : value)
  : completion (list NormalizedContentBlock) :=
  if negb (truthy result) then Normal []
  else
    let choices :=
      match optGet result "choices" with
      | VArr cs => cs
      | _ => []
      end in
    match forEach choices choiceItem [] with
    | (Throw e, _) => Throw e
    | (Normal _, blocks) =>
        match blocks with
        | _ :: _ => Normal blocks
        | [] =>
            match hasProperty "output_text" result with
            | None =>
                Throw (ThrownError "Cannot use 'in' operator to search for 'output_text'")
            | Some false => Normal []
            | Some true =>
                match toString (coalesce (optGet result "output_text") (VStr "")) with
                | Throw e => Throw e
                | Normal shown =>
                    let t := trim shown in
                    if isEmpty t then Normal []
                    else Normal [{| id := "fallback-output-text"; text := t |}]
                end
            end
        end
    end.

(** ** Notions used in the statements *)

(** A recognition response with a single choice of the given content. *)
Definition responseWith (content : value) : value :=
  VObj [("choices", VArr [VObj [("message", VObj [("content", content)])]])].











(** A block as the page shows it: its text is not empty and has no
    white space around it. *)
Definition clean (b : NormalizedContentBlock) : Prop :=
  isEmpty (text b) = false /\ trim (text b) = text b.

(** What one call of [pushText] with a trimmed text appends for choice
    [index] at inner index [i]. *)
Definition pushedAt (index i : nat) (new : list NormalizedContentBlock) : Prop :=
  new = [] \/
  exists t, new = [{| id := blockId index i; text := t |}] /\
            isEmpty t = false /\ trim t = t.

(** The blocks [new] were pushed for choice [index] at inner indices
    from [i] on, each index at most once. *)
Definition pushedFrom (index i : nat) (new : list NormalizedContentBlock) : Prop :=
  NoDup (map id new) /\
  forall b, In b new -> clean b /\ exists j, i <= j /\ id b = blockId index j.

(** The blocks [new] were pushed for choices from [index] on. *)
Definition pushedByChoices (index : nat) (new : list NormalizedContentBlock) : Prop :=
  NoDup (map id new) /\
  forall b, In b new -> clean b /\ exists k j, index <= k /\ id b = blockId k j.

End Identify.

(* ================================================================== *)
(** * Compression page: the handlers *)
(* ================================================================== *)

Module CompressPage.
Import Js Eff Compress.
Local Open Scope eff_scope.

Definition MIN_QUALITY : N := 20.
Definition MAX_QUALITY : N := 100.

(** [mimeType.split("/")[1] ?? "jpg"] *)
Definition extensionOf (mimeType : string) : string :=
  match nth_error (split "/" mimeType) 1 with
  | Some extension => extension
  | None => "jpg"
  end.

Definition deriveDownloadName (original : option File) (mimeType : string)
  : string :=
  match original with
  | None => "compressed-image"
  | Some f =>
      (dropExtension (file_name f) ++ "-compressed." ++ extensionOf mimeType)%string
  end.

Record Page : Type := {
  file : option File;
  previewUrl : option string;
  (** the position of the slider, between [MIN_QUALITY] and [MAX_QUALITY] *)
  compressionQuality : N;
  compressedResult : option CompressionResult;
  isCompressing : bool;
  error : option string
}.

Definition initialPage : Page :=
  {| file := None; previewUrl := None; compressionQuality := 70;
     compressedResult := None; isCompressing := false; error := None |}.

Definition withFile (f : option File) (p : Page) : Page :=
  {| file := f; previewUrl := previewUrl p;
     compressionQuality := compressionQuality p;
     compressedResult := compressedResult p;
     isCompressing := isCompressing p; error := error p |}.
Definition withPreviewUrl (u : option string) (p : Page) : Page :=
  {| file := file p; previewUrl := u;
     compressionQuality := compressionQuality p;
     compressedResult := compressedResult p;
     isCompressing := isCompressing p; error := error p |}.
Definition withCompressedResult (r : option CompressionResult) (p : Page) : Page :=
  {| file := file p; previewUrl := previewUrl p;
     compressionQuality := compressionQuality p;
     compressedResult := r;
     isCompressing := isCompressing p; error := error p |}.
Definition withIsCompressing (b : bool) (p : Page) : Page :=
  {| file := file p; previewUrl := previewUrl p;
     compressionQuality := compressionQuality p;
     compressedResult := compressedResult p;
     isCompressing := b; error := error p |}.
Definition withError (e : option string) (p : Page) : Page :=
  {| file := file p; previewUrl := previewUrl p;
     compressionQuality := compressionQuality p;
     compressedResult := compressedResult p;
     isCompressing := isCompressing p; error := e |}.

(** [compressionQuality / 100] *)
Definition quality (p : Page) : QArith_base.Q :=
  QArith_base.Qmake (Z.of_N (compressionQuality p)) 100.

Definition handleCompress (B : Browser) : M Page unit :=
  fun p =>
    match file p with
    | None => (Normal tt, p)
    | Some f =>
        (modify (withIsCompressing true) ;;
         modify (withError None) ;;
         tryCatch
           (result <- await (compressImage B f (quality p)) ;;
            modify (withCompressedResult (Some result)))
           (fun e =>
              modify (withError (Some (messageOr "压缩过程中出现未知错误。" e)))) ;;
         modify (withIsCompressing false)) p
    end.

(** The messages of the errors [compressImage] throws. *)
Definition readFailed : string := "无法读取图片，请重试。".

(** [downloadName] (lines 148 to 151). *)
Definition downloadName (p : Page) : string :=
  deriveDownloadName (file p)
    match compressedResult p with
    | Some result => mimeType result
    | None => "image/jpeg"
    end.

End CompressPage.

(* ================================================================== *)
(** * Recognition route *)
(* ================================================================== *)

Module IdentifyRoute.
Import Js Eff.
Local Open Scope eff_scope.

Definition DEFAULT_PROMPT : string := "识别图片".
Definition MODEL : string := "ep-20251023004013-j2vpb".

Definition invalidImage : string := "缺少有效的图片数据，请重新上传。".
Definition missingKey : string :=
  "服务器未配置火山引擎 API Key，请联系管理员或填写自定义密钥。".
Definition providerFailure : string := "识别失败，请稍后再试。".

(** [typeof prompt === "string" && prompt.trim().length > 0 ? prompt.trim() : DEFAULT_PROMPT] *)
Definition textPrompt (prompt : value) : string :=
  match prompt with
  | VStr s => if isEmpty (trim s) then DEFAULT_PROMPT else trim s
  | _ => DEFAULT_PROMPT
  end.

Definition payload (text imageDataUrl : string) : list (string * value) :=
  [("model", VStr MODEL);
   ("messages",
    VArr [VObj [("role", VStr "user");
                ("content",
                 VArr [VObj [("type", VStr "text"); ("text", VStr text)];
                       VObj [("type", VStr "image_url");
                             ("image_url", VObj [("url", VStr imageDataUrl)])]])]])].

(** The request to the provider and the reading of its reply. *)
Definition callProvider (srv : Generate.Server) (key : string)
  (sentBody : list (string * value)) : M (list Generate.Call) (N * value) :=
  fun calls =>
    let sent :=
      (calls ++ [{| Generate.authorization := ("Bearer " ++ key)%string;
                    Generate.body := sentBody |}])%list in
    match Generate.answer srv (length calls) with
    | Throw e => (Throw e, sent)
    | Normal reply =>
        let parsed :=
          if isEmpty (Generate.reply_text reply) then VNull
          else match Generate.reply_json reply with
               | Some v => v
               | None => VStr (Generate.reply_text reply)
               end in
        (Normal (Generate.reply_status reply, parsed), sent)
    end.

Definition POST (srv : Generate.Server) (request : completion value)
  : M (list Generate.Call) Generate.JsonResponse :=
  tryCatch
    (requestBody <- await request ;;
     let fields := coalesce requestBody (VObj []) in
     match optGet fields "imageDataUrl" with
     | VStr imageDataUrl =>
         if negb (startsWith imageDataUrl "data:image/")
         then await (Generate.json srv (VObj [("error", VStr invalidImage)]) 400 None)
         else
           match Generate.resolvedApiKey srv fields with
           | None =>
               await (Generate.json srv (VObj [("error", VStr missingKey)]) 400 None)
           | Some key =>
               if isEmpty key
               then await (Generate.json srv (VObj [("error", VStr missingKey)])
                             400 None)
               else
                 answered <-
                   callProvider srv key
                     (payload (textPrompt (optGet fields "prompt")) imageDataUrl) ;;
                 let parsedBody := snd answered in
                 if negb ((200 <=? fst answered) && (fst answered <=? 299))%N
                 then
                   await (Generate.json srv
                            (VObj [("error",
                                    or_ (Generate.providerMessage parsedBody)
                                        (VStr providerFailure));
                                   ("details", parsedBody)])
                            (fst answered) None)
                 else
                   await (Generate.json srv (VObj [("data", parsedBody)])
                            200 (Some "no-store"))
           end
     | _ => await (Generate.json srv (VObj [("error", VStr invalidImage)]) 400 None)
     end)
    (fun e =>
       await (Generate.json srv
                (VObj [("error", VStr "服务异常，请稍后重试。");
                       ("details",
                        VStr match e with
                             | ThrownError m => m
                             | ThrownOther shown => shown
                             end)])
                500 None)).

(** One request served from start to finish. *)
Definition serve (srv : Generate.Server) (request : completion value)
  : completion Generate.JsonResponse * list Generate.Call :=
  POST srv request [].

(** ** Notions used in the statements *)

(** The body parsed from a reply, as [POST] reads it. *)
Definition parsedOf (reply : Generate.Reply) : value :=
  if isEmpty (Generate.reply_text reply) then VNull
  else match Generate.reply_json reply with
       | Some v => v
       | None => VStr (Generate.reply_text reply)
       end.

Definition replyOk (reply : Generate.Reply) : bool :=
  ((200 <=? Generate.reply_status reply) && (Generate.reply_status reply <=? 299))%N.

(** The request gets as far as the provider: it can be read, carries an
    image as a data URL, and a key is at hand. *)
Definition accepted (srv : Generate.Server) (request : completion value) : bool :=
  match request with
  | Throw _ => false
  | Normal requestBody =>
      let fields := coalesce requestBody (VObj []) in
      match optGet fields "imageDataUrl" with
      | VStr imageDataUrl =>
          startsWith imageDataUrl "data:image/"
          && match Generate.resolvedApiKey srv fields with
             | Some key => negb (isEmpty key)
             | None => false
             end
      | _ => false
      end
  end.

(** The responses to a reply of the provider: its body under [data];
    or its status and message, when a response can carry that status;
    or the response of the [catch] clause. *)
Definition delivered (reply : Generate.Reply) : Generate.JsonResponse :=
  {| Generate.res_status := 200;
     Generate.res_body := VObj [("data", parsedOf reply)];
     Generate.res_cacheControl := Some "no-store" |}.

Definition relayed (reply : Generate.Reply) : Generate.JsonResponse :=
  {| Generate.res_status := Generate.reply_status reply;
     Generate.res_body :=
       VObj [("error",
              or_ (Generate.providerMessage (parsedOf reply)) (VStr providerFailure));
             ("details", parsedOf reply)];
     Generate.res_cacheControl := None |}.

Definition responseTo (srv : Generate.Server) (reply : Generate.Reply)
  : Generate.JsonResponse :=
  if replyOk reply then delivered reply
  else if Generate.acceptsStatus (Generate.reply_status reply) then relayed reply
  else Generate.serverError
         (ThrownError (Generate.refusal srv (Generate.reply_status reply))).

End IdentifyRoute.

(* ================================================================== *)
(** * Recognition page: the submission *)
(* ================================================================== *)

Module IdentifyPage.
Import Js Eff.
Local Open Scope eff_scope.

Record Page : Type := {
  file : option File;
  previewUrl : option string;
  apiKey : string;
  (** [IdentifyResult | null], [VNull] standing for [null] *)
  result : value;
  isLoading : bool;
  (** declared a string; at run time what the route put under [error] *)
  error : option value
}.

(** What the browser answers: [FileReader.readAsDataURL] ([None] for a
    failed read) and the outcome of the n-th [fetch] of the route for a
    given body. *)
Record Browser : Type := {
  readAsDataURL : File -> option string;
  respond : nat -> value -> completion HttpResponse
}.

(** The page and the bodies posted to the route, in order. *)
Record World : Type := { page : Page; sent : list value }.

Definition withResult (v : value) (p : Page) : Page :=
  {| file := file p; previewUrl := previewUrl p; apiKey := apiKey p;
     result := v; isLoading := isLoading p; error := error p |}.
Definition withIsLoading (b : bool) (p : Page) : Page :=
  {| file := file p; previewUrl := previewUrl p; apiKey := apiKey p;
     result := result p; isLoading := b; error := error p |}.
Definition withError (e : option value) (p : Page) : Page :=
  {| file := file p; previewUrl := previewUrl p; apiKey := apiKey p;
     result := result p; isLoading := isLoading p; error := e |}.

Definition setPage (f : Page -> Page) : M World unit :=
  modify (fun w => {| page := f (page w); sent := sent w |}).

Definition readFailed : string := "图片读取失败，请重试。".
Definition noFile : string := "请先上传一张图片。".
Definition failed : string := "识别失败，请稍后再试。".
Definition unknownFailure : string := "识别过程中发生未知错误。".

Definition readFileAsDataUrl (B : Browser) (f : File) : completion string :=
  match readAsDataURL B f with
  | Some dataUrl => Normal dataUrl
  | None => Throw (ThrownError readFailed)
  end.

(** The object handed to [JSON.stringify]; a property whose value is
    [undefined] is left out of the text. *)
Definition requestBody (dataUrl key : string) : value :=
  VObj (("imageDataUrl", VStr dataUrl)
        :: if isEmpty (trim key) then [] else [("apiKey", VStr (trim key))]).

Definition fetch (B : Browser) (body : value) : M World HttpResponse :=
  fun w =>
    (respond B (length (sent w)) body,
     {| page := page w; sent := (sent w ++ [body])%list |}).

Definition handleSubmit (B : Browser) : M World unit :=
  fun w =>
    match file (page w) with
    | None => setPage (withError (Some (VStr noFile))) w
    | Some f =>
        (setPage (withIsLoading true) ;;
         setPage (withError None) ;;
         setPage (withResult VNull) ;;
         tryCatch
           (dataUrl <- await (readFileAsDataUrl B f) ;;
            response <- fetch B (requestBody dataUrl (apiKey (page w))) ;;
            received <- await (http_json response) ;;
            if negb (http_ok response)
            then setPage (withError
                   (Some (coalesce (optGet received "error") (VStr failed))))
            else setPage (withResult (coalesce (optGet received "data") VNull)))
           (fun e => setPage (withError (Some (VStr (messageOr unknownFailure e))))) ;;
         setPage (withIsLoading false)) w
    end.

(** The page once a submission has settled with error [e] and result
    [v], and the world a submission of file [f] leaves. *)
Definition settledWith (e : option value) (v : value) (p : Page) : Page :=
  withIsLoading false (withResult v (withError e p)).

Definition outcome (B : Browser) (f : File) (w : World) : World :=
  match readAsDataURL B f with
  | None =>
      {| page := settledWith (Some (VStr readFailed)) VNull (page w);
         sent := sent w |}
  | Some dataUrl =>
      let body := requestBody dataUrl (apiKey (page w)) in
      {| page :=
           match respond B (length (sent w)) body with
           | Throw e =>
               settledWith (Some (VStr (messageOr unknownFailure e))) VNull (page w)
           | Normal response =>
               match http_json response with
               | Throw e =>
                   settledWith (Some (VStr (messageOr unknownFailure e))) VNull (page w)
               | Normal received =>
                   if http_ok response
                   then settledWith None (coalesce (optGet received "data") VNull)
                          (page w)
                   else settledWith
                          (Some (coalesce (optGet received "error") (VStr failed)))
                          VNull (page w)
               end
           end;
         sent := (sent w ++ [body])%list |}
  end.

(** [contentBlocks] (line 164). *)
Definition contentBlocks (p : Page)
  : completion (list Identify.NormalizedContentBlock) :=
  Identify.extractMessageContent (result p).

(** The route behind [fetch]: the response of [IdentifyRoute.POST] to
    the posted body, read back by [response.json()]. *)
Definition throughRoute (srv : Generate.Server) (B : File -> option string)
  : Browser :=
  {| readAsDataURL := B;
     respond := fun _ body =>
       match fst (IdentifyRoute.serve srv (Normal body)) with
       | Normal r =>
           Normal {| http_status := Generate.res_status r;
                     http_json := Normal (Generate.res_body r) |}
       | Throw e => Throw e
       end |}.

End IdentifyPage.

(* ================================================================== *)
(** * Generation page: the submission *)
(* ================================================================== *)

Module GeneratePage.
Import Js Eff.
Local Open Scope eff_scope.

Record Page : Type := {
  prompt : string;
  negativePrompt : string;
  apiKey : string;
  size : string;
  sequentialMode : string;
  watermark : bool;
  isLoading : bool;
  error : option value;
  (** [GenerationResponse | null] and [GenerationImage | null], [VNull]
      standing for [null] *)
  response : value;
  previewImage : value
}.


Definition getDefaultSize : string := "2K".

Definition initialPage (storedKey : string) : Page :=
  {| prompt := ""; negativePrompt := ""; apiKey := storedKey;
     size := getDefaultSize; sequentialMode := "disabled"; watermark := true;
     isLoading := false; error := None; response := VNull;
     previewImage := VNull |}.

Record World : Type := { page : Page; sent : list value }.

Definition withPrompt (s : string) (p : Page) : Page :=
  {| prompt := s; negativePrompt := negativePrompt p; apiKey := apiKey p;
     size := size p; sequentialMode := sequentialMode p;
     watermark := watermark p; isLoading := isLoading p; error := error p;
     response := response p; previewImage := previewImage p |}.
Definition withNegativePrompt (s : string) (p : Page) : Page :=
  {| prompt := prompt p; negativePrompt := s; apiKey := apiKey p;
     size := size p; sequentialMode := sequentialMode p;
     watermark := watermark p; isLoading := isLoading p; error := error p;
     response := response p; previewImage := previewImage p |}.
Definition withIsLoading (b : bool) (p : Page) : Page :=
  {| prompt := prompt p; negativePrompt := negativePrompt p; apiKey := apiKey p;
     size := size p; sequentialMode := sequentialMode p;
     watermark := watermark p; isLoading := b; error := error p;
     response := response p; previewImage := previewImage p |}.
Definition withError (e : option value) (p : Page) : Page :=
  {| prompt := prompt p; negativePrompt := negativePrompt p; apiKey := apiKey p;
     size := size p; sequentialMode := sequentialMode p;
     watermark := watermark p; isLoading := isLoading p; error := e;
     response := response p; previewImage := previewImage p |}.
Definition withResponse (v : value) (p : Page) : Page :=
  {| prompt := prompt p; negativePrompt := negativePrompt p; apiKey := apiKey p;
     size := size p; sequentialMode := sequentialMode p;
     watermark := watermark p; isLoading := isLoading p; error := error p;
     response := v; previewImage := previewImage p |}.
Definition withPreviewImage (v : value) (p : Page) : Page :=
  {| prompt := prompt p; negativePrompt := negativePrompt p; apiKey := apiKey p;
     size := size p; sequentialMode := sequentialMode p;
     watermark := watermark p; isLoading := isLoading p; error := error p;
     response := response p; previewImage := v |}.

Definition setPage (f : Page -> Page) : M World unit :=
  modify (fun w => {| page := f (page w); sent := sent w |}).

Definition blankPrompt : string := "请输入提示词后再尝试生成。".
Definition failed : string := "生成失败，请稍后再试。".
Definition unknownFailure : string := "生成过程中发生未知错误。".

(** The object handed to [JSON.stringify]; a property whose value is
    [undefined] is left out of the text. *)
Definition requestBody (p : Page) : value :=
  VObj ([("prompt", VStr (trim (prompt p)))]
        ++ (if isEmpty (trim (negativePrompt p)) then []
            else [("negativePrompt", VStr (trim (negativePrompt p)))])
        ++ (if isEmpty (trim (apiKey p)) then []
            else [("apiKey", VStr (trim (apiKey p)))])
        ++ [("size", VStr (size p));
            ("sequential", VStr (sequentialMode p));
            ("watermark", VBool (watermark p))])%list.

Definition fetch (respond : nat -> value -> completion HttpResponse)
  (body : value) : M World HttpResponse :=
  fun w =>
    (respond (length (sent w)) body,
     {| page := page w; sent := (sent w ++ [body])%list |}).

Definition handleSubmit (respond : nat -> value -> completion HttpResponse)
  : M World unit :=
  fun w =>
    if isEmpty (trim (prompt (page w)))
    then setPage (withError (Some (VStr blankPrompt))) w
    else
      (setPage (withIsLoading true) ;;
       setPage (withError None) ;;
       setPage (withPreviewImage VNull) ;;
       setPage (withResponse VNull) ;;
       tryCatch
         (answered <- fetch respond (requestBody (page w)) ;;
          received <- await (http_json answered) ;;
          if negb (http_ok answered)
          then setPage (withError
                 (Some (coalesce (optGet received "error") (VStr failed))))
          else setPage (withResponse (coalesce (optGet received "data") VNull)))
         (fun e => setPage (withError (Some (VStr (messageOr unknownFailure e))))) ;;
       setPage (withIsLoading false)) w.

Definition handleReset : M World unit :=
  setPage (withPrompt "") ;;
  setPage (withNegativePrompt "") ;;
  setPage (withPreviewImage VNull) ;;
  setPage (withResponse VNull) ;;
  setPage (withError None).

(** The page once a submission has settled with error [e] and response
    [v], and the world a submission leaves. *)
Definition settledWith (e : option value) (v : value) (p : Page) : Page :=
  withIsLoading false (withResponse v (withPreviewImage VNull (withError e p))).

Definition outcome (respond : nat -> value -> completion HttpResponse) (w : World)
  : World :=
  {| page :=
       match respond (length (sent w)) (requestBody (page w)) with
       | Throw e =>
           settledWith (Some (VStr (messageOr unknownFailure e))) VNull (page w)
       | Normal answered =>
           match http_json answered with
           | Throw e =>
               settledWith (Some (VStr (messageOr unknownFailure e))) VNull (page w)
           | Normal received =>
               if http_ok answered
               then settledWith None (coalesce (optGet received "data") VNull) (page w)
               else settledWith
                      (Some (coalesce (optGet received "error") (VStr failed)))
                      VNull (page w)
           end
       end;
     sent := (sent w ++ [requestBody (page w)])%list |}.

(** The route behind [fetch]: the response of [Generate.POST] to the
    posted body, read back by [response.json()]. *)
Definition throughRoute (srv : Generate.Server)
  : nat -> value -> completion HttpResponse :=
  fun _ body =>
    match fst (Generate.serve srv (Normal body)) with
    | Normal r =>
        Normal {| http_status := Generate.res_status r;
                  http_json := Normal (Generate.res_body r) |}
    | Throw e => Throw e
    end.

End GeneratePage.

(* ================================================================== *)
(** * Helpers the pages share *)
(* ================================================================== *)

(** [formatFileSize], the same in the compression page (lines 15 to 22)
    and in the remove-background page (lines 36 to 43).  A file size is
    an integer; dividing it by 1024 is exact in binary floating point,
    so [kb] and [mb] are the rationals [size / 1024] and
    [size / 1048576], and [toFixed] rounds the exact value. *)
Module FileSize.
Import Js.

Definition showN (n : N) : string := NilZero.string_of_uint (N.to_uint n).

Fixpoint zeros (n : nat) : string :=
  match n with
  | O => ""
  | S n' => String "0" (zeros n')
  end.

(** The integer nearest to [num / den * 10 ^ digits], the larger one of
    two that are equally near. *)
Definition scaled (num den : N) (digits : nat) : N :=
  ((2 * num * 10 ^ N.of_nat digits + den) / (2 * den))%N.

(** [x.toFixed(digits)] for [x = num / den]. *)
Definition toFixed (num den : N) (digits : nat) : string :=
  let n := scaled num den digits in
  match digits with
  | O => showN n
  | S _ =>
      let whole := showN (n / 10 ^ N.of_nat digits) in
      let part := showN (n mod 10 ^ N.of_nat digits) in
      (whole ++ "." ++ zeros (digits - String.length part) ++ part)%string
  end.

(** [None] stands for [null] and [undefined]. *)
Definition formatFileSize (size : option N) : string :=
  match size with
  | None => "-"
  | Some n =>
      if (n =? 0)%N then "-"
      else if (n <? 1024)%N then (toFixed n 1 0 ++ " B")%string
      else if (n <? 1024 * 1024)%N then (toFixed n 1024 1 ++ " KB")%string
      else (toFixed n (1024 * 1024) 2 ++ " MB")%string
  end.

End FileSize.

(** The key kept in [window.localStorage], the same code in the
    remove-background page (lines 55 to 62 and 71 to 81), the generation
    page and the recognition page, each under its own name. *)
Module KeyStorage.
Import Js.

(** The storage: its entries, or a storage whose methods throw. *)
Inductive Storage : Type :=
| Working (entries : string -> option string)
| Failing.

Definition denied : thrown := ThrownError "The operation is insecure.".

Definition getItem (name : string) (st : Storage) : completion (option string) :=
  match st with
  | Working entries => Normal (entries name)
  | Failing => Throw denied
  end.

Definition setItem (name v : string) (st : Storage) : completion unit * Storage :=
  match st with
  | Working entries =>
      (Normal tt,
       Working (fun n => if String.eqb n name then Some v else entries n))
  | Failing => (Throw denied, Failing)
  end.

Definition removeItem (name : string) (st : Storage) : completion unit * Storage :=
  match st with
  | Working entries =>
      (Normal tt, Working (fun n => if String.eqb n name then None else entries n))
  | Failing => (Throw denied, Failing)
  end.

(** The names of the three pages. *)
Definition removeBackgroundName : string := "remove-bg-api-key".
Definition generateName : string := "generate-api-key".
Definition identifyName : string := "identify-api-key".

(** The initial value of [apiKey]: [getItem(name) ?? ""], and [""] when
    the storage throws. *)
Definition storedKey (name : string) (st : Storage) : string :=
  match getItem name st with
  | Normal (Some v) => v
  | Normal None => ""
  | Throw _ => ""
  end.

(** The effect run when [apiKey] has changed; what the storage throws
    is ignored. *)
Definition persist (name apiKey : string) (st : Storage) : Storage :=
  snd (if negb (isEmpty apiKey) then setItem name apiKey st
       else removeItem name st).

End KeyStorage.

(* ================================================================== *)
(** * Sample inputs *)
(* ================================================================== *)

Module Samples.
Import Js RemoveBackground.

Definition photo (n : string) : File :=
  {| file_name := n; file_type := "image/jpeg"; file_size := 2048;
     file_bytes := "" |}.

Definition upload (n : string) (t : N) (r : string) : Upload :=
  {| picked := photo n; now := t; random := r;
     preview := ("blob:preview/" ++ n)%string |}.

Definition uploadA : Upload := upload "a.jpg" 1700000000001 "8f3a".
Definition uploadB : Upload := upload "b.jpg" 1700000000001 "c41d".
Definition uploadC : Upload := upload "c.jpg" 1700000000002 "07be".

Definition itemA : QueueItem := createQueueItem uploadA.
Definition itemB : QueueItem := createQueueItem uploadB.
Definition itemC : QueueItem := createQueueItem uploadC.

Definition pageOf (key : string) (q : list QueueItem) (a : option string) : Page :=
  {| apiKey := key; queue := q; queueRef := q; activeId := a;
     isProcessing := false; globalError := None; lastCreditInfo := None |}.

(** Three pending items, the first one selected. *)
Definition threePending : Page :=
  pageOf "secret" [itemA; itemB; itemC] (Some (id itemA)).

(** A successful answer carrying the cut-out image. *)
Definition cutout : Response :=
  {| res_status := 200;
     res_header := fun h => if String.eqb h "x-credits-charged" then Some "1"
                            else None;
     res_json := Throw (ThrownError "Unexpected token");
     res_text := Normal "";
     res_blob := Normal {| blob_type := "image/png"; blob_bytes := "cutout" |} |}.

(** A refusal with a JSON body. *)
Definition noCredits : Response :=
  {| res_status := 402;
     res_header := fun h => if String.eqb h "content-type"
                            then Some "application/json" else None;
     res_json := Normal (VObj [("error", VStr "Insufficient credits");
                               ("code", VStr "insufficient_credits")]);
     res_text := Normal "";
     res_blob := Normal {| blob_type := "application/json"; blob_bytes := "" |} |}.

(** The provider fails on the second call only. *)
Definition failsSecond : Network :=
  {| respond := fun n => if Nat.eqb n 1 then Normal noCredits else Normal cutout;
     mint := fun n => ("blob:result/" ++ showNat n)%string |}.

(** An item whose background has been removed. *)
Definition doneA : QueueItem :=
  settled itemA
    (toSuccess {| blob_type := "image/png"; blob_bytes := "cutout" |}
       "blob:result/0" (creditsOf cutout)).

(** The page after the key is typed in, three files are picked and the
    batch is run against [failsSecond]. *)
Definition afterBatch : Page :=
  act (handleProcessQueue failsSecond)
    (act (handleFileChange [uploadA; uploadB; uploadC])
       (act (setPage (withApiKey "secret")) (initialPage ""))).

(** Its second item, the one whose call was refused. *)
Definition failedB : QueueItem :=
  settled itemB
    (toError (VStr "Insufficient credits。错误码：insufficient_credits")
       (Some (creditsOf noCredits))).

(** The provider never answers. *)
Definition offline : Network :=
  {| respond := fun _ => Throw (ThrownError "Failed to fetch");
     mint := fun n => ("blob:result/" ++ showNat n)%string |}.

(** A session in which a key has been typed and a file picked, and the
    session once a batch has been started from it. *)
Definition typed : Session :=
  perform (handleFileChange [uploadA])
    (perform (setPage (withApiKey "secret")) (initialSession "")).

Definition started : Session :=
  {| world := {| page := withIsProcessing true
                           (withGlobalError None (page (world typed)));
                 trace := [] |};
     phase := Between failsSecond (trim (apiKey (page (world typed))))
                (filter eligible (queueRef (page (world typed)))) |}.

End Samples.

Module CompressSamples.
Import Js Compress.

(** A sticker with a transparent left pixel and a red right pixel. *)
Definition sticker : Image :=
  {| naturalWidth := 2; naturalHeight := 1;
     texel := fun x _ =>
       if (x =? 0)%N then transparentBlack
       else {| red := 200; green := 10; blue := 10; alpha := 255 |} |}.

Definition gifFile : File :=
  {| file_name := "sticker.gif"; file_type := "image/gif"; file_size := 96;
     file_bytes := "GIF89a" |}.
Definition pngFile : File :=
  {| file_name := "sticker.png"; file_type := "image/png"; file_size := 120;
     file_bytes := "PNG" |}.

(** A canvas that keeps its colours multiplied by alpha, in eight bits
    and rounded to the nearest: a pixel is multiplied when it is drawn
    and divided when it is read. *)
Definition rounded (num den : N) : N := ((2 * num + den) / (2 * den))%N.

Definition premultiply (p : Pixel) : Pixel :=
  {| red := rounded (red p * alpha p) 255;
     green := rounded (green p * alpha p) 255;
     blue := rounded (blue p * alpha p) 255;
     alpha := alpha p |}.

Definition unpremultiply (p : Pixel) : Pixel :=
  if (alpha p =? 0)%N then transparentBlack
  else {| red := N.min 255 (rounded (red p * 255) (alpha p));
          green := N.min 255 (rounded (green p * 255) (alpha p));
          blue := N.min 255 (rounded (blue p * 255) (alpha p));
          alpha := alpha p |}.

Definition blend (s d : Pixel) : Pixel :=
  let rest := (255 - alpha s)%N in
  {| red := red s + rounded (red d * rest) 255;
     green := green s + rounded (green d * rest) 255;
     blue := blue s + rounded (blue d * rest) 255;
     alpha := alpha s + rounded (alpha d * rest) 255 |}%N.

Definition premultiplied (s d : Pixel) : Pixel :=
  unpremultiply (blend (premultiply s) (premultiply d)).

(** A browser that decodes every file to [sticker] and encodes every
    canvas, to every type. *)
Definition browser : Browser :=
  {| readAsDataURL := fun f => Some ("data:" ++ file_type f ++ ";base64,")%string;
     loadImage := fun _ => Some sticker;
     context2d := true;
     sourceOver := premultiplied;
     canEncode := fun _ => true;
     encodes := fun _ _ _ => true;
     createObjectURL := fun _ => "blob:compressed" |}.

(** The same browser with an encoder that does not know WebP. *)
Definition withoutWebp : Browser :=
  {| readAsDataURL := readAsDataURL browser;
     loadImage := loadImage browser;
     context2d := true;
     sourceOver := premultiplied;
     canEncode := fun type => negb (String.eqb type "image/webp");
     encodes := fun _ _ _ => true;
     createObjectURL := fun _ => "blob:compressed" |}.

(** A pixel that is red and half transparent, and one that is red and
    all but transparent. *)
Definition halfRed : Pixel := {| red := 200; green := 10; blue := 10; alpha := 128 |}.
Definition faintRed : Pixel := {| red := 200; green := 10; blue := 10; alpha := 1 |}.

(** The default of the quality slider, 70 out of 100. *)
Definition seventy : QArith_base.Q := QArith_base.Qmake 70 100.

End CompressSamples.

Module GenerateSamples.
Import Js Generate.

(** A request that leaves [responseFormat] out. *)
Definition request : value :=
  VObj [("prompt", VStr "  a red fox  "); ("apiKey", VStr "ark-key")].

Definition notFound : Reply :=
  {| reply_status := 404; reply_text := "Not Found"; reply_json := None |}.

Definition delivered : Reply :=
  {| reply_status := 200;
     reply_text := "{...}";
     reply_json :=
       Some (VObj [("data", VArr [VObj [("b64_json", VStr "iVBORw0KGgo=");
                                        ("size", VStr "2048x2048")]])]) |}.

(** The provider has URL delivery closed: 404 first, then the image as
    base64. *)
Definition urlClosed : Server :=
  {| ARK_API_KEY := None;
     answer := fun n => if Nat.eqb n 0 then Normal notFound else Normal delivered;
     refusal := fun _ => "Invalid response status code" |}.

(** A request that asks for base64 from the start. *)
Definition asBase64 : value :=
  VObj [("prompt", VStr "a red fox"); ("apiKey", VStr "ark-key");
        ("responseFormat", VStr "b64_json")].


(** The provider answers 304, a status that goes without a body. *)
Definition notModified : Server :=
  {| ARK_API_KEY := None;
     answer := fun _ =>
       Normal {| reply_status := 304; reply_text := ""; reply_json := None |};
     refusal := fun _ => "Invalid response status code" |}.

(** A reply whose image comes as base64 with a type of its own, after
    an entry without image. *)
Definition asJpeg : value :=
  VObj [("data", VArr [VObj [("size", VStr "1K")];
                       VObj [("b64_json", VStr "/9j/4AAQ");
                             ("mime_type", VStr "image/jpeg")]])].

(** A reply whose image cannot be converted: its payload is an object
    with a [toString] of its own. *)
Definition unprintable : value :=
  VObj [("data", VArr [VObj [("b64_json", VObj [("toString", VNum 1)])]])].

End GenerateSamples.

Module IdentifySamples.
Import Js Identify.

Definition hello : value := responseWith (VStr "  hello  ").
Definition emptyArray : value := responseWith (VArr []).
Definition mixed : value :=
  responseWith (VArr [VStr " a cat "; VObj [("type", VStr "image_url")];
                      VObj [("type", VStr "text"); ("text", VStr "on a sofa")];
                      VStr ""]).

End IdentifySamples.

Module PageSamples.
Import Js.

(** A picture picked on the recognition page, and a reader that gives
    its bytes as a data URL. *)
Definition snapshot : File :=
  {| file_name := "cat.png"; file_type := "image/png"; file_size := 3;
     file_bytes := "PNG" |}.

Definition reader (f : File) : option string :=
  Some ("data:" ++ file_type f ++ ";base64,UE5H")%string.

(** The provider describes the picture. *)
Definition described : Generate.Reply :=
  {| Generate.reply_status := 200;
     Generate.reply_text := "{...}";
     Generate.reply_json := Some IdentifySamples.hello |}.

Definition recognizer : Generate.Server :=
  {| Generate.ARK_API_KEY := Some "server-key";
     Generate.answer := fun _ => Normal described;
     Generate.refusal := fun _ => "Invalid response status code" |}.

(** A provider that answers in plain text. *)
Definition chatty : Generate.Server :=
  {| Generate.ARK_API_KEY := Some "server-key";
     Generate.answer := fun _ =>
       Normal {| Generate.reply_status := 200;
                 Generate.reply_text := "OK";
                 Generate.reply_json := None |};
     Generate.refusal := fun _ => "Invalid response status code" |}.

(** The recognition page with the picture and a key of its own. *)
Definition uploaded : IdentifyPage.World :=
  {| IdentifyPage.page :=
       {| IdentifyPage.file := Some snapshot;
          IdentifyPage.previewUrl := Some "blob:preview";
          IdentifyPage.apiKey := " my-key ";
          IdentifyPage.result := VNull;
          IdentifyPage.isLoading := false;
          IdentifyPage.error := None |};
     IdentifyPage.sent := [] |}.




End PageSamples.

(* ================================================================== *)
(** * Facts about strings *)
(* ================================================================== *)

Module JsFacts.
Import Js.
Local Open Scope list_scope.

Lemma append_assoc (a b c : string) : ((a ++ b) ++ c = a ++ (b ++ c))%string.
Proof. induction a as [|x a IH]; cbn; [reflexivity|]. rewrite IH. reflexivity. Qed.

Lemma append_inj_l (p s t : string) : (p ++ s = p ++ t)%string -> s = t.
Proof. induction p; cbn; intros H; [exact H|]. injection H as H. auto. Qed.


(** ** Decimal renderings *)

Lemma showNat_injective (n m : nat) : showNat n = showNat m -> n = m.
Proof.
  unfold showNat. intros H.
  assert (Hparse : forall k,
            option_map Nat.of_uint
              (NilZero.uint_of_string (NilZero.string_of_uint (Nat.to_uint k))) =
            Some k).
  { intros k. destruct (Nat.to_uint k) eqn:Hk;
      try (rewrite NilZero.usu by discriminate; cbn [option_map];
           rewrite <- Hk, DecimalNat.Unsigned.of_to; reflexivity).
    rewrite NilZero.usu_nil. cbn [option_map].
    rewrite <- (DecimalNat.Unsigned.of_to k), Hk. reflexivity. }
  pose proof (Hparse n) as Hn. rewrite H, Hparse in Hn. congruence.
Qed.

Lemma digits_string_of_uint (d : Decimal.uint) :
  digits (NilEmpty.string_of_uint d) = true.
Proof. induction d; cbn; auto. Qed.

Lemma digits_showNat (n : nat) : digits (showNat n) = true.
Proof.
  unfold showNat, NilZero.string_of_uint.
  destruct (Nat.to_uint n); try apply digits_string_of_uint. reflexivity.
Qed.

(** Two renderings followed by a dash and a rest agree only when the
    renderings and the rests agree. *)
Lemma digits_then_dash (d d' r r' : string) :
  digits d = true -> digits d' = true ->
  (d ++ String "-" r = d' ++ String "-" r')%string -> d = d' /\ r = r'.
Proof.
  revert d'. induction d as [|c d IH]; intros d' Hd Hd' Heq.
  - destruct d' as [|c' d']; cbn in Heq.
    + injection Heq as ->. auto.
    + injection Heq as <- _. cbn in Hd'. discriminate.
  - destruct d' as [|c' d']; cbn in Heq.
    + injection Heq as -> _. cbn in Hd. discriminate.
    + injection Heq as -> Heq. cbn in Hd, Hd'.
      apply andb_true_iff in Hd, Hd'.
      destruct (IH d' (proj2 Hd) (proj2 Hd') Heq) as [-> ->]. auto.
Qed.

(** ** Reversal *)

Lemma reverse_involutive (s : string) : reverse (reverse s) = s.
Proof.
  unfold reverse. rewrite list_ascii_of_string_of_list_ascii, rev_involutive.
  apply string_of_list_ascii_of_string.
Qed.

Lemma list_ascii_of_string_app (s t : string) :
  list_ascii_of_string (s ++ t) = list_ascii_of_string s ++ list_ascii_of_string t.
Proof. induction s; cbn; [reflexivity|]. rewrite IHs. reflexivity. Qed.

Lemma string_of_list_ascii_app (l k : list ascii) :
  string_of_list_ascii (l ++ k) =
  (string_of_list_ascii l ++ string_of_list_ascii k)%string.
Proof. induction l; cbn; [reflexivity|]. rewrite IHl. reflexivity. Qed.

Lemma reverse_app (s t : string) :
  reverse (s ++ t) = (reverse t ++ reverse s)%string.
Proof.
  unfold reverse. rewrite list_ascii_of_string_app, rev_app_distr.
  apply string_of_list_ascii_app.
Qed.

(** ** [trim] *)

Lemma length_append (s t : string) :
  String.length (s ++ t) = String.length s + String.length t.
Proof. induction s; cbn; [reflexivity|]. rewrite IHs. reflexivity. Qed.

(** [dropSpace] keeps a suffix. *)
Lemma dropSpace_suffix (back : bool) (n : nat) :
  forall s, String.length s <= n -> exists p, s = (p ++ dropSpace back s)%string.
Proof.
  induction n as [|n IH]; intros s Hlen.
  - destruct s; [exists ""%string; reflexivity|cbn in Hlen; lia].
  - destruct s as [|c0 s1]; [exists ""%string; reflexivity|].
    cbn [String.length] in Hlen.
    cbn [dropSpace]. destruct (ws1 c0).
    { destruct (IH s1 ltac:(lia)) as [p Hp]. exists (String c0 p). cbn. congruence. }
    destruct s1 as [|c1 s2]; [exists ""%string; reflexivity|].
    cbn [String.length] in Hlen.
    destruct (if back then ws2 c1 c0 else ws2 c0 c1).
    { destruct (IH s2 ltac:(lia)) as [p Hp]. exists (String c0 (String c1 p)).
      cbn. congruence. }
    destruct s2 as [|c2 s3]; [exists ""%string; reflexivity|].
    cbn [String.length] in Hlen.
    destruct (if back then ws3 c2 c1 c0 else ws3 c0 c1 c2).
    { destruct (IH s3 ltac:(lia)) as [p Hp].
      exists (String c0 (String c1 (String c2 p))). cbn. congruence. }
    exists ""%string. reflexivity.
Qed.

Lemma dropSpace_length (back : bool) (s : string) :
  String.length (dropSpace back s) <= String.length s.
Proof.
  destruct (dropSpace_suffix back (String.length s) s (le_n _)) as [p Hp].
  rewrite Hp at 2. rewrite length_append. lia.
Qed.

(** A string that [dropSpace] leaves alone has prefixes that it leaves
    alone. *)
Lemma dropSpace_fixed_prefix (back : bool) (u v : string) :
  dropSpace back (u ++ v) = (u ++ v)%string -> dropSpace back u = u.
Proof.
  intros H.
  assert (Hshort : forall t, String.length t < String.length (u ++ v) ->
                     dropSpace back t <> (u ++ v)%string).
  { intros t Hlt Heq. pose proof (dropSpace_length back t) as Hle.
    rewrite Heq in Hle. lia. }
  destruct u as [|c0 u1]; [reflexivity|].
  cbn [append dropSpace] in H |- *.
  destruct (ws1 c0).
  { exfalso. apply (Hshort (u1 ++ v)%string); [cbn; lia|exact H]. }
  destruct u1 as [|c1 u2]; [reflexivity|].
  cbn [append] in H.
  destruct (if back then ws2 c1 c0 else ws2 c0 c1).
  { exfalso. apply (Hshort (u2 ++ v)%string); [cbn; lia|exact H]. }
  destruct u2 as [|c2 u3]; [reflexivity|].
  cbn [append] in H.
  destruct (if back then ws3 c2 c1 c0 else ws3 c0 c1 c2).
  { exfalso. apply (Hshort (u3 ++ v)%string); [cbn; lia|exact H]. }
  reflexivity.
Qed.

Lemma dropSpace_idempotent (back : bool) (n : nat) :
  forall s, String.length s <= n ->
    dropSpace back (dropSpace back s) = dropSpace back s.
Proof.
  induction n as [|n IH]; intros s Hlen.
  - destruct s; [reflexivity|cbn in Hlen; lia].
  - destruct s as [|c0 s1]; [reflexivity|]. cbn [String.length] in Hlen.
    cbn [dropSpace]. destruct (ws1 c0) eqn:H1; [apply IH; lia|].
    destruct s1 as [|c1 s2]; [cbn [dropSpace]; rewrite H1; reflexivity|].
    cbn [String.length] in Hlen.
    destruct (if back then ws2 c1 c0 else ws2 c0 c1) eqn:H2; [apply IH; lia|].
    destruct s2 as [|c2 s3]; [cbn [dropSpace]; rewrite H1, H2; reflexivity|].
    cbn [String.length] in Hlen.
    destruct (if back then ws3 c2 c1 c0 else ws3 c0 c1 c2) eqn:H3; [apply IH; lia|].
    cbn [dropSpace]. rewrite H1, H2, H3. reflexivity.
Qed.

Lemma trimStart_trim (s : string) : trimStart (trim s) = trim s.
Proof.
  unfold trim, trimEnd, trimStart.
  set (t := dropSpace false s).
  destruct (dropSpace_suffix true _ (reverse t) (le_n _)) as [p Hp].
  set (d := dropSpace true (reverse t)) in *.
  assert (Ht : t = (reverse d ++ reverse p)%string).
  { rewrite <- (reverse_involutive t), Hp. apply reverse_app. }
  apply (dropSpace_fixed_prefix false (reverse d) (reverse p)).
  rewrite <- Ht. unfold t. apply (dropSpace_idempotent false _ s (le_n _)).
Qed.

(** Trimming twice is trimming once. *)
Lemma trim_idempotent (s : string) : trim (trim s) = trim s.
Proof.
  unfold trim at 1. rewrite trimStart_trim.
  unfold trim, trimEnd. rewrite reverse_involutive.
  rewrite (dropSpace_idempotent true _ _ (le_n _)). reflexivity.
Qed.

(** ** [dropExtension] *)

Lemma plain_app (s t : string) : plain (s ++ t) = plain s && plain t.
Proof.
  induction s as [|c s IH]; [reflexivity|]. cbn [append plain]. rewrite IH.
  rewrite !andb_assoc. reflexivity.
Qed.

(** The extension after the last dot goes, whatever the stem holds. *)
Lemma dropExtension_stem (stem extension : string) :
  plain extension = true -> extension <> ""%string ->
  dropExtension (stem ++ String "." extension) = stem.
Proof.
  intros Hplain Hne. induction stem as [|c stem IH].
  - cbn [append dropExtension]. rewrite Hplain.
    destruct extension; [contradiction|reflexivity].
  - assert (Hdot : plain (stem ++ String "." extension) = false).
    { rewrite plain_app. cbn. apply andb_false_r. }
    cbn [append dropExtension]. rewrite Hdot, andb_false_r, IH. reflexivity.
Qed.

(** A name without a dot is kept. *)
Lemma dropExtension_no_dot (s : string) :
  includes s "." = false -> dropExtension s = s.
Proof.
  induction s as [|c s IH]; [reflexivity|].
  cbn [includes dropExtension]. intros H. apply orb_false_iff in H.
  destruct H as [Hc Hs].
  destruct (Ascii.eqb c ".") eqn:Heq.
  - apply Ascii.eqb_eq in Heq. subst c.
    assert (Ht : String.prefix "." (String "." s) = true) by (destruct s; reflexivity).
    congruence.
  - cbn [andb]. rewrite IH by exact Hs. reflexivity.
Qed.

End JsFacts.

(* ================================================================== *)
(** * Facts about the batch queue *)
(* ================================================================== *)

Module QueueFacts.
Import Js Eff RemoveBackground.
Local Open Scope list_scope.
Local Open Scope eff_scope.

(** ** Equations of the actions *)

Lemma emitAll_eq (es : list Event) (w : World) :
  emitAll es w = (Normal tt, {| page := page w; trace := trace w ++ es |}).
Proof.
  revert w; induction es as [|e es IH]; intros [p t]; simpl.
  - unfold ret; rewrite app_nil_r; reflexivity.
  - unfold bind, emit, modify; simpl. rewrite IH; simpl.
    rewrite <- app_assoc; reflexivity.
Qed.

Lemma withQueue_same (p : Page) : withQueue (queue p) p = p.
Proof. destruct p; reflexivity. Qed.

Lemma updateQueueItem_eq (target : string) (updater : Updater) (w : World) :
  updateQueueItem target updater w =
  (Normal tt,
   {| page := withQueue (updateQueue target updater (queue (page w))) (page w);
      trace := trace w ++ Update target updater
                 :: revocations target updater (queue (page w)) |}).
Proof.
  destruct w as [p t]; unfold updateQueueItem, bind, emit, modify, setPage.
  cbn [page trace]. rewrite emitAll_eq. cbn [page trace].
  rewrite <- app_assoc; reflexivity.
Qed.

(** ** Updates by identifier *)

Lemma sameId_true (target : string) (item : QueueItem) :
  sameId target item = true <-> id item = target.
Proof. unfold sameId; apply String.eqb_eq. Qed.

Lemma sameId_false (target : string) (item : QueueItem) :
  sameId target item = false <-> id item <> target.
Proof. unfold sameId; apply String.eqb_neq. Qed.

Lemma updateQueue_absent (target : string) (updater : Updater) (q : list QueueItem) :
  ~ In target (ids q) -> updateQueue target updater q = q.
Proof.
  induction q as [|item q IH]; simpl; intros Hnot; [reflexivity|].
  destruct (sameId target item) eqn:E.
  - apply sameId_true in E. exfalso; apply Hnot; left; exact E.
  - simpl. f_equal. apply IH. intros Hin; apply Hnot; right; exact Hin.
Qed.

Lemma revocations_absent (target : string) (updater : Updater) (q : list QueueItem) :
  ~ In target (ids q) -> revocations target updater q = [].
Proof.
  induction q as [|item q IH]; simpl; intros Hnot; [reflexivity|].
  destruct (sameId target item) eqn:E.
  - apply sameId_true in E. exfalso; apply Hnot; left; exact E.
  - simpl. apply IH. intros Hin; apply Hnot; right; exact Hin.
Qed.

Lemma ids_filter_out (target : string) (q : list QueueItem) :
  ~ In target (ids (filter (fun item => negb (sameId target item)) q)).
Proof.
  unfold ids; rewrite in_map_iff; intros [item [Hid Hin]].
  apply filter_In in Hin; destruct Hin as [_ Hkeep].
  apply sameId_true in Hid. rewrite Hid in Hkeep; discriminate.
Qed.

(** ** Removal *)

Lemma handleRemoveItem_page (target : string) (p : Page) :
  page (run (handleRemoveItem target) p) =
  withActiveId
    (match activeId p with
     | Some current =>
         if String.eqb current target
         then match filter (fun item => negb (sameId target item)) (queue p) with
              | item :: _ => Some (id item)
              | [] => None
              end
         else Some current
     | None => None
     end)
    (withQueue (filter (fun item => negb (sameId target item)) (queue p)) p).
Proof.
  unfold run, handleRemoveItem; cbv beta zeta.
  cbn [page trace].
  destruct (find (sameId target) (queue p)); unfold bind;
    [rewrite emitAll_eq|]; reflexivity.
Qed.

Lemma filter_out_unique (target : string) (q : list QueueItem) :
  NoDup (ids q) -> In target (ids q) ->
  exists before item after,
    q = before ++ item :: after /\ id item = target /\
    filter (fun it => negb (sameId target it)) q = before ++ after.
Proof.
  induction q as [|x q IH]; simpl; intros Hnd Hin; [contradiction|].
  inversion Hnd as [|? ? Hx Hq]; subst.
  destruct (sameId target x) eqn:E.
  - apply sameId_true in E. exists [], x, q. simpl. repeat split; auto.
    clear IH Hin Hnd Hq. rewrite <- E in *.
    induction q as [|y q IHq]; simpl; [reflexivity|].
    destruct (sameId (id x) y) eqn:Ey.
    + apply sameId_true in Ey. exfalso; apply Hx; left; exact Ey.
    + simpl. f_equal. apply IHq. intros H; apply Hx; right; exact H.
  - pose proof (proj1 (sameId_false _ _) E) as E'.
    destruct Hin as [Hin|Hin]; [contradiction|].
    destruct (IH Hq Hin) as (before & item & after & Hq' & Hid & Hf).
    exists (x :: before), item, after. simpl. rewrite Hf.
    split; [rewrite Hq'; reflexivity | split; [exact Hid | reflexivity]].
Qed.

(** ** One turn of the loop *)

Lemma steps_app (a b : list Event) : steps (a ++ b) = steps a ++ steps b.
Proof. apply filter_app. Qed.

Lemma fetchCount_app (a b : list Event) : fetchCount (a ++ b) = fetchCount a + fetchCount b.
Proof. unfold fetchCount; rewrite filter_app, length_app; reflexivity. Qed.

Lemma revocations_quiet (target : string) (updater : Updater) (q : list QueueItem) :
  steps (revocations target updater q) = [] /\ fetchCount (revocations target updater q) = 0.
Proof.
  unfold revocations, fetchCount.
  induction q as [|x q [IH1 IH2]]; simpl; [split; reflexivity|].
  unfold steps in *. rewrite !filter_app, length_app, IH1, IH2.
  destruct (negb (sameId target x)); simpl; [split; reflexivity|].
  unfold revoked.
  destruct (set_resultUrl updater) as [[new|]|]; destruct (resultUrl x) as [old|];
    simpl; try (split; reflexivity).
  destruct (negb (isEmpty new) && negb (isEmpty old) && negb (old =? new)%string);
    split; reflexivity.
Qed.

Lemma steps_cons_update t u l : steps (Update t u :: l) = Update t u :: steps l.
Proof. reflexivity. Qed.
Lemma steps_cons_fetch f k l : steps (Fetch f k :: l) = Fetch f k :: steps l.
Proof. reflexivity. Qed.
Lemma steps_cons_create u l : steps (CreateObjectURL u :: l) = steps l.
Proof. reflexivity. Qed.
Lemma steps_revocations t u q : steps (revocations t u q) = [].
Proof. apply revocations_quiet. Qed.
Lemma fetchCount_revocations t u q : fetchCount (revocations t u q) = 0.
Proof. apply revocations_quiet. Qed.
Lemma fetchCount_cons_update t u l : fetchCount (Update t u :: l) = fetchCount l.
Proof. reflexivity. Qed.
Lemma fetchCount_cons_fetch f k l : fetchCount (Fetch f k :: l) = S (fetchCount l).
Proof. reflexivity. Qed.
Lemma fetchCount_cons_create u l : fetchCount (CreateObjectURL u :: l) = fetchCount l.
Proof. reflexivity. Qed.
Lemma steps_nil : steps [] = [].
Proof. reflexivity. Qed.
Lemma fetchCount_nil : fetchCount [] = 0.
Proof. reflexivity. Qed.

Ltac quiet :=
  cbn [page trace queue withQueue withLastCreditInfo];
  repeat first
    [ rewrite steps_app | rewrite fetchCount_app
    | rewrite steps_cons_update | rewrite steps_cons_fetch
    | rewrite steps_cons_create | rewrite steps_revocations
    | rewrite fetchCount_cons_update | rewrite fetchCount_cons_fetch
    | rewrite fetchCount_cons_create | rewrite fetchCount_revocations
    | rewrite steps_nil | rewrite fetchCount_nil ].

Ltac settle_with H :=
  rewrite ?updateQueueItem_eq; unfold bind, setPage, modify, ret;
  rewrite ?updateQueueItem_eq;
  do 2 eexists; split; [reflexivity|];
  match goal with
  | |- ?A /\ ?B =>
      let HB := fresh "HB" in
      assert (HB : B);
      [ split; [reflexivity|];
        split; [quiet; rewrite ?app_nil_r; reflexivity|];
        split; [quiet; lia|];
        unfold sameShell; cbn; tauto
      | split; [H | exact HB] ]
  end.

Lemma readFailure_pure (r : Response) :
  exists c, forall w : World, readFailure r w = (c, w).
Proof.
  unfold readFailure.
  destruct (res_header r "content-type") as [ct|];
    [destruct (includes ct "application/json")|];
    unfold bind, await, ret.
  - destruct (res_json r) as [body|e]; eexists; intros w; reflexivity.
  - destruct (res_text r) as [t|e]; eexists; intros w; reflexivity.
  - destruct (res_text r) as [t|e]; eexists; intros w; reflexivity.
Qed.

Lemma combineMessage_pure (m code : value) :
  exists c, forall w : World, combineMessage m code w = (c, w).
Proof.
  unfold combineMessage.
  destruct (truthy code && notStrictlyString code "");
    [|eexists; intros w; reflexivity].
  unfold bind, await.
  destruct (toString m) as [shown|e]; [|eexists; intros w; reflexivity].
  destruct m; try (eexists; intros w; reflexivity).
  destruct (toString code); eexists; intros w; reflexivity.
Qed.

(** What the second half of a turn does, whatever the page has become
    in the meantime. *)
Lemma finishTurn_spec net item outcome w :
  exists final w',
    finishTurn net item outcome w = (Normal tt, w') /\
    settles outcome final /\
    queue (page w') = updateQueue (id item) final (queue (page w)) /\
    steps (trace w') = steps (trace w) ++ [Update (id item) final] /\
    fetchCount (trace w') = fetchCount (trace w) /\
    sameShell (page w) (page w').
Proof.
  unfold finishTurn, tryCatch, onFailure, bind at 1, await at 1.
  destruct outcome as [r|e].
  - unfold settleResponse. destruct (ok r) eqn:Hok; cbn [negb].
    + unfold bind at 1, await. destruct (res_blob r) as [b|e] eqn:Hb.
      * unfold bind at 1, createObjectURL. cbn [page trace].
        settle_with ltac:(constructor; assumption).
      * settle_with ltac:(constructor; simpl; rewrite Hok, Hb; reflexivity).
    + destruct (readFailure_pure r) as [[failure|e] Hread];
        unfold bind at 1; rewrite Hread.
      * destruct (combineMessage_pure (fst failure) (snd failure)) as [[m|e] Hcomb];
          unfold bind at 1; rewrite Hcomb.
        -- settle_with ltac:(constructor; simpl; rewrite Hok; reflexivity).
        -- settle_with ltac:(constructor; simpl; rewrite Hok; reflexivity).
      * settle_with ltac:(constructor; simpl; rewrite Hok; reflexivity).
  - settle_with ltac:(constructor; reflexivity).
Qed.

Lemma beginTurn_eq net key item w :
  beginTurn net key item w =
  (Normal (respond net (fetchCount (trace w))),
   {| page := withQueue (updateQueue (id item) toProcessing (queue (page w)))
                (page w);
      trace := (trace w ++ Update (id item) toProcessing
                  :: revocations (id item) toProcessing (queue (page w)))
               ++ [Fetch (file item) key] |}).
Proof.
  unfold beginTurn, bind. rewrite updateQueueItem_eq. cbn [page trace].
  replace (fetchCount (trace w ++ Update (id item) toProcessing
             :: revocations (id item) toProcessing (queue (page w))))
    with (fetchCount (trace w)) by (quiet; lia).
  reflexivity.
Qed.

(** A turn is its two halves one after the other. *)
Lemma processItem_split net key item w :
  processItem net key item w =
  bind (beginTurn net key item) (finishTurn net item) w.
Proof.
  unfold bind at 1. rewrite beginTurn_eq.
  unfold processItem, bind at 1. rewrite updateQueueItem_eq.
  unfold finishTurn, tryCatch, fetch, await.
  unfold bind at 1.
  cbn [page trace].
  replace (fetchCount (trace w ++ Update (id item) toProcessing
             :: revocations (id item) toProcessing (queue (page w))))
    with (fetchCount (trace w)) by (quiet; lia).
  unfold bind at 1.
  destruct (respond net (fetchCount (trace w))); reflexivity.
Qed.

Lemma processItem_spec net key item w :
  exists final w',
    processItem net key item w = (Normal tt, w') /\
    settles (respond net (fetchCount (trace w))) final /\
    queue (page w') =
      updateQueue (id item) final
        (updateQueue (id item) toProcessing (queue (page w))) /\
    steps (trace w') = steps (trace w) ++ turn key item final /\
    fetchCount (trace w') = S (fetchCount (trace w)) /\
    sameShell (page w) (page w').
Proof.
  rewrite processItem_split. unfold bind. rewrite beginTurn_eq.
  match goal with
  | |- context [finishTurn net item ?c ?w1] =>
      destruct (finishTurn_spec net item c w1)
        as (final & w' & Hrun & Hset & Hq & Hs & Hn & Hsh)
  end.
  exists final, w'. split; [exact Hrun|]. split; [exact Hset|].
  split; [exact Hq|]. split; [|split].
  - rewrite Hs. quiet. unfold turn. rewrite <- !app_assoc. reflexivity.
  - rewrite Hn. quiet. lia.
  - unfold sameShell in *. cbn in Hsh. tauto.
Qed.

Lemma sameShell_refl p : sameShell p p.
Proof. unfold sameShell; tauto. Qed.

Lemma sameShell_trans p q r : sameShell p q -> sameShell q r -> sameShell p r.
Proof. unfold sameShell; intuition congruence. Qed.

Lemma forOf_processItem net key items : forall w,
  exists finals w',
    forOf items (processItem net key) w = (Normal tt, w') /\
    Forall2 (fun k final => settles (respond net k) final)
      (seq (fetchCount (trace w)) (length items)) finals /\
    queue (page w') = fold_left afterTurn (combine items finals) (queue (page w)) /\
    steps (trace w') = steps (trace w) ++ turns key (combine items finals) /\
    fetchCount (trace w') = fetchCount (trace w) + length items /\
    sameShell (page w) (page w').
Proof.
  induction items as [|item items IH]; intros w.
  - exists [], w. simpl. unfold ret. rewrite app_nil_r, Nat.add_0_r.
    repeat split; auto using sameShell_refl.
  - destruct (processItem_spec net key item w)
      as (final & w1 & Hrun & Hset & Hq & Hs & Hn & Hsh).
    destruct (IH w1) as (finals & w' & Hrun' & Hset' & Hq' & Hs' & Hn' & Hsh').
    exists (final :: finals), w'. simpl.
    unfold bind. rewrite Hrun, Hrun'.
    split; [reflexivity|].
    split; [constructor; [exact Hset | rewrite <- Hn; exact Hset']|].
    split; [rewrite Hq', Hq; reflexivity|].
    split; [rewrite Hs', Hs; unfold turns; simpl; rewrite <- app_assoc; reflexivity|].
    split; [lia|].
    eapply sameShell_trans; eassumption.
Qed.

Lemma handleProcessQueue_runs net p :
  isEmpty (trim (apiKey p)) = false ->
  queue p <> [] ->
  filter eligible (queueRef p) <> [] ->
  exists finals w',
    handleProcessQueue net {| page := p; trace := [] |} = (Normal tt, w') /\
    Forall2 (fun k final => settles (respond net k) final)
      (seq 0 (length (filter eligible (queueRef p)))) finals /\
    queue (page w') =
      fold_left afterTurn (combine (filter eligible (queueRef p)) finals) (queue p) /\
    steps (trace w') =
      turns (trim (apiKey p)) (combine (filter eligible (queueRef p)) finals) /\
    fetchCount (trace w') = length (filter eligible (queueRef p)) /\
    apiKey (page w') = apiKey p /\ queueRef (page w') = queueRef p /\
    activeId (page w') = activeId p /\ isProcessing (page w') = false /\
    globalError (page w') = None.
Proof.
  intros Hkey Hq Hwork. unfold handleProcessQueue. cbn [page].
  rewrite Hkey. destruct (queue p) as [|x q] eqn:Eq; [contradiction|].
  destruct (filter eligible (queueRef p)) as [|y work] eqn:Ew; [contradiction|].
  unfold bind at 1, setPage at 1, modify at 1. cbn [page trace].
  unfold bind at 1, setPage at 1, modify at 1. cbn [page trace].
  set (w0 := {| page := _; trace := [] |}).
  destruct (forOf_processItem net (trim (apiKey p)) (y :: work) w0)
    as (finals & w' & Hrun & Hset & Hq' & Hs & Hn & Hsh).
  unfold bind at 1. rewrite Hrun. unfold setPage, modify.
  do 2 eexists. split; [reflexivity|].
  cbn [page trace].
  split; [exact Hset|].
  destruct w' as [p' t']; cbn [page trace] in *.
  destruct Hsh as (H1 & H2 & H3 & H4 & H5).
  destruct p'; cbn in *.
  repeat split; try assumption; try congruence.
Qed.

Lemma settles_keeps_id c final : settles c final -> set_id final = None.
Proof. intros H; destruct H; reflexivity. Qed.

Lemma settled_id item final : set_id final = None -> id (settled item final) = id item.
Proof. intros H; unfold settled, spread; cbn; rewrite H; reflexivity. Qed.

Lemma updateQueue_cons target updater x q :
  updateQueue target updater (x :: q) =
  (if sameId target x then spread x updater else x) :: updateQueue target updater q.
Proof. unfold updateQueue; simpl. destruct (sameId target x); reflexivity. Qed.

Lemma afterTurn_cons_other (tf : QueueItem * Updater) y q :
  id y <> id (fst tf) -> afterTurn (y :: q) tf = y :: afterTurn q tf.
Proof.
  intros Hne. unfold afterTurn. rewrite updateQueue_cons.
  apply sameId_false in Hne. rewrite Hne, updateQueue_cons, Hne. reflexivity.
Qed.

Lemma afterTurn_cons_same item final q :
  ~ In (id item) (ids q) -> afterTurn (item :: q) (item, final) = settled item final :: q.
Proof.
  intros Hnot. unfold afterTurn; cbn [fst snd]. rewrite updateQueue_cons.
  assert (Hs : sameId (id item) item = true) by (apply sameId_true; reflexivity).
  rewrite Hs, updateQueue_cons.
  assert (Hs' : sameId (id item) (spread item toProcessing) = true)
    by (apply sameId_true; reflexivity).
  rewrite Hs'.
  rewrite (updateQueue_absent _ toProcessing q Hnot).
  rewrite (updateQueue_absent _ final q Hnot). reflexivity.
Qed.

Lemma fold_afterTurn_cons_other work : forall y q,
  (forall tf, In tf work -> id y <> id (fst tf)) ->
  fold_left afterTurn work (y :: q) = y :: fold_left afterTurn work q.
Proof.
  induction work as [|tf work IH]; intros y q Hne; simpl; [reflexivity|].
  rewrite afterTurn_cons_other by (apply Hne; left; reflexivity).
  apply IH. intros tf' Hin; apply Hne; right; exact Hin.
Qed.

Lemma updateQueue_ids target updater q :
  set_id updater = None -> ids (updateQueue target updater q) = ids q.
Proof.
  intros Hid. unfold ids, updateQueue. rewrite map_map. apply map_ext.
  intros x. destruct (sameId target x); cbn [negb]; [|reflexivity].
  unfold spread; cbn. rewrite Hid. reflexivity.
Qed.

Lemma in_combine_filter_ids (q : list QueueItem) (finals : list Updater) tf :
  In tf (combine (filter eligible q) finals) -> In (id (fst tf)) (ids q).
Proof.
  intros Hin. destruct tf as [x u]. apply in_combine_l in Hin.
  apply filter_In in Hin. unfold ids. apply in_map. tauto.
Qed.

Lemma fold_afterTurn_settle q : forall finals,
  NoDup (ids q) ->
  Forall (fun final => set_id final = None) finals ->
  length finals = length (filter eligible q) ->
  fold_left afterTurn (combine (filter eligible q) finals) q = settleQueue q finals.
Proof.
  induction q as [|x q IH]; intros finals Hnd Hids Hlen; [reflexivity|].
  inversion Hnd as [|? ? Hx Hq]; subst.
  cbn [filter settleQueue] in *. destruct (eligible x) eqn:Ex.
  - destruct finals as [|final finals]; [discriminate|].
    inversion Hids as [|? ? Hf Hfs]; subst.
    cbn [combine fold_left]. rewrite afterTurn_cons_same by assumption.
    rewrite fold_afterTurn_cons_other.
    + f_equal. apply IH; auto.
    + intros tf Hin Heq. apply Hx. rewrite settled_id in Heq by assumption.
      rewrite Heq. eapply in_combine_filter_ids; eassumption.
  - rewrite fold_afterTurn_cons_other.
    + f_equal. apply IH; auto.
    + intros tf Hin Heq. apply Hx. rewrite Heq.
      eapply in_combine_filter_ids; eassumption.
Qed.

Lemma settleQueue_nth q : forall finals n x,
  length finals = length (filter eligible q) ->
  nth_error q n = Some x ->
  if eligible x
  then exists final,
         nth_error finals (rank q n) = Some final /\
         nth_error (settleQueue q finals) n = Some (settled x final)
  else nth_error (settleQueue q finals) n = Some x.
Proof.
  unfold rank.
  induction q as [|y q IH]; intros finals n x Hlen Hn; [destruct n; discriminate|].
  destruct n as [|n]; cbn [nth_error firstn filter settleQueue] in *.
  - injection Hn as ->. destruct (eligible x) eqn:Ex.
    + destruct finals as [|final finals]; [discriminate|].
      exists final. split; reflexivity.
    + reflexivity.
  - destruct (eligible y) eqn:Ey.
    + destruct finals as [|final finals]; [discriminate|].
      cbn [length] in *. injection Hlen as Hlen.
      specialize (IH finals n x Hlen Hn). cbn [nth_error]. exact IH.
    + specialize (IH finals n x Hlen Hn). cbn [nth_error]. exact IH.
Qed.

Lemma settleQueue_ids q : forall finals,
  Forall (fun final => set_id final = None) finals ->
  ids (settleQueue q finals) = ids q.
Proof.
  induction q as [|x q IH]; intros finals Hids; [reflexivity|].
  cbn [settleQueue]. destruct (eligible x).
  - destruct finals as [|final finals]; cbn [ids map].
    + f_equal. apply (IH []). constructor.
    + inversion Hids; subst. rewrite settled_id by assumption. f_equal.
      apply IH; assumption.
  - cbn [ids map]. f_equal. apply IH; assumption.
Qed.

Lemma settles_status c final item :
  settles c final ->
  status (settled item final) = if succeeds c then Success else Error.
Proof.
  intros H; destruct H as [r b u Hok Hb | c m credits Hc].
  - simpl. rewrite Hok, Hb. reflexivity.
  - rewrite Hc. reflexivity.
Qed.

Lemma Forall2_seq_nth {A : Type} (R : nat -> A -> Prop) (l : list A) : forall start len k a,
  Forall2 R (seq start len) l -> nth_error l k = Some a -> R (start + k) a.
Proof.
  induction l as [|b l IH]; intros start len k a HF Hn; [destruct k; discriminate|].
  destruct len as [|len]; [inversion HF|]. cbn [seq] in HF.
  inversion HF; subst. destruct k as [|k]; cbn [nth_error] in Hn.
  - injection Hn as <-. rewrite Nat.add_0_r. assumption.
  - rewrite Nat.add_succ_r. apply (IH (S start) len k a); assumption.
Qed.

Lemma Forall2_seq_length {A : Type} (R : nat -> A -> Prop) (l : list A) start len :
  Forall2 R (seq start len) l -> length l = len.
Proof.
  intros H. apply Forall2_length in H. rewrite length_seq in H. auto.
Qed.

Lemma settles_consistent c final item :
  settles c final -> eligible item = true -> consistent item ->
  consistent (settled item final).
Proof.
  intros Hs He Hc. unfold consistent in *.
  destruct Hs as [r b u Hok Hb | c m credits Hsucc]; cbn.
  - repeat split; discriminate.
  - unfold eligible in He.
    destruct credits; cbn; destruct (status item); try discriminate; cbn;
      intuition (try discriminate; auto).
Qed.

(** ** Traces of turns *)

Lemma fetches_steps (t : list Event) : fetches (steps t) = fetches t.
Proof.
  induction t as [|e t IH]; [reflexivity|].
  destruct e; simpl; rewrite ?IH; reflexivity.
Qed.

Lemma fetches_turns (key : string) (work : list QueueItem) : forall finals,
  length finals = length work ->
  fetches (turns key (combine work finals)) =
  map (fun item => (file item, key)) work.
Proof.
  induction work as [|item work IH]; intros finals Hlen; [reflexivity|].
  destruct finals as [|final finals]; [discriminate|].
  injection Hlen as Hlen. simpl. f_equal. apply IH; assumption.
Qed.

Lemma eligible_status (item : QueueItem) :
  eligible item = true <-> status item = Pending \/ status item = Error.
Proof.
  unfold eligible; destruct (status item); split; intros H; auto;
    try discriminate; destruct H; discriminate.
Qed.

Lemma same_id_same_item (q : list QueueItem) (x y : QueueItem) :
  NoDup (ids q) -> In x q -> In y q -> id x = id y -> x = y.
Proof.
  induction q as [|z q IH]; simpl; intros Hnd Hx Hy Hid; [contradiction|].
  inversion Hnd as [|? ? Hz Hq]; subst.
  destruct Hx as [->|Hx]; destruct Hy as [->|Hy]; auto.
  - exfalso; apply Hz. rewrite Hid. apply in_map; assumption.
  - exfalso; apply Hz. rewrite <- Hid. apply in_map; assumption.
Qed.

Lemma settles_final_status c final :
  settles c final ->
  set_status final = Some Success \/ set_status final = Some Error.
Proof. intros H; destruct H; [left|right]; reflexivity. Qed.

Lemma settles_all_keep_id (net : Network) (ks : list nat) (finals : list Updater) :
  Forall2 (fun k final => settles (respond net k) final) ks finals ->
  Forall (fun final => set_id final = None) finals.
Proof.
  intros H. induction H; constructor; eauto using settles_keeps_id.
Qed.

Lemma updateQueue_length (target : string) (updater : Updater) (q : list QueueItem) :
  length (updateQueue target updater q) = length q.
Proof. unfold updateQueue. apply length_map. Qed.

Lemma fold_afterTurn_length (work : list (QueueItem * Updater)) :
  forall q, length (fold_left afterTurn work q) = length q.
Proof.
  induction work as [|tf work IH]; intros q; [reflexivity|].
  cbn [fold_left]. rewrite IH. unfold afterTurn.
  rewrite !updateQueue_length. reflexivity.
Qed.

(** A run that passes the three checks, on a page whose reference is in
    step with the queue.  When the identifiers are unique the queue at
    the end is [settleQueue] of the queue at the start. *)
Lemma run_settles (net : Network) (p : Page) :
  queueRef p = queue p ->
  isEmpty (trim (apiKey p)) = false ->
  filter eligible (queue p) <> [] ->
  exists finals w',
    handleProcessQueue net {| page := p; trace := [] |} = (Normal tt, w') /\
    length finals = length (filter eligible (queue p)) /\
    Forall2 (fun k final => settles (respond net k) final)
      (seq 0 (length (filter eligible (queue p)))) finals /\
    length (queue (page w')) = length (queue p) /\
    (NoDup (ids (queue p)) -> queue (page w') = settleQueue (queue p) finals) /\
    steps (trace w') =
      turns (trim (apiKey p)) (combine (filter eligible (queue p)) finals) /\
    apiKey (page w') = apiKey p /\ queueRef (page w') = queueRef p /\
    activeId (page w') = activeId p /\ isProcessing (page w') = false /\
    globalError (page w') = None.
Proof.
  intros Href Hkey Hwork.
  assert (Hq : queue p <> []) by (intros E; rewrite E in Hwork; auto).
  rewrite <- Href in Hwork.
  destruct (handleProcessQueue_runs net p Hkey Hq Hwork)
    as (finals & w' & Hrun & Hset & Hqueue & Hsteps & _ & Hrest).
  rewrite Href in *.
  pose proof (Forall2_seq_length _ _ _ _ Hset) as Hlen.
  exists finals, w'.
  split; [exact Hrun|]. split; [exact Hlen|]. split; [exact Hset|].
  split; [rewrite Hqueue; apply fold_afterTurn_length|].
  split; [|split; [exact Hsteps | exact Hrest]].
  intros Hnd. rewrite Hqueue. apply fold_afterTurn_settle; auto.
  eapply settles_all_keep_id; exact Hset.
Qed.

(** ** Refusals, removal and updates *)

Lemma error_kinds_distinct :
  missingCredential <> emptyQueue /\ missingCredential <> noEligibleItems /\
  emptyQueue <> noEligibleItems.
Proof. repeat split; discriminate. Qed.

Lemma no_eligible (q : list QueueItem) :
  (forall item, In item q -> status item <> Pending /\ status item <> Error) ->
  filter eligible q = [].
Proof.
  intros H. induction q as [|x q IH]; [reflexivity|].
  simpl. destruct (eligible x) eqn:E.
  - apply eligible_status in E. destruct (H x (or_introl eq_refl)); tauto.
  - apply IH. intros item Hin; apply H; right; exact Hin.
Qed.

(** Claim C1.  A batch run is refused before anything is called or
    changed in each of three cases: the credential is empty (or blank),
    with [missingCredential]; the credential is set and the queue is
    empty, with [emptyQueue]; the credential is set, the queue is not
    empty and no item is pending or failed, with [noEligibleItems].  In
    every case the handler completes normally with an empty trace (no
    fetch, no update) and the page differs from the one before only by
    the page-level error.  The three errors are different messages. *)
Theorem handleProcessQueue_fails_fast (net : Network) (p : Page) :
  (apiKey p = ""%string -> refused net p missingCredential) /\
  (isEmpty (trim (apiKey p)) = true -> refused net p missingCredential) /\
  (isEmpty (trim (apiKey p)) = false -> queue p = [] ->
   refused net p emptyQueue) /\
  (isEmpty (trim (apiKey p)) = false -> queue p <> [] ->
   queueRef p = queue p ->
   (forall item, In item (queue p) ->
      status item <> Pending /\ status item <> Error) ->
   refused net p noEligibleItems) /\
  (missingCredential <> emptyQueue /\ missingCredential <> noEligibleItems /\
   emptyQueue <> noEligibleItems).
Proof.
  unfold refused, handleProcessQueue; cbn [page].
  split; [|split; [|split; [|split]]].
  - intros ->. reflexivity.
  - intros ->. reflexivity.
  - intros -> ->. reflexivity.
  - intros -> Hq Href Hnone. destruct (queue p) as [|x q] eqn:E; [contradiction|].
    rewrite Href, (no_eligible _ Hnone). reflexivity.
  - exact error_kinds_distinct.
Qed.

(** Claim C10.  An update for an identifier that is not in the queue
    changes nothing: the page is the same, nothing is revoked, only the
    call itself is recorded.  After [handleRemoveItem target] the
    identifier [target] is not in the queue, whatever the page was, so an
    update for a removed item can neither alter nor bring back an item.
    Accordingly, when the request of an item settles after the item has
    left the queue, the rest of its turn completes and leaves the queue
    as it is, whatever the outcome. *)
Theorem updateQueueItem_absent_is_noop (target : string) (updater : Updater) :
  (forall w : World,
     ~ In target (ids (queue (page w))) ->
     updateQueueItem target updater w =
     (Normal tt, {| page := page w; trace := trace w ++ [Update target updater] |})) /\
  (forall p : Page,
     let p' := act (handleRemoveItem target) p in
     ~ In target (ids (queue p')) /\
     updateQueue target updater (queue p') = queue p') /\
  (forall (net : Network) (item : QueueItem) (outcome : completion Response)
          (w : World),
     id item = target ->
     ~ In target (ids (queue (page w))) ->
     exists w',
       finishTurn net item outcome w = (Normal tt, w') /\
       queue (page w') = queue (page w)).
Proof.
  split; [|split].
  - intros w Hnot. rewrite updateQueueItem_eq.
    rewrite updateQueue_absent, revocations_absent, withQueue_same by assumption.
    reflexivity.
  - intros p p'.
    assert (Hnot : ~ In target (ids (queue p'))).
    { unfold p', act, commit; cbn [queue]. rewrite handleRemoveItem_page.
      cbn [queue withActiveId withQueue]. apply ids_filter_out. }
    split; [exact Hnot | apply updateQueue_absent; exact Hnot].
  - intros net item outcome w Hid Hnot.
    destruct (finishTurn_spec net item outcome w)
      as (final & w' & Hrun & _ & Hq & _).
    exists w'. split; [exact Hrun|].
    rewrite Hq, Hid. apply updateQueue_absent; exact Hnot.
Qed.

(** Claim C5.  On a queue with unique identifiers that holds [target],
    [handleRemoveItem target] removes exactly one item, the one with that
    identifier, and keeps the others in their order; if [target] was the
    active identifier, the active identifier becomes that of the first
    remaining item, or none when the queue is left empty; otherwise it is
    unchanged. *)
Theorem handleRemoveItem_removes_one (p : Page) (target : string) :
  NoDup (ids (queue p)) ->
  In target (ids (queue p)) ->
  let p' := act (handleRemoveItem target) p in
  (exists before item after,
     queue p = before ++ item :: after /\ id item = target /\
     queue p' = before ++ after) /\
  (activeId p = Some target ->
   activeId p' = match queue p' with
                 | first :: _ => Some (id first)
                 | [] => None
                 end) /\
  (activeId p <> Some target -> activeId p' = activeId p).
Proof.
  intros Hnd Hin p'.
  assert (Hp : p' = commit (page (run (handleRemoveItem target) p))) by reflexivity.
  rewrite handleRemoveItem_page in Hp.
  repeat split.
  - destruct (filter_out_unique target (queue p) Hnd Hin)
      as (before & item & after & Hq & Hid & Hf).
    exists before, item, after. rewrite Hp; cbn. auto.
  - intros Ha. rewrite Hp; cbn. rewrite Ha, String.eqb_refl. reflexivity.
  - intros Ha. rewrite Hp; cbn. destruct (activeId p) as [current|]; [|reflexivity].
    destruct (String.eqb current target) eqn:E; [|reflexivity].
    apply String.eqb_eq in E; subst; contradiction.
Qed.

(** ** The loop, turn by turn *)

Lemma fetches_app (a b : list Event) : fetches (a ++ b) = fetches a ++ fetches b.
Proof.
  induction a as [|e a IH]; [reflexivity|].
  destruct e; simpl; rewrite ?IH; reflexivity.
Qed.

Lemma fetches_revocations t u q : fetches (revocations t u q) = [].
Proof. rewrite <- fetches_steps, steps_revocations. reflexivity. Qed.

Lemma settles_set_status c final :
  settles c final ->
  set_status final = Some (if succeeds c then Success else Error).
Proof.
  intros H; destruct H as [r b u Hok Hb | c m credits Hc].
  - simpl. rewrite Hok, Hb. reflexivity.
  - rewrite Hc. reflexivity.
Qed.

Lemma settleQueue_nil (q : list QueueItem) : settleQueue q [] = q.
Proof.
  induction q as [|x q IH]; [reflexivity|].
  cbn [settleQueue]. rewrite IH. destruct (eligible x); reflexivity.
Qed.

Lemma firstn_combine_r {A B : Type} (l : list A) : forall (l' : list B) k,
  firstn k (combine l l') = combine l (firstn k l').
Proof.
  induction l as [|a l IH]; intros l' k; [destruct k; reflexivity|].
  destruct k as [|k]; [reflexivity|].
  destruct l' as [|b l']; [reflexivity|].
  cbn [combine firstn]. rewrite IH. reflexivity.
Qed.

Lemma Forall_firstn {A : Type} (P : A -> Prop) (l : list A) : forall k,
  Forall P l -> Forall P (firstn k l).
Proof.
  induction l as [|a l IH]; intros k H; [destruct k; constructor|].
  destruct k as [|k]; [constructor|].
  inversion H; subst. cbn [firstn]. constructor; auto.
Qed.

(** The queue when only the first turns have been taken: the items of
    later rank are as they were. *)
Lemma fold_afterTurn_settle_prefix q : forall finals,
  NoDup (ids q) ->
  Forall (fun final => set_id final = None) finals ->
  fold_left afterTurn (combine (filter eligible q) finals) q = settleQueue q finals.
Proof.
  induction q as [|x q IH]; intros finals Hnd Hids; [reflexivity|].
  inversion Hnd as [|? ? Hx Hq]; subst.
  cbn [filter settleQueue] in *. destruct (eligible x) eqn:Ex.
  - destruct finals as [|final finals].
    + cbn [combine fold_left]. rewrite settleQueue_nil. reflexivity.
    + inversion Hids as [|? ? Hf Hfs]; subst.
      cbn [combine fold_left]. rewrite afterTurn_cons_same by assumption.
      rewrite fold_afterTurn_cons_other.
      * f_equal. apply IH; auto.
      * intros tf Hin Heq. apply Hx. rewrite settled_id in Heq by assumption.
        rewrite Heq. eapply in_combine_filter_ids; eassumption.
  - rewrite fold_afterTurn_cons_other.
    + f_equal. apply IH; auto.
    + intros tf Hin Heq. apply Hx. rewrite Heq.
      eapply in_combine_filter_ids; eassumption.
Qed.

Lemma statusOf_updateQueue target updater q s :
  In target (ids q) -> set_id updater = None -> set_status updater = Some s ->
  statusOf target (updateQueue target updater q) = Some s.
Proof.
  intros Hin Hid Hst. unfold statusOf.
  induction q as [|x q IH]; [contradiction|].
  rewrite updateQueue_cons. destruct (sameId target x) eqn:E; cbn [find].
  - assert (Hs : sameId target (spread x updater) = true).
    { unfold sameId, spread in *; cbn. rewrite Hid. exact E. }
    rewrite Hs. cbn. rewrite Hst. reflexivity.
  - rewrite E. apply IH. destruct Hin as [Hx|Hin]; [|exact Hin].
    exfalso. apply sameId_true in Hx. congruence.
Qed.

Lemma settleQueue_untouched q : forall finals k item,
  NoDup (ids q) ->
  Forall (fun final => set_id final = None) finals ->
  nth_error (filter eligible q) k = Some item ->
  length finals <= k ->
  find (sameId (id item)) (settleQueue q finals) = Some item.
Proof.
  induction q as [|x q IH]; intros finals k item Hnd Hids Hk Hlen;
    [destruct k; discriminate|].
  inversion Hnd as [|? ? Hx Hq]; subst.
  assert (Hother : forall k', nth_error (filter eligible q) k' = Some item ->
                     id x <> id item).
  { intros k' Hk' Heq. apply Hx. rewrite Heq. apply in_map.
    apply nth_error_In in Hk'. apply filter_In in Hk'. tauto. }
  cbn [filter settleQueue] in *. destruct (eligible x) eqn:Ex.
  - destruct k as [|k]; cbn [nth_error] in Hk.
    + injection Hk as ->. destruct finals as [|final finals]; [|simpl in Hlen; lia].
      cbn [find]. rewrite (proj2 (sameId_true (id item) item) eq_refl). reflexivity.
    + pose proof (Hother k Hk) as Hne.
      destruct finals as [|final finals]; cbn [find].
      * rewrite (proj2 (sameId_false _ _) Hne). apply (IH [] k); auto. simpl; lia.
      * inversion Hids as [|? ? Hf Hfs]; subst.
        assert (Hne' : id (settled x final) <> id item)
          by (rewrite settled_id by assumption; exact Hne).
        rewrite (proj2 (sameId_false _ _) Hne'). apply (IH finals k); auto.
        simpl in Hlen; lia.
  - pose proof (Hother k Hk) as Hne. cbn [find].
    rewrite (proj2 (sameId_false _ _) Hne). apply (IH finals k); auto.
Qed.

(** One turn from the world [w] in which it starts: the item is marked
    as being processed and the request is sent; when the request
    settles, one final update is applied, and nothing else is sent. *)
Lemma turn_spec net key item w :
  exists final,
    settles (respond net (fetchCount (trace w))) final /\
    beginTurn net key item w =
      (Normal (respond net (fetchCount (trace w))),
       snd (beginTurn net key item w)) /\
    queue (page (snd (beginTurn net key item w))) =
      updateQueue (id item) toProcessing (queue (page w)) /\
    fetches (trace (snd (beginTurn net key item w))) =
      fetches (trace w) ++ [(file item, key)] /\
    finishTurn net item (respond net (fetchCount (trace w)))
      (snd (beginTurn net key item w)) =
      (Normal tt, snd (processItem net key item w)) /\
    processItem net key item w = (Normal tt, snd (processItem net key item w)) /\
    queue (page (snd (processItem net key item w))) =
      updateQueue (id item) final (queue (page (snd (beginTurn net key item w)))) /\
    fetches (trace (snd (processItem net key item w))) =
      fetches (trace (snd (beginTurn net key item w))) /\
    steps (trace (snd (processItem net key item w))) =
      steps (trace w) ++ turn key item final /\
    fetchCount (trace (snd (processItem net key item w))) = S (fetchCount (trace w)) /\
    sameShell (page w) (page (snd (processItem net key item w))).
Proof.
  rewrite processItem_split. unfold bind. rewrite beginTurn_eq. cbn [snd].
  match goal with
  | |- context [finishTurn net item ?c ?w1] =>
      destruct (finishTurn_spec net item c w1)
        as (final & w' & Hrun & Hset & Hq & Hs & Hn & Hsh)
  end.
  rewrite Hrun. cbn [snd]. exists final.
  split; [exact Hset|]. split; [reflexivity|]. split; [reflexivity|].
  split.
  { cbn [trace]. rewrite !fetches_app. cbn [fetches].
    rewrite fetches_revocations, !app_nil_r. reflexivity. }
  split; [reflexivity|]. split; [reflexivity|]. split; [exact Hq|].
  split.
  { rewrite <- (fetches_steps (trace w')), Hs, fetches_app, fetches_steps.
    apply app_nil_r. }
  split; [|split].
  - rewrite Hs. quiet. unfold turn. rewrite <- !app_assoc. reflexivity.
  - rewrite Hn. quiet. lia.
  - unfold sameShell in *. cbn in Hsh. tauto.
Qed.

Lemma afterTurns_zero net key work w : afterTurns net key work 0 w = w.
Proof. reflexivity. Qed.

Lemma afterTurns_cons net key item work k w w1 :
  processItem net key item w = (Normal tt, w1) ->
  afterTurns net key (item :: work) (S k) w = afterTurns net key work k w1.
Proof.
  intros H. unfold afterTurns. cbn [firstn forOf]. unfold bind. rewrite H.
  reflexivity.
Qed.

(** The loop over [items] from world [w]: it ends normally; its final
    updates are settled by the outcomes of the calls in order; and turn
    [k] starts from the world the first [k] turns have left. *)
Lemma loop_turns net key items : forall w,
  exists finals,
    Forall2 (fun k final => settles (respond net k) final)
      (seq (fetchCount (trace w)) (length items)) finals /\
    forOf items (processItem net key) w =
      (Normal tt, afterTurns net key items (length items) w) /\
    steps (trace (afterTurns net key items (length items) w)) =
      steps (trace w) ++ turns key (combine items finals) /\
    queue (page (afterTurns net key items (length items) w)) =
      fold_left afterTurn (combine items finals) (queue (page w)) /\
    forall k item final,
      nth_error items k = Some item -> nth_error finals k = Some final ->
      queue (page (afterTurns net key items k w)) =
        fold_left afterTurn (firstn k (combine items finals)) (queue (page w)) /\
      ids (queue (page (afterTurns net key items k w))) = ids (queue (page w)) /\
      fetches (trace (afterTurns net key items k w)) =
        fetches (trace w) ++ map (fun i => (file i, key)) (firstn k items) /\
      beginTurn net key item (afterTurns net key items k w) =
        (Normal (respond net (fetchCount (trace w) + k)),
         snd (beginTurn net key item (afterTurns net key items k w))) /\
      queue (page (snd (beginTurn net key item (afterTurns net key items k w)))) =
        updateQueue (id item) toProcessing
          (queue (page (afterTurns net key items k w))) /\
      fetches (trace (snd (beginTurn net key item (afterTurns net key items k w)))) =
        fetches (trace (afterTurns net key items k w)) ++ [(file item, key)] /\
      finishTurn net item (respond net (fetchCount (trace w) + k))
        (snd (beginTurn net key item (afterTurns net key items k w))) =
        (Normal tt, afterTurns net key items (S k) w) /\
      queue (page (afterTurns net key items (S k) w)) =
        updateQueue (id item) final
          (queue (page (snd (beginTurn net key item
                               (afterTurns net key items k w))))) /\
      fetches (trace (afterTurns net key items (S k) w)) =
        fetches (trace (snd (beginTurn net key item
                               (afterTurns net key items k w)))).
Proof.
  induction items as [|item0 items IH]; intros w.
  - exists []. split; [constructor|]. split; [reflexivity|].
    split; [cbn; rewrite app_nil_r; reflexivity|]. split; [reflexivity|].
    intros k item final Hk; destruct k; discriminate.
  - destruct (turn_spec net key item0 w)
      as (final0 & Hset0 & Hbegin0 & Hduring0 & Hsent0 & Hfinish0 & Hturn0
          & Hafter0 & Hquiet0 & Hsteps0 & Hcount0 & _).
    set (w1 := snd (processItem net key item0 w)) in *.
    destruct (IH w1) as (finals & Hset & Hrun & Hsteps & Hqueue & Hturns).
    exists (final0 :: finals).
    assert (Hq1 : queue (page w1) = afterTurn (queue (page w)) (item0, final0)).
    { rewrite Hafter0, Hduring0. reflexivity. }
    split; [cbn [length seq]; constructor; [exact Hset0|rewrite <- Hcount0; exact Hset]|].
    split.
    { cbn [forOf length]. unfold bind. rewrite Hturn0, Hrun.
      rewrite (afterTurns_cons _ _ _ _ _ _ _ Hturn0). reflexivity. }
    split.
    { cbn [length]. rewrite (afterTurns_cons _ _ _ _ _ _ _ Hturn0), Hsteps, Hsteps0.
      unfold turns. cbn [combine flat_map fst snd]. rewrite <- app_assoc.
      reflexivity. }
    split.
    { cbn [length]. rewrite (afterTurns_cons _ _ _ _ _ _ _ Hturn0), Hqueue, Hq1.
      reflexivity. }
    intros k item final Hk Hfinal. destruct k as [|k].
    + cbn [nth_error] in Hk, Hfinal. injection Hk as <-. injection Hfinal as <-.
      rewrite (afterTurns_cons _ _ _ _ _ _ _ Hturn0), !afterTurns_zero.
      rewrite Nat.add_0_r. cbn [firstn map fold_left]. rewrite app_nil_r.
      repeat split; assumption || reflexivity.
    + cbn [nth_error] in Hk, Hfinal.
      destruct (Hturns k item final Hk Hfinal)
        as (Hq & Hids & Hf & Hb & Hd & Hs & Hfin & Ha & Hquiet).
      rewrite !(afterTurns_cons _ _ _ _ _ _ _ Hturn0).
      replace (fetchCount (trace w) + S k) with (fetchCount (trace w1) + k)
        by (rewrite Hcount0; lia).
      split; [rewrite Hq, Hq1; reflexivity|].
      split.
      { rewrite Hids, Hq1. unfold afterTurn; cbn [fst snd].
        rewrite updateQueue_ids by (eapply settles_keeps_id; exact Hset0).
        apply updateQueue_ids. reflexivity. }
      split.
      { rewrite Hf. cbn [firstn map]. rewrite Hquiet0, Hsent0, <- app_assoc.
        reflexivity. }
      repeat split; assumption.
Qed.

(** A batch run that passes the three checks is the loop over the work
    set, started with the page error cleared and the busy flag raised,
    followed by the lowering of the flag. *)
Lemma handleProcessQueue_is_the_loop net p :
  isEmpty (trim (apiKey p)) = false ->
  queue p <> [] ->
  filter eligible (queueRef p) <> [] ->
  handleProcessQueue net {| page := p; trace := [] |} =
  (Normal tt,
   {| page := withIsProcessing false
                (page (afterTurns net (trim (apiKey p)) (filter eligible (queueRef p))
                         (length (filter eligible (queueRef p))) (loopStart p)));
      trace := trace (afterTurns net (trim (apiKey p)) (filter eligible (queueRef p))
                        (length (filter eligible (queueRef p))) (loopStart p)) |}).
Proof.
  intros Hkey Hq Hwork. unfold handleProcessQueue. cbn [page].
  rewrite Hkey. destruct (queue p) as [|x q] eqn:Eq; [contradiction|].
  destruct (filter eligible (queueRef p)) as [|y work] eqn:Ew; [contradiction|].
  unfold bind at 1, setPage at 1, modify at 1. cbn [page trace].
  unfold bind at 1, setPage at 1, modify at 1. cbn [page trace].
  destruct (loop_turns net (trim (apiKey p)) (y :: work) (loopStart p))
    as (finals & _ & Hrun & _).
  unfold loopStart in Hrun. unfold bind at 1. rewrite Hrun.
  reflexivity.
Qed.

(** Claim C2.  On a page whose reference is in step with the queue and
    which has a credential, the work set of a batch run is the list of
    the items that are pending or failed at the start, in queue order.
    The run is the loop over the work set, and the updates and calls of
    the run are, for each work item in that order, the update to
    [Processing], one fetch of the item's file, and one final update to
    [Success] or [Error] settled by the outcome of that fetch.

    The turn of the work item of rank [k] starts from the world the
    first [k] turns have left, in which [k] requests have been sent.
    Its first half marks the item [Processing] in the queue and sends
    the one request for the item's file; its second half, run on the
    outcome of that request, applies the final update and sends nothing,
    and leaves the item [Success] when the call succeeded and [Error]
    otherwise.  The world it leaves is the one in which the next turn
    starts.

    When identifiers are unique, the queue before turn [k] is the queue
    at the start with its first [k] work items settled: the item of rank
    [k] and those after it are as they were.  At the end every work item
    is settled, an item that was [Success] at the start is in the queue
    unchanged, and no update or fetch carries its identifier. *)
Theorem runBatch_processes_work_set_in_order (net : Network) (p : Page) :
  queueRef p = queue p ->
  isEmpty (trim (apiKey p)) = false ->
  let key := trim (apiKey p) in
  let work := filter eligible (queue p) in
  let turnsDone := fun k => afterTurns net key work k (loopStart p) in
  work <> [] ->
  (forall item, In item work <->
     In item (queue p) /\ (status item = Pending \/ status item = Error)) /\
  exists finals w',
    handleProcessQueue net {| page := p; trace := [] |} = (Normal tt, w') /\
    w' = {| page := withIsProcessing false (page (turnsDone (length work)));
            trace := trace (turnsDone (length work)) |} /\
    length finals = length work /\
    (forall k final, nth_error finals k = Some final ->
       settles (respond net k) final /\
       (set_status final = Some Success \/ set_status final = Some Error)) /\
    steps (trace w') = turns key (combine work finals) /\
    fetches (trace w') = map (fun item => (file item, key)) work /\
    (forall k item final,
       nth_error work k = Some item -> nth_error finals k = Some final ->
       let before := turnsDone k in
       let during := snd (beginTurn net key item before) in
       let after := turnsDone (S k) in
       fetches (trace before) = map (fun i => (file i, key)) (firstn k work) /\
       beginTurn net key item before = (Normal (respond net k), during) /\
       queue (page during) =
         updateQueue (id item) toProcessing (queue (page before)) /\
       statusOf (id item) (queue (page during)) = Some Processing /\
       fetches (trace during) = fetches (trace before) ++ [(file item, key)] /\
       finishTurn net item (respond net k) during = (Normal tt, after) /\
       queue (page after) = updateQueue (id item) final (queue (page during)) /\
       statusOf (id item) (queue (page after)) =
         Some (if succeeds (respond net k) then Success else Error) /\
       fetches (trace after) = fetches (trace during) /\
       (NoDup (ids (queue p)) ->
        queue (page before) = settleQueue (queue p) (firstn k finals) /\
        find (sameId (id item)) (queue (page before)) = Some item /\
        queue (page after) = settleQueue (queue p) (firstn (S k) finals))) /\
    (NoDup (ids (queue p)) ->
     queue (page w') = settleQueue (queue p) finals /\
     forall item, In item (queue p) -> status item = Success ->
       In item (queue (page w')) /\ ~ In (id item) (ids work)).
Proof.
  intros Href Hkey key work turnsDone Hwork. split.
  { intros item. unfold work. rewrite filter_In, eligible_status. tauto. }
  assert (Hq : queue p <> []) by (intros E; unfold work in Hwork; rewrite E in Hwork; auto).
  assert (Hwork' : filter eligible (queueRef p) <> []) by (rewrite Href; exact Hwork).
  pose proof (handleProcessQueue_is_the_loop net p Hkey Hq Hwork') as Hrun.
  rewrite Href in Hrun. fold key work in Hrun. fold (turnsDone (length work)) in Hrun.
  destruct (loop_turns net key work (loopStart p))
    as (finals & Hset & _ & Hsteps & Hqueue & Hturns).
  change (fetchCount (trace (loopStart p))) with 0 in Hset, Hturns.
  change (steps (trace (loopStart p))) with (@nil Event) in Hsteps.
  change (queue (page (loopStart p))) with (queue p) in Hqueue, Hturns.
  change (fetches (trace (loopStart p))) with (@nil (File * string)) in Hturns.
  fold (turnsDone (length work)) in Hsteps, Hqueue.
  pose proof (Forall2_seq_length _ _ _ _ Hset) as Hlen.
  pose proof (settles_all_keep_id _ _ _ Hset) as Hids.
  exists finals, {| page := withIsProcessing false (page (turnsDone (length work)));
                    trace := trace (turnsDone (length work)) |}.
  split; [exact Hrun|]. split; [reflexivity|]. split; [exact Hlen|].
  cbn [page trace].
  assert (Hend : NoDup (ids (queue p)) ->
                 queue (page (turnsDone (length work))) = settleQueue (queue p) finals).
  { intros Hnd. etransitivity; [exact Hqueue|].
    apply fold_afterTurn_settle_prefix; assumption. }
  split; [|split; [exact Hsteps|split; [|split]]].
  - intros k final Hk.
    pose proof (Forall2_seq_nth _ _ _ _ _ _ Hset Hk) as Hs. simpl in Hs.
    split; [exact Hs | eapply settles_final_status; exact Hs].
  - rewrite <- fetches_steps, Hsteps. apply fetches_turns; exact Hlen.
  - intros k item final Hk Hfinal.
    destruct (Hturns k item final Hk Hfinal)
      as (Hbefore & Hkeep & Hsent & Hbegin & Hduring & Hone & Hfinish & Hafter & Hquiet).
    fold (turnsDone k) in Hbefore, Hkeep, Hsent, Hbegin, Hduring, Hone, Hfinish, Hafter, Hquiet.
    fold (turnsDone (S k)) in Hfinish, Hafter, Hquiet.
    cbn [Nat.add] in Hbegin, Hfinish.
    pose proof (Forall2_seq_nth _ _ _ _ _ _ Hset Hfinal) as Hs. simpl in Hs.
    assert (Hin : In (id item) (ids (queue (page (turnsDone k))))).
    { rewrite Hkeep. apply in_map. apply nth_error_In in Hk.
      apply filter_In in Hk. tauto. }
    cbv zeta.
    split; [exact Hsent|]. split; [exact Hbegin|]. split; [exact Hduring|].
    split; [rewrite Hduring; apply statusOf_updateQueue; auto|].
    split; [exact Hone|]. split; [exact Hfinish|]. split; [exact Hafter|].
    split.
    { rewrite Hafter. apply statusOf_updateQueue.
      - rewrite Hduring, updateQueue_ids by reflexivity. exact Hin.
      - eapply settles_keeps_id; exact Hs.
      - apply settles_set_status; exact Hs. }
    split; [exact Hquiet|].
    intros Hnd.
    assert (Hprefix : forall n,
              fold_left afterTurn (firstn n (combine work finals)) (queue p) =
              settleQueue (queue p) (firstn n finals)).
    { intros n. rewrite firstn_combine_r.
      apply fold_afterTurn_settle_prefix; [exact Hnd|].
      apply Forall_firstn; exact Hids. }
    assert (Hbefore' : queue (page (turnsDone k)) = settleQueue (queue p) (firstn k finals))
      by (rewrite Hbefore; apply Hprefix).
    split; [exact Hbefore'|]. split.
    + rewrite Hbefore'. apply (settleQueue_untouched (queue p) (firstn k finals) k).
      * exact Hnd.
      * apply Forall_firstn; exact Hids.
      * exact Hk.
      * apply firstn_le_length.
    + rewrite Hafter, Hduring, Hbefore.
      change (updateQueue (id item) final
                (updateQueue (id item) toProcessing
                   (fold_left afterTurn (firstn k (combine work finals)) (queue p))))
        with (fold_left afterTurn [(item, final)]
                (fold_left afterTurn (firstn k (combine work finals)) (queue p))).
      rewrite <- fold_left_app, <- Hprefix. f_equal.
      (* the turns taken so far, and this one *)
      clear - Hk Hfinal. revert k Hk Hfinal. generalize finals.
      induction work as [|x xs IHw]; intros fs k Hk Hfinal; [destruct k; discriminate|].
      destruct fs as [|f fs]; [destruct k; discriminate|].
      destruct k as [|k]; cbn [nth_error] in Hk, Hfinal.
      * injection Hk as ->. injection Hfinal as ->. reflexivity.
      * cbn [combine firstn app]. f_equal. apply (IHw fs k); assumption.
  - intros Hnd. specialize (Hend Hnd). split; [exact Hend|].
    intros item Hin Hst.
    assert (He : eligible item = false) by (unfold eligible; rewrite Hst; reflexivity).
    split.
    + destruct (In_nth_error _ _ Hin) as [n Hn].
      pose proof (settleQueue_nth (queue p) finals n item Hlen Hn) as H.
      rewrite He, <- Hend in H. apply nth_error_In with n. exact H.
    + intros Hid. unfold ids in Hid. apply in_map_iff in Hid.
      destruct Hid as (y & Hy & Hyin). unfold work in Hyin.
      apply filter_In in Hyin. destruct Hyin as [Hyq Hye].
      rewrite (same_id_same_item (queue p) y item Hnd Hyq Hin Hy) in Hye.
      congruence.
Qed.

(** Claim C3.  Whatever the outcomes of the calls, the run completes
    normally with no page-level error and with one fetch for every work
    item, and the queue keeps its length.  When identifiers are unique
    the queue keeps its positions: an item outside the work set is
    unchanged, and the work item of rank [k] ends as [settled] from its
    own state at the start and from a final update settled by the
    outcome of call [k] alone, [Success] when that call succeeded and
    [Error] otherwise. *)
Theorem runBatch_isolates_failures (net : Network) (p : Page) :
  queueRef p = queue p ->
  isEmpty (trim (apiKey p)) = false ->
  filter eligible (queue p) <> [] ->
  exists w',
    handleProcessQueue net {| page := p; trace := [] |} = (Normal tt, w') /\
    globalError (page w') = None /\
    length (fetches (trace w')) = length (filter eligible (queue p)) /\
    length (queue (page w')) = length (queue p) /\
    (NoDup (ids (queue p)) ->
     forall n item, nth_error (queue p) n = Some item ->
       if eligible item
       then exists final,
              settles (respond net (rank (queue p) n)) final /\
              nth_error (queue (page w')) n = Some (settled item final) /\
              status (settled item final) =
                (if succeeds (respond net (rank (queue p) n))
                 then Success else Error)
       else nth_error (queue (page w')) n = Some item).
Proof.
  intros Href Hkey Hwork.
  destruct (run_settles net p Href Hkey Hwork)
    as (finals & w' & Hrun & Hlen & Hset & Hsame & Hqueue & Hsteps
        & _ & _ & _ & _ & Herr).
  exists w'. split; [exact Hrun|]. split; [exact Herr|].
  split; [|split; [exact Hsame|]].
  - rewrite <- fetches_steps, Hsteps, fetches_turns by exact Hlen.
    apply length_map.
  - intros Hnd n item Hn. specialize (Hqueue Hnd).
    pose proof (settleQueue_nth (queue p) finals n item Hlen Hn) as H.
    destruct (eligible item); [|rewrite Hqueue; exact H].
    destruct H as (final & Hf & Hfinal).
    pose proof (Forall2_seq_nth _ _ _ _ _ _ Hset Hf) as Hs. simpl in Hs.
    exists final. split; [exact Hs|]. split; [rewrite Hqueue; exact Hfinal|].
    apply settles_status; exact Hs.
Qed.

(** ** Pages at rest *)

Lemma atRest_commit (p : Page) :
  NoDup (ids (queue p)) -> Forall consistent (queue p) -> atRest (commit p).
Proof. intros Hnd Hc. unfold atRest, commit; cbn. auto. Qed.

Lemma NoDup_ids_filter (f : QueueItem -> bool) (q : list QueueItem) :
  NoDup (ids q) -> NoDup (ids (filter f q)).
Proof.
  induction q as [|x q IH]; simpl; intros Hnd; [constructor|].
  inversion Hnd as [|? ? Hx Hq]; subst.
  destruct (f x); simpl; [constructor|]; auto.
  intros Hin. apply Hx. unfold ids in *. apply in_map_iff in Hin.
  destruct Hin as (y & Hy & Hyin). apply filter_In in Hyin.
  rewrite <- Hy. apply in_map. tauto.
Qed.

Lemma Forall_filter (A : Type) (P : A -> Prop) (f : A -> bool) (l : list A) :
  Forall P l -> Forall P (filter f l).
Proof.
  rewrite !Forall_forall. intros H x Hin. apply filter_In in Hin. apply H; tauto.
Qed.

Lemma handleFileChange_page (uploads : list Upload) (p : Page) :
  queue (page (run (handleFileChange uploads) p)) =
  queue p ++ map createQueueItem uploads.
Proof.
  unfold run, handleFileChange. destruct uploads as [|first rest].
  - simpl. rewrite app_nil_r. reflexivity.
  - cbn [page trace]. unfold bind at 1, setPage at 1, modify at 1.
    unfold bind at 1. rewrite emitAll_eq.
    unfold bind at 1, setPage at 1, modify at 1. cbn [page trace].
    destruct (noActive (activeId p)); reflexivity.
Qed.

Lemma handleClearQueue_page (p : Page) :
  queue (page (run handleClearQueue p)) = [].
Proof.
  unfold run, handleClearQueue. cbn [page trace].
  unfold bind at 1. rewrite emitAll_eq. reflexivity.
Qed.

Lemma createQueueItem_consistent (u : Upload) : consistent (createQueueItem u).
Proof. unfold consistent; cbn. auto. Qed.

Lemma settleQueue_consistent (net : Network) (q : list QueueItem) :
  forall start finals,
    Forall consistent q ->
    Forall2 (fun k final => settles (respond net k) final)
      (seq start (length (filter eligible q))) finals ->
    Forall consistent (settleQueue q finals).
Proof.
  induction q as [|x q IH]; intros start finals Hc Hset; [constructor|].
  inversion Hc as [|? ? Hx Hq]; subst.
  cbn [settleQueue filter] in *. destruct (eligible x) eqn:E.
  - cbn [length seq] in Hset. inversion Hset as [|? final ? finals' Hs Hrest]; subst.
    constructor.
    + eapply settles_consistent; eassumption.
    + eapply IH; eassumption.
  - constructor; [assumption|]. eapply IH; eassumption.
Qed.

Lemma handleProcessQueue_atRest (net : Network) (p : Page) :
  atRest p -> atRest (act (handleProcessQueue net) p).
Proof.
  intros (Href & Hnd & Hc).
  assert (Hrefused : forall m,
            atRest (commit (page (snd (setPage (withGlobalError m)
                                         {| page := p; trace := [] |}))))).
  { intros m. apply atRest_commit; [exact Hnd | exact Hc]. }
  destruct (isEmpty (trim (apiKey p))) eqn:Hkey.
  - unfold act, run, handleProcessQueue. cbn [page]. rewrite Hkey.
    apply Hrefused.
  - destruct (filter eligible (queue p)) as [|y work] eqn:Hwork.
    + unfold act, run, handleProcessQueue. cbn [page]. rewrite Hkey, Href, Hwork.
      destruct (queue p); apply Hrefused.
    + assert (Hne : filter eligible (queue p) <> []) by (rewrite Hwork; discriminate).
      destruct (run_settles net p Href Hkey Hne)
        as (finals & w' & Hrun & Hlen & Hset & _ & Hqueue & _).
      unfold act, run. rewrite Hrun. cbn [snd].
      apply atRest_commit; rewrite (Hqueue Hnd).
      * rewrite settleQueue_ids; [assumption|].
        eapply settles_all_keep_id; exact Hset.
      * eapply settleQueue_consistent; eassumption.
Qed.

Lemma reachable_atRest (p : Page) : reachable p -> atRest p.
Proof.
  induction 1 as [k | p k _ IH | p a _ IH | p uploads _ IH Hfresh
                 | p target _ IH | p _ IH | p net _ IH].
  - unfold atRest; cbn. repeat split; constructor.
  - destruct IH as (_ & Hnd & Hc). apply atRest_commit; exact Hnd || exact Hc.
  - destruct IH as (_ & Hnd & Hc). apply atRest_commit; exact Hnd || exact Hc.
  - destruct IH as (_ & Hnd & Hc). apply atRest_commit;
      rewrite handleFileChange_page; [assumption|].
    apply Forall_app; split; [assumption|].
    apply Forall_forall. intros x Hin. apply in_map_iff in Hin.
    destruct Hin as (u & <- & _). apply createQueueItem_consistent.
  - destruct IH as (_ & Hnd & Hc). apply atRest_commit;
      rewrite handleRemoveItem_page; cbn [queue withActiveId withQueue].
    + apply NoDup_ids_filter; assumption.
    + apply Forall_filter; assumption.
  - apply atRest_commit; rewrite handleClearQueue_page; constructor.
  - apply handleProcessQueue_atRest; assumption.
Qed.

(** ** Sessions *)

Lemma consistent_exclusive x : consistent x -> exclusive x.
Proof.
  unfold consistent, exclusive. destruct (status x); intros H; split; intros E;
    try discriminate; tauto.
Qed.

Lemma itemInv_exclusive ph x : itemInv ph x -> exclusive x.
Proof.
  destruct ph as [|net key rest|net key item outcome rest]; cbn [itemInv].
  - apply consistent_exclusive.
  - intros [Hw Hc]. destruct (in_dec string_dec (id x) (ids rest)) as [Hin|Hout].
    + apply consistent_exclusive, Hw, Hin.
    + apply consistent_exclusive, Hc, Hout.
  - intros (Ha & Hw & Hc). destruct (string_dec (id x) (id item)) as [E|E].
    + destruct (Ha E) as (Hs & _). unfold exclusive. rewrite Hs.
      split; discriminate.
    + destruct (in_dec string_dec (id x) (ids rest)) as [Hin|Hout].
      * apply consistent_exclusive, (Hw E Hin).
      * apply consistent_exclusive, (Hc E Hout).
Qed.

(** User handlers that leave the queue alone, or only drop items. *)
Lemma sessionInv_sublist (s : Session) (q' : list QueueItem) (w' : World) :
  sessionInv s ->
  queue (page w') = q' ->
  queueRef (page w') = q' ->
  NoDup (ids q') ->
  (forall x, In x q' -> In x (queue (page (world s)))) ->
  sessionInv {| world := w'; phase := phase s |}.
Proof.
  intros (Hnd & Hheld & Href & Hall) Hq Hr Hnd' Hsub.
  unfold sessionInv; cbn [world phase]. rewrite Hq.
  split; [exact Hnd'|]. split; [exact Hheld|]. split; [intros _; rewrite Hr; reflexivity|].
  rewrite Forall_forall in *. intros x Hx. apply Hall, Hsub, Hx.
Qed.

Lemma handleRemoveItem_queue (target : string) (w : World) :
  queue (page (snd (handleRemoveItem target w))) =
  filter (fun item => negb (sameId target item)) (queue (page w)).
Proof.
  unfold handleRemoveItem; cbv beta zeta.
  destruct (find (sameId target) (queue (page w))); unfold bind;
    [rewrite emitAll_eq|]; reflexivity.
Qed.

Lemma handleFileChange_queue (uploads : list Upload) (w : World) :
  queue (page (snd (handleFileChange uploads w))) =
  queue (page w) ++ map createQueueItem uploads.
Proof.
  unfold handleFileChange. destruct uploads as [|first rest].
  - simpl. rewrite app_nil_r. reflexivity.
  - unfold bind at 1, setPage at 1, modify at 1.
    unfold bind at 1. rewrite emitAll_eq.
    unfold bind at 1, setPage at 1, modify at 1. cbn [page trace].
    destruct (noActive (activeId (page w))); reflexivity.
Qed.

Lemma handleClearQueue_queue (w : World) :
  queue (page (snd (handleClearQueue w))) = [].
Proof.
  unfold handleClearQueue. unfold bind at 1. rewrite emitAll_eq. reflexivity.
Qed.

Lemma waiting_no_result x :
  waiting x -> resultUrl x = None /\ resultBlob x = None.
Proof.
  unfold waiting, consistent, eligible. intros [He Hc].
  destruct (status x); try discriminate; tauto.
Qed.

Lemma updateQueue_In target updater q y :
  In y (updateQueue target updater q) ->
  exists x, In x q /\
    ((id x = target /\ y = spread x updater) \/ (id x <> target /\ y = x)).
Proof.
  unfold updateQueue. rewrite in_map_iff. intros (x & Hy & Hx).
  exists x. split; [exact Hx|].
  destruct (sameId target x) eqn:E; cbn [negb] in Hy.
  - left. apply sameId_true in E. auto.
  - right. apply sameId_false in E. auto.
Qed.

Lemma awaited_settled c final x :
  settles c final -> awaited x -> consistent (spread x final).
Proof.
  intros Hs (Hst & Hu & Hb). unfold consistent.
  destruct Hs as [r b u Hok Hblob | c m credits Hc]; cbn.
  - repeat split; discriminate.
  - rewrite Hu, Hb. repeat split; discriminate.
Qed.

Lemma spread_id x final : set_id final = None -> id (spread x final) = id x.
Proof. intros H. unfold spread; cbn. rewrite H. reflexivity. Qed.

Lemma step_keeps_invariant (s s' : Session) :
  step s s' -> sessionInv s -> sessionInv s'.
Proof.
  intros Hstep Hinv. destruct Hstep.
  - (* key *)
    apply (sessionInv_sublist s (queue (page (world s)))); auto.
    destruct Hinv as (H & _); exact H.
  - (* select *)
    apply (sessionInv_sublist s (queue (page (world s)))); auto.
    destruct Hinv as (H & _); exact H.
  - (* enqueue *)
    destruct Hinv as (Hnd & Hheld & Href & Hall).
    unfold sessionInv, perform; cbn [world phase page commit queue queueRef].
    rewrite handleFileChange_queue.
    split; [assumption|]. split; [assumption|]. split; [reflexivity|].
    apply Forall_app. split; [exact Hall|].
    apply Forall_forall. intros x Hx. apply in_map_iff in Hx.
    destruct Hx as (u & <- & Hu). specialize (H0 u Hu).
    pose proof (createQueueItem_consistent u) as Hc.
    destruct (phase s) as [|net key rest|net key item outcome rest];
      cbn [itemInv held] in *.
    + exact Hc.
    + split; [intros Hin; contradiction | intros _; exact Hc].
    + split; [intros E; exfalso; apply H0; left; symmetry; exact E|].
      split; [intros _ Hin; exfalso; apply H0; right; exact Hin|].
      intros _ _; exact Hc.
  - (* remove *)
    apply (sessionInv_sublist s
             (filter (fun item => negb (sameId target item)) (queue (page (world s)))));
      auto.
    + unfold commit; cbn [page queue]. apply handleRemoveItem_queue.
    + unfold commit; cbn [page queueRef]. apply handleRemoveItem_queue.
    + apply NoDup_ids_filter. destruct Hinv as (H & _); exact H.
    + intros x Hx. apply filter_In in Hx. tauto.
  - (* clear *)
    apply (sessionInv_sublist s []); auto.
    + unfold commit; cbn [page queue]. apply handleClearQueue_queue.
    + unfold commit; cbn [page queueRef]. apply handleClearQueue_queue.
    + constructor.
    + intros x [].
  - (* refuse *)
    destruct Hinv as (Hnd & Hheld & Href & Hall).
    unfold sessionInv; cbn in *. auto.
  - (* start *)
    destruct Hinv as (Hnd & Hheld & Href & Hall).
    cbn [world phase page] in *. specialize (Href eq_refl).
    unfold sessionInv; cbn [world phase page held withIsProcessing withGlobalError queue].
    rewrite Href.
    split; [exact Hnd|]. split; [apply NoDup_ids_filter; exact Hnd|].
    split; [discriminate|].
    rewrite Forall_forall in *. intros x Hx. specialize (Hall x Hx).
    cbn [itemInv] in *. split; [|intros _; exact Hall].
    intros Hin. unfold ids in Hin. apply in_map_iff in Hin.
    destruct Hin as (y & Hy & Hyin). apply filter_In in Hyin.
    destruct Hyin as [Hyq Hye].
    rewrite (same_id_same_item (queue p) y x Hnd Hyq Hx Hy) in Hye.
    split; assumption.
  - (* begin *)
    destruct Hinv as (Hnd & Hheld & _ & Hall).
    rewrite beginTurn_eq in H. injection H as <- <-.
    unfold sessionInv; cbn [world phase page held queue withQueue] in *.
    split; [rewrite updateQueue_ids by reflexivity; exact Hnd|].
    split; [exact Hheld|]. split; [discriminate|].
    rewrite Forall_forall in *. intros y Hy.
    apply updateQueue_In in Hy. destruct Hy as (x & Hx & [[E ->]|[E ->]]);
      specialize (Hall x Hx); cbn [itemInv ids map] in *;
      destruct Hall as [Hw Hc].
    + assert (Hwx : waiting x) by (apply Hw; left; symmetry; exact E).
      destruct (waiting_no_result x Hwx) as [Hu Hb].
      split; [intros _; unfold awaited; cbn; auto|].
      split; intros Hne; exfalso; apply Hne; exact E.
    + split; [intros E'; contradiction|].
      split.
      * intros _ Hin. apply Hw. right; exact Hin.
      * intros _ Hout. apply Hc. intros [E'|Hin]; [apply E; symmetry; exact E'|auto].
  - (* finish *)
    destruct Hinv as (Hnd & Hheld & _ & Hall).
    destruct (finishTurn_spec net item outcome w)
      as (final & w0 & Hrun & Hset & Hq & _).
    rewrite H in Hrun. injection Hrun as <-.
    unfold sessionInv; cbn [world phase page held queue] in *.
    rewrite Hq.
    pose proof (settles_keeps_id _ _ Hset) as Hid.
    inversion Hheld as [|? ? Hitem Hrest]; subst.
    split; [rewrite updateQueue_ids by assumption; exact Hnd|].
    split; [exact Hrest|]. split; [discriminate|].
    rewrite Forall_forall in *. intros y Hy.
    apply updateQueue_In in Hy. destruct Hy as (x & Hx & [[E ->]|[E ->]]);
      specialize (Hall x Hx); cbn [itemInv] in *;
      destruct Hall as (Ha & Hw & Hc).
    + rewrite spread_id by assumption. rewrite E.
      split; [intros Hin; contradiction|].
      intros _. eapply awaited_settled; [exact Hset | apply Ha; exact E].
    + split; [apply Hw; exact E | apply Hc; exact E].
  - (* end *)
    destruct Hinv as (Hnd & Hheld & _ & Hall).
    unfold sessionInv; cbn [world phase page held queue queueRef commit
                            withIsProcessing] in *.
    split; [exact Hnd|]. split; [constructor|]. split; [reflexivity|].
    rewrite Forall_forall in *. intros x Hx. destruct (Hall x Hx) as [_ Hc].
    cbn [itemInv]. apply Hc. intros [].
Qed.

Lemma initialSession_invariant (storedKey : string) :
  sessionInv (initialSession storedKey).
Proof.
  unfold sessionInv, initialSession; cbn. repeat split; constructor.
Qed.

Lemma sessions_keep_invariant (storedKey : string) (s : Session) :
  steps_to (initialSession storedKey) s -> sessionInv s.
Proof.
  intros Hsteps. remember (initialSession storedKey) as s0 eqn:E.
  induction Hsteps as [s|s s' s'' _ IH Hstep]; subst.
  - apply initialSession_invariant.
  - eapply step_keeps_invariant; [exact Hstep | apply IH; reflexivity].
Qed.

Lemma steps_to_trans (a b c : Session) :
  steps_to a b -> steps_to b c -> steps_to a c.
Proof.
  intros Hab Hbc. induction Hbc as [|b c d _ IH Hstep]; [exact Hab|].
  eapply steps_more; [apply IH; exact Hab | exact Hstep].
Qed.

Lemma commit_at_rest (p : Page) : queueRef p = queue p -> commit p = p.
Proof. destruct p; cbn; intros ->; reflexivity. Qed.

(** The loop of the handler, turn by turn. *)
Lemma loop_as_steps (net : Network) (key : string) (items : list QueueItem) :
  forall w,
    steps_to {| world := w; phase := Between net key items |}
             {| world := snd (forOf items (processItem net key) w);
                phase := Between net key [] |}.
Proof.
  induction items as [|item rest IH]; intros w.
  - cbn. apply steps_none.
  - cbn [forOf]. unfold bind at 1. rewrite processItem_split.
    unfold bind at 1. rewrite beginTurn_eq.
    match goal with
    | |- context [finishTurn net item ?c ?w1] =>
        destruct (finishTurn_spec net item c w1) as (final & w2 & Hrun & _);
        rewrite Hrun;
        apply (steps_to_trans _ {| world := w2; phase := Between net key rest |});
        [ apply (steps_more _ {| world := w1;
                                 phase := InFlight net key item c rest |});
          [ apply (steps_more _ {| world := w; phase := Between net key (item :: rest) |});
            [ apply steps_none | apply step_begin; apply beginTurn_eq ]
          | apply step_finish; exact Hrun ]
        | apply IH ]
    end.
Qed.

(** A batch run to completion is one way the session can go. *)
Lemma run_as_steps (net : Network) (p : Page) (t : list Event) :
  queueRef p = queue p ->
  steps_to {| world := {| page := p; trace := t |}; phase := Idle |}
           {| world := {| page := act (handleProcessQueue net) p;
                          trace := trace (run (handleProcessQueue net) p) |};
              phase := Idle |}.
Proof.
  intros Href.
  assert (Hrefuse : forall m, refused net p m ->
            steps_to {| world := {| page := p; trace := t |}; phase := Idle |}
              {| world := {| page := act (handleProcessQueue net) p;
                             trace := trace (run (handleProcessQueue net) p) |};
                 phase := Idle |}).
  { intros m Hm. unfold act, run. rewrite Hm. cbn [snd page trace].
    rewrite commit_at_rest by exact Href.
    eapply steps_more; [apply steps_none | apply (step_refuse p t net m Hm)]. }
  destruct (isEmpty (trim (apiKey p))) eqn:Hkey;
    [apply (Hrefuse missingCredential);
     unfold refused, handleProcessQueue; cbn [page]; rewrite Hkey; reflexivity|].
  destruct (queue p) as [|x q] eqn:Hq;
    [apply (Hrefuse emptyQueue);
     unfold refused, handleProcessQueue; cbn [page]; rewrite Hkey, Hq; reflexivity|].
  destruct (filter eligible (queueRef p)) as [|y work] eqn:Hwork;
    [apply (Hrefuse noEligibleItems);
     unfold refused, handleProcessQueue; cbn [page];
     rewrite Hkey, Hq, Hwork; reflexivity|].
  clear Hrefuse.
  set (w0 := {| page := withIsProcessing true (withGlobalError None p); trace := [] |}).
  pose proof (loop_as_steps net (trim (apiKey p)) (y :: work) w0) as Hloop.
  destruct (forOf_processItem net (trim (apiKey p)) (y :: work) w0)
    as (finals & wN & Hrun & _).
  rewrite Hrun in Hloop. cbn [snd] in Hloop.
  assert (Heq : handleProcessQueue net {| page := p; trace := [] |} =
                (Normal tt, {| page := withIsProcessing false (page wN);
                               trace := trace wN |})).
  { unfold handleProcessQueue. cbn [page]. rewrite Hkey, Hq, Hwork.
    unfold bind at 1, setPage at 1, modify at 1. cbn [page trace].
    unfold bind at 1, setPage at 1, modify at 1. cbn [page trace].
    fold w0. unfold bind at 1. rewrite Hrun. reflexivity. }
  unfold act, run. rewrite Heq. cbn [snd page trace].
  eapply steps_more; [|apply step_end].
  eapply steps_to_trans; [|exact Hloop].
  eapply steps_more; [apply steps_none|].
  rewrite <- Hwork. unfold w0.
  apply step_start; [exact Hkey | rewrite Hq; discriminate | rewrite Hwork; discriminate].
Qed.

(** The page a user's handler leaves does not depend on the trace so
    far. *)
Lemma handleFileChange_any_trace (uploads : list Upload) (p : Page) (t : list Event) :
  page (snd (handleFileChange uploads {| page := p; trace := t |})) =
  page (run (handleFileChange uploads) p).
Proof.
  unfold run, handleFileChange. destruct uploads as [|first rest]; [reflexivity|].
  cbn [page trace].
  unfold bind at 1, setPage at 1, modify at 1.
  unfold bind at 1. rewrite emitAll_eq.
  unfold bind at 1, setPage at 1, modify at 1. cbn [page trace].
  symmetry.
  unfold bind at 1, setPage at 1, modify at 1.
  unfold bind at 1. rewrite emitAll_eq.
  unfold bind at 1, setPage at 1, modify at 1. cbn [page trace].
  destruct (noActive (activeId p)); reflexivity.
Qed.

Lemma handleRemoveItem_any_trace (target : string) (p : Page) (t : list Event) :
  page (snd (handleRemoveItem target {| page := p; trace := t |})) =
  page (run (handleRemoveItem target) p).
Proof.
  unfold run, handleRemoveItem; cbv beta zeta. cbn [page trace].
  destruct (find (sameId target) (queue p)); unfold bind;
    rewrite ?emitAll_eq; reflexivity.
Qed.

Lemma handleClearQueue_any_trace (p : Page) (t : list Event) :
  page (snd (handleClearQueue {| page := p; trace := t |})) =
  page (run handleClearQueue p).
Proof.
  unfold run, handleClearQueue. cbn [page trace].
  unfold bind at 1. rewrite emitAll_eq. symmetry.
  unfold bind at 1. rewrite emitAll_eq. reflexivity.
Qed.

(** Every page reached by handlers run to completion is the page of an
    idle session. *)
Lemma reachable_in_sessions (p : Page) :
  reachable p ->
  exists storedKey t,
    steps_to (initialSession storedKey)
      {| world := {| page := p; trace := t |}; phase := Idle |}.
Proof.
  intros Hreach.
  induction Hreach as [k | p k Hp IH | p a Hp IH | p uploads Hp IH Hfresh
                      | p target Hp IH | p Hp IH | p net Hp IH].
  - exists k, []. apply steps_none.
  - destruct IH as (k0 & t & Hsteps). exists k0. eexists.
    eapply steps_more; [exact Hsteps|].
    apply (step_setApiKey {| world := {| page := p; trace := t |}; phase := Idle |} k).
  - destruct IH as (k0 & t & Hsteps). exists k0. eexists.
    eapply steps_more; [exact Hsteps|].
    apply (step_select {| world := {| page := p; trace := t |}; phase := Idle |} a).
  - destruct IH as (k0 & t & Hsteps). exists k0. eexists.
    eapply steps_more; [exact Hsteps|].
    pose proof (step_enqueue {| world := {| page := p; trace := t |}; phase := Idle |}
                  uploads Hfresh (fun u _ H => H)) as Hstep.
    unfold perform in Hstep. cbn [world phase] in Hstep.
    rewrite handleFileChange_any_trace in Hstep. exact Hstep.
  - destruct IH as (k0 & t & Hsteps). exists k0. eexists.
    eapply steps_more; [exact Hsteps|].
    pose proof (step_remove {| world := {| page := p; trace := t |}; phase := Idle |}
                  target) as Hstep.
    unfold perform in Hstep. cbn [world phase] in Hstep.
    rewrite handleRemoveItem_any_trace in Hstep. exact Hstep.
  - destruct IH as (k0 & t & Hsteps). exists k0. eexists.
    eapply steps_more; [exact Hsteps|].
    pose proof (step_clear {| world := {| page := p; trace := t |}; phase := Idle |})
      as Hstep.
    unfold perform in Hstep. cbn [world phase] in Hstep.
    rewrite handleClearQueue_any_trace in Hstep. exact Hstep.
  - destruct IH as (k0 & t & Hsteps). exists k0. eexists.
    eapply steps_to_trans; [exact Hsteps|].
    apply run_as_steps. apply (reachable_atRest p Hp).
Qed.

(** Claim C4.  In every page reachable from the initial one by typing
    a key, selecting, enqueueing (with new identifiers), removing,
    clearing and running batches, a [Success] item has a result blob and
    a result URL and no error, and an [Error] item has an error and
    neither result blob nor result URL.  The same holds at every moment
    of a session, where the user acts while a batch is running. *)
Theorem reachable_result_xor_error :
  (forall (p : Page) (item : QueueItem),
     reachable p -> In item (queue p) ->
     (status item = Success ->
      resultBlob item <> None /\ resultUrl item <> None /\ error item = None) /\
     (status item = Error ->
      error item <> None /\ resultBlob item = None /\ resultUrl item = None)) /\
  (forall (storedKey : string) (s : Session) (item : QueueItem),
     steps_to (initialSession storedKey) s ->
     In item (queue (page (world s))) ->
     exclusive item).
Proof.
  split.
  - intros p item Hreach Hin.
    destruct (reachable_atRest p Hreach) as (_ & _ & Hc).
    rewrite Forall_forall in Hc.
    exact (consistent_exclusive item (Hc item Hin)).
  - intros storedKey s item Hsteps Hin.
    pose proof (sessions_keep_invariant storedKey s Hsteps) as (_ & _ & _ & Hall).
    rewrite Forall_forall in Hall.
    exact (itemInv_exclusive _ item (Hall item Hin)).
Qed.

Import Samples.

Example three_items_second_fails :
  map status (queue (act (handleProcessQueue failsSecond) threePending)) =
  [Success; Error; Success].
Proof. vm_compute. reflexivity. Qed.

Lemma threePending_ids : NoDup (ids (queue threePending)).
Proof.
  repeat constructor; simpl; intuition discriminate.
Defined.

Lemma handleProcessQueue_fails_fast_witness :
  (apiKey (pageOf "" [itemA] None) = "" /\
   refused offline (pageOf "" [itemA] None) missingCredential) /\
  (isEmpty (trim (apiKey (pageOf "   " [itemA] None))) = true /\
   refused offline (pageOf "   " [itemA] None) missingCredential) /\
  (isEmpty (trim (apiKey (pageOf "secret" [] None))) = false /\
   queue (pageOf "secret" [] None) = [] /\
   refused offline (pageOf "secret" [] None) emptyQueue) /\
  (isEmpty (trim (apiKey (pageOf "secret" [doneA] None))) = false /\
   queue (pageOf "secret" [doneA] None) <> [] /\
   (forall item, In item (queue (pageOf "secret" [doneA] None)) ->
      status item <> Pending /\ status item <> Error) /\
   refused offline (pageOf "secret" [doneA] None) noEligibleItems).
Proof.
  assert (Hdone : forall item, In item (queue (pageOf "secret" [doneA] None)) ->
                    status item <> Pending /\ status item <> Error)
    by (intros item [<-|[]]; split; discriminate).
  split; [|split; [|split]].
  - split; [reflexivity|].
    apply (handleProcessQueue_fails_fast offline (pageOf "" [itemA] None));
      reflexivity.
  - split; [reflexivity|].
    apply (handleProcessQueue_fails_fast offline (pageOf "   " [itemA] None));
      reflexivity.
  - split; [reflexivity|]. split; [reflexivity|].
    apply (handleProcessQueue_fails_fast offline (pageOf "secret" [] None));
      reflexivity.
  - split; [reflexivity|]. split; [discriminate|]. split; [exact Hdone|].
    apply (handleProcessQueue_fails_fast offline (pageOf "secret" [doneA] None));
      [reflexivity | discriminate | reflexivity | exact Hdone].
Defined.

Lemma updateQueueItem_absent_is_noop_witness :
  ~ In "gone" (ids (queue threePending)) /\
  updateQueueItem "gone" toProcessing {| page := threePending; trace := [] |} =
  (Normal tt, {| page := threePending; trace := [Update "gone" toProcessing] |}).
Proof.
  assert (H : ~ In "gone"%string (ids (queue threePending)))
    by (simpl; intuition discriminate).
  split; [exact H|].
  exact (proj1 (updateQueueItem_absent_is_noop "gone" toProcessing)
           {| page := threePending; trace := [] |} H).
Defined.

Lemma handleRemoveItem_removes_one_witness :
  NoDup (ids (queue threePending)) /\
  In (id itemA) (ids (queue threePending)) /\
  queue (act (handleRemoveItem (id itemA)) threePending) = [itemB; itemC] /\
  activeId (act (handleRemoveItem (id itemA)) threePending) = Some (id itemB).
Proof.
  assert (Hin : In (id itemA) (ids (queue threePending))) by (left; reflexivity).
  split; [exact threePending_ids|]. split; [exact Hin|].
  destruct (handleRemoveItem_removes_one threePending (id itemA)
              threePending_ids Hin) as (_ & Hactive & _).
  split; [reflexivity|]. exact (Hactive eq_refl).
Defined.

Lemma runBatch_isolates_failures_witness :
  queueRef threePending = queue threePending /\
  NoDup (ids (queue threePending)) /\
  isEmpty (trim (apiKey threePending)) = false /\
  filter eligible (queue threePending) <> [] /\
  exists w',
    handleProcessQueue failsSecond {| page := threePending; trace := [] |} =
      (Normal tt, w') /\
    globalError (page w') = None /\
    length (fetches (trace w')) = 3 /\
    exists first second third,
      queue (page w') = [first; second; third] /\
      status first = Success /\ status second = Error /\ status third = Success.
Proof.
  assert (Hwork : filter eligible (queue threePending) <> []) by discriminate.
  split; [reflexivity|]. split; [exact threePending_ids|].
  split; [reflexivity|]. split; [exact Hwork|].
  destruct (runBatch_isolates_failures failsSecond threePending eq_refl
              eq_refl Hwork)
    as (w' & Hrun & Herr & Hfetch & Hlen & Hnth).
  specialize (Hnth threePending_ids).
  exists w'. split; [exact Hrun|]. split; [exact Herr|]. split; [exact Hfetch|].
  destruct (Hnth 0 itemA eq_refl) as (f0 & _ & H0 & S0).
  destruct (Hnth 1 itemB eq_refl) as (f1 & _ & H1 & S1).
  destruct (Hnth 2 itemC eq_refl) as (f2 & _ & H2 & S2).
  destruct (queue (page w')) as [|a [|b [|c [|d rest]]]]; try discriminate.
  exists a, b, c. split; [reflexivity|].
  injection H0 as ->. injection H1 as ->. injection H2 as ->.
  split; [exact S0|]. split; [exact S1|exact S2].
Defined.

Lemma runBatch_processes_work_set_in_order_witness :
  queueRef threePending = queue threePending /\
  NoDup (ids (queue threePending)) /\
  isEmpty (trim (apiKey threePending)) = false /\
  filter eligible (queue threePending) <> [] /\
  exists finals w',
    handleProcessQueue failsSecond {| page := threePending; trace := [] |} =
      (Normal tt, w') /\
    length finals = 3 /\
    steps (trace w') = turns "secret" (combine [itemA; itemB; itemC] finals) /\
    fetches (trace w') =
      [(file itemA, "secret"); (file itemB, "secret"); (file itemC, "secret")]%string /\
    let before :=
      afterTurns failsSecond "secret" [itemA; itemB; itemC] 1 (loopStart threePending) in
    let during := snd (beginTurn failsSecond "secret" itemB before) in
    let after :=
      afterTurns failsSecond "secret" [itemA; itemB; itemC] 2 (loopStart threePending) in
    find (sameId (id itemB)) (queue (page before)) = Some itemB /\
    fetches (trace before) = [(file itemA, "secret")]%string /\
    statusOf (id itemB) (queue (page during)) = Some Processing /\
    fetches (trace during) = [(file itemA, "secret"); (file itemB, "secret")]%string /\
    finishTurn failsSecond itemB (Normal noCredits) during = (Normal tt, after) /\
    statusOf (id itemB) (queue (page after)) = Some Error /\
    fetches (trace after) = fetches (trace during).
Proof.
  assert (Hwork : filter eligible (queue threePending) <> []) by discriminate.
  split; [reflexivity|]. split; [exact threePending_ids|].
  split; [reflexivity|]. split; [exact Hwork|].
  destruct (runBatch_processes_work_set_in_order failsSecond threePending eq_refl
              eq_refl Hwork)
    as (_ & finals & w' & Hrun & _ & Hlen & _ & Hsteps & Hfetch & Hturn & _).
  exists finals, w'. split; [exact Hrun|]. split; [exact Hlen|].
  split; [exact Hsteps|]. split; [exact Hfetch|].
  destruct finals as [|f0 [|f1 rest]]; try discriminate.
  destruct (Hturn 1 itemB f1 eq_refl eq_refl)
    as (Hsent & _ & _ & Hduring & Hone & Hfinish & _ & Hafter & Hquiet & Hunique).
  destruct (Hunique threePending_ids) as (_ & Hbefore & _).
  cbv zeta.
  split; [exact Hbefore|]. split; [exact Hsent|]. split; [exact Hduring|].
  split; [exact (eq_trans Hone (f_equal (fun l => l ++ _) Hsent))|].
  split; [exact Hfinish|].
  split; [exact Hafter|exact Hquiet].
Defined.

Lemma reachable_result_xor_error_witness :
  reachable afterBatch /\
  In failedB (queue afterBatch) /\
  status failedB = Error /\
  error failedB <> None /\ resultBlob failedB = None /\ resultUrl failedB = None.
Proof.
  assert (Hreach : reachable afterBatch).
  { unfold afterBatch. apply reach_runBatch. apply reach_enqueue.
    - apply reach_setApiKey. apply reach_initial.
    - exact threePending_ids. }
  assert (Hin : In failedB (queue afterBatch))
    by (vm_compute; right; left; reflexivity).
  split; [exact Hreach|]. split; [exact Hin|]. split; [reflexivity|].
  apply (proj1 reachable_result_xor_error afterBatch failedB Hreach Hin).
  reflexivity.
Defined.


(** ** The handlers around the batch run *)

Lemma handleFileChange_run (uploads : list Upload) (p : Page) :
  run (handleFileChange uploads) p =
  match uploads with
  | [] => {| page := p; trace := [] |}
  | first :: _ =>
      {| page :=
           (if noActive (activeId p)
            then withActiveId (Some (id (createQueueItem first)))
            else fun q => q)
             (withQueue (queue p ++ map createQueueItem uploads)
                (withGlobalError None p));
         trace := map (fun u => CreateObjectURL (preview u)) uploads |}
  end.
Proof.
  unfold run, handleFileChange. destruct uploads as [|first rest]; [reflexivity|].
  cbv beta zeta. cbn [page trace].
  unfold bind at 1. unfold setPage at 1, modify at 1. cbn [page trace].
  unfold bind at 1. rewrite emitAll_eq. cbn [page trace app].
  unfold bind at 1. unfold setPage at 1, modify at 1. cbn [page trace].
  destruct (noActive (activeId p)); reflexivity.
Qed.

Lemma handleClearQueue_run (p : Page) :
  run handleClearQueue p =
  {| page := withActiveId None (withQueue [] p);
     trace := flat_map revokeItem (queue p) |}.
Proof.
  unfold run, handleClearQueue. cbv beta zeta. cbn [page trace].
  unfold bind at 1. rewrite emitAll_eq. reflexivity.
Qed.

Lemma handleRemoveItem_trace (target : string) (p : Page) :
  trace (run (handleRemoveItem target) p) =
  match find (sameId target) (queue p) with
  | Some item => revokeItem item
  | None => []
  end.
Proof.
  unfold run, handleRemoveItem. cbv beta zeta. cbn [page trace].
  destruct (find (sameId target) (queue p)) as [item|].
  - unfold bind at 1. rewrite emitAll_eq. reflexivity.
  - reflexivity.
Qed.

Lemma fetches_creates (uploads : list Upload) :
  fetches (map (fun u => CreateObjectURL (preview u)) uploads) = [].
Proof. induction uploads; [reflexivity|exact IHuploads]. Qed.

Lemma fetches_revokeItem (item : QueueItem) : fetches (revokeItem item) = [].
Proof.
  unfold revokeItem.
  destruct (resultUrl item) as [u|]; [destruct (isEmpty u)|]; reflexivity.
Qed.

Lemma find_sameId_unique (target : string) (q : list QueueItem) (item : QueueItem) :
  NoDup (ids q) -> In item q -> id item = target ->
  find (sameId target) q = Some item.
Proof.
  induction q as [|x q IH]; intros Hnd Hin Hid; [contradiction|].
  cbn [find]. destruct (sameId target x) eqn:Hx.
  - apply sameId_true in Hx. f_equal.
    apply (same_id_same_item (x :: q) x item Hnd);
      [left; reflexivity|exact Hin|congruence].
  - apply sameId_false in Hx. destruct Hin as [->|Hin]; [contradiction|].
    cbn in Hnd. apply NoDup_cons_iff in Hnd. apply IH; tauto.
Qed.

Lemma find_sameId_absent (target : string) (q : list QueueItem) :
  ~ In target (ids q) -> find (sameId target) q = None.
Proof.
  induction q as [|x q IH]; intros Hnot; [reflexivity|].
  cbn [find]. destruct (sameId target x) eqn:Hx.
  - apply sameId_true in Hx. exfalso. apply Hnot. left. exact Hx.
  - apply IH. intros H. apply Hnot. right. exact H.
Qed.

Lemma filter_out_absent (target : string) (q : list QueueItem) :
  ~ In target (ids q) -> filter (fun item => negb (sameId target item)) q = q.
Proof.
  induction q as [|x q IH]; intros Hnot; [reflexivity|].
  cbn [filter]. destruct (sameId target x) eqn:Hx; cbn [negb].
  - apply sameId_true in Hx. exfalso. apply Hnot. left. exact Hx.
  - f_equal. apply IH. intros H. apply Hnot. right. exact H.
Qed.

Lemma In_flat_map_revokeItem (q : list QueueItem) (item : QueueItem) :
  In item q ->
  In (RevokeObjectURL (previewUrl item)) (flat_map revokeItem q) /\
  (forall u, resultUrl item = Some u -> isEmpty u = false ->
     In (RevokeObjectURL u) (flat_map revokeItem q)).
Proof.
  intros Hin. split.
  - apply in_flat_map. exists item. split; [exact Hin|]. left; reflexivity.
  - intros u Hu Hne. apply in_flat_map. exists item. split; [exact Hin|].
    unfold revokeItem. rewrite Hu, Hne. right; left; reflexivity.
Qed.

Lemma revokeItem_only (item : QueueItem) (e : Event) :
  In e (revokeItem item) ->
  e = RevokeObjectURL (previewUrl item) \/
  exists u, resultUrl item = Some u /\ e = RevokeObjectURL u.
Proof.
  unfold revokeItem. intros [H|H]; [left; symmetry; exact H|].
  destruct (resultUrl item) as [u|]; [|contradiction].
  destruct (isEmpty u); cbn in H; [contradiction|].
  destruct H as [H|[]]. right. exists u. split; [reflexivity|symmetry; exact H].
Qed.

(** Property X1.  Picking files appends one pending item per file, in
    the order picked, after the items already there, which are kept;
    each new item holds its file and a fresh preview URL and has neither
    result nor error.  Nothing is requested from the route; the page
    error is cleared; the pointer moves to the first new item only when
    it named nothing; key, busy flag and credits stay. *)
Theorem handleFileChange_appends_pending (uploads : list Upload) (p : Page) :
  uploads <> [] ->
  let w' := run (handleFileChange uploads) p in
  let added := skipn (length (queue p)) (queue (page w')) in
  firstn (length (queue p)) (queue (page w')) = queue p /\
  map file added = map picked uploads /\
  map previewUrl added = map preview uploads /\
  Forall (fun item =>
            status item = Pending /\ resultUrl item = None /\
            resultBlob item = None /\ error item = None) added /\
  trace w' = map (fun u => CreateObjectURL (preview u)) uploads /\
  fetches (trace w') = [] /\
  globalError (page w') = None /\
  activeId (page w') =
    (if noActive (activeId p) then option_map id (hd_error added)
     else activeId p) /\
  apiKey (page w') = apiKey p /\ isProcessing (page w') = isProcessing p /\
  lastCreditInfo (page w') = lastCreditInfo p.
Proof.
  intros Hne w' added.
  assert (Hq : queue (page w') = queue p ++ map createQueueItem uploads).
  { unfold w'. apply handleFileChange_page. }
  assert (Hadded : added = map createQueueItem uploads).
  { unfold added. rewrite Hq. rewrite skipn_app, skipn_all, Nat.sub_diag. reflexivity. }
  rewrite Hadded, Hq.
  split; [rewrite firstn_app, firstn_all, Nat.sub_diag, app_nil_r; reflexivity|].
  split; [rewrite map_map; reflexivity|].
  split; [rewrite map_map; reflexivity|].
  split.
  { apply Forall_forall. intros x Hin. apply in_map_iff in Hin.
    destruct Hin as (u & <- & _). repeat split; reflexivity. }
  unfold w'. rewrite handleFileChange_run.
  destruct uploads as [|first rest]; [contradiction|].
  cbn [page trace]. split; [reflexivity|]. split; [apply fetches_creates|].
  destruct (noActive (activeId p)); repeat split; reflexivity.
Qed.

(** Property X2.  Removing an item revokes its preview URL and, when it
    has one, its result URL, and nothing else; removing an identifier
    that is not in the queue revokes nothing and leaves the queue as it
    is.  No request is sent either way. *)
Theorem handleRemoveItem_releases_the_item (p : Page) (target : string) :
  let w' := run (handleRemoveItem target) p in
  (NoDup (ids (queue p)) ->
   forall item, In item (queue p) -> id item = target ->
     trace w' =
       RevokeObjectURL (previewUrl item)
       :: match resultUrl item with
          | Some u => if isEmpty u then [] else [RevokeObjectURL u]
          | None => []
          end) /\
  (~ In target (ids (queue p)) -> trace w' = [] /\ queue (page w') = queue p) /\
  fetches (trace w') = [].
Proof.
  intros w'. unfold w'. rewrite handleRemoveItem_trace. repeat split.
  - intros Hnd item Hin Hid.
    rewrite (find_sameId_unique target (queue p) item Hnd Hin Hid).
    unfold revokeItem.
    destruct (resultUrl item) as [u|]; [destruct (isEmpty u)|]; reflexivity.
  - rewrite find_sameId_absent by assumption. reflexivity.
  - rewrite handleRemoveItem_page. cbn [queue withActiveId withQueue].
    apply filter_out_absent; assumption.
  - destruct (find (sameId target) (queue p)); [apply fetches_revokeItem|reflexivity].
Qed.

(** Property X3.  Clearing the queue empties it and resets the pointer,
    so that no item is shown; the preview URL of every item and every
    result URL are revoked, and nothing but URLs of the queue's items is
    revoked; key, busy flag, page error and credits stay. *)
Theorem handleClearQueue_releases_every_url (p : Page) :
  let w' := run handleClearQueue p in
  queue (page w') = [] /\
  activeId (page w') = None /\
  activeItem (page w') = None /\
  (forall item, In item (queue p) ->
     In (RevokeObjectURL (previewUrl item)) (trace w') /\
     (forall u, resultUrl item = Some u -> isEmpty u = false ->
        In (RevokeObjectURL u) (trace w'))) /\
  (forall e, In e (trace w') ->
     exists item, In item (queue p) /\
       (e = RevokeObjectURL (previewUrl item) \/
        exists u, resultUrl item = Some u /\ e = RevokeObjectURL u)) /\
  apiKey (page w') = apiKey p /\ isProcessing (page w') = isProcessing p /\
  globalError (page w') = globalError p /\
  lastCreditInfo (page w') = lastCreditInfo p.
Proof.
  intros w'. unfold w'. rewrite handleClearQueue_run. cbn [page trace].
  repeat split; try reflexivity.
  - apply In_flat_map_revokeItem; assumption.
  - apply In_flat_map_revokeItem; assumption.
  - intros e He. apply in_flat_map in He. destruct He as (item & Hin & He).
    exists item. split; [exact Hin|]. apply revokeItem_only; exact He.
Qed.

(** Property X4.  When a page a user has brought about is left, the
    clean-up revokes the preview URL of every item of the queue and
    every result URL: the reference it reads is in step with the queue.
    An item that succeeded has a result URL for it to revoke. *)
Theorem unmount_releases_every_url (p : Page) (item : QueueItem) :
  reachable p ->
  In item (queue p) ->
  In (RevokeObjectURL (previewUrl item)) (unmount p) /\
  (forall u, resultUrl item = Some u -> isEmpty u = false ->
     In (RevokeObjectURL u) (unmount p)) /\
  (status item = Success ->
   exists u, resultUrl item = Some u /\
     (isEmpty u = false -> In (RevokeObjectURL u) (unmount p))).
Proof.
  intros Hreach Hin. destruct (reachable_atRest p Hreach) as (Href & _ & Hc).
  unfold unmount. rewrite Href.
  destruct (In_flat_map_revokeItem (queue p) item Hin) as [Hp Hr].
  split; [exact Hp|]. split; [exact Hr|].
  intros Hst. rewrite Forall_forall in Hc. specialize (Hc item Hin).
  unfold consistent in Hc. rewrite Hst in Hc. destruct Hc as (Hu & _).
  destruct (resultUrl item) as [u|]; [|contradiction].
  exists u. split; [reflexivity|]. intros Hne. apply Hr; [reflexivity|exact Hne].
Qed.

(** ** The pointer *)

Lemma fold_afterTurn_ids (work : list (QueueItem * Updater)) :
  forall q,
    Forall (fun tf => set_id (snd tf) = None) work ->
    ids (fold_left afterTurn work q) = ids q.
Proof.
  induction work as [|tf work IH]; intros q Hall; [reflexivity|].
  inversion Hall as [|? ? Htf Hrest]; subst. cbn [fold_left].
  rewrite IH by assumption. unfold afterTurn.
  rewrite updateQueue_ids by assumption. apply updateQueue_ids. reflexivity.
Qed.

Lemma Forall_combine_snd {A B : Type} (P : B -> Prop) (l : list A) :
  forall l' : list B, Forall P l' -> Forall (fun ab => P (snd ab)) (combine l l').
Proof.
  induction l as [|a l IH]; intros l' H; [constructor|].
  destruct l' as [|b l']; [constructor|].
  inversion H; subst. constructor; [assumption|]. apply IH; assumption.
Qed.

(** A batch run keeps the identifiers and the pointer. *)
Lemma handleProcessQueue_keeps_ids (net : Network) (p : Page) :
  ids (queue (page (run (handleProcessQueue net) p))) = ids (queue p) /\
  activeId (page (run (handleProcessQueue net) p)) = activeId p.
Proof.
  destruct (isEmpty (trim (apiKey p))) eqn:Hkey.
  { unfold run, handleProcessQueue. cbn [page]. rewrite Hkey. split; reflexivity. }
  destruct (queue p) as [|x q] eqn:Hq.
  { unfold run, handleProcessQueue. cbn [page]. rewrite Hkey, Hq. cbn.
    rewrite Hq. split; reflexivity. }
  destruct (filter eligible (queueRef p)) as [|y work] eqn:Hwork.
  { unfold run, handleProcessQueue. cbn [page]. rewrite Hkey, Hq, Hwork. cbn.
    rewrite Hq. split; reflexivity. }
  assert (Hq' : queue p <> []) by (rewrite Hq; discriminate).
  assert (Hw' : filter eligible (queueRef p) <> []) by (rewrite Hwork; discriminate).
  destruct (handleProcessQueue_runs net p Hkey Hq' Hw')
    as (finals & w' & Hrun & Hset & Hqueue & _ & _ & _ & _ & Hact & _).
  unfold run. rewrite Hrun. cbn [snd]. split; [|exact Hact].
  rewrite Hqueue, Hq. apply fold_afterTurn_ids.
  apply (Forall_combine_snd (fun final => set_id final = None)).
  eapply settles_all_keep_id; exact Hset.
Qed.

Lemma pointerValid_active (p : Page) :
  pointerValid p ->
  match activeId p with
  | Some a =>
      exists item, In item (queue p) /\ id item = a /\ activeItem p = Some item
  | None => queue p = [] /\ activeItem p = None
  end.
Proof.
  unfold pointerValid, activeItem. destruct (activeId p) as [a|].
  - intros Hin. unfold ids in Hin. apply in_map_iff in Hin.
    destruct Hin as (x & Hx & Hxin).
    destruct (find (fun item => (id item =? a)%string) (queue p)) as [item|] eqn:Hf.
    + apply find_some in Hf. destruct Hf as [Hin Heq]. apply String.eqb_eq in Heq.
      exists item. destruct (queue p); [contradiction|]. auto.
    + exfalso. pose proof (find_none _ _ Hf x Hxin) as Hn. cbn in Hn.
      rewrite Hx, String.eqb_refl in Hn. discriminate.
  - intros ->. split; reflexivity.
Qed.

Lemma in_ids_filter_out (target a : string) (q : list QueueItem) :
  In a (ids q) -> a <> target ->
  In a (ids (filter (fun item => negb (sameId target item)) q)).
Proof.
  unfold ids. intros Hin Hne. apply in_map_iff in Hin. destruct Hin as (x & Hx & Hin).
  apply in_map_iff. exists x. split; [exact Hx|]. apply filter_In. split; [exact Hin|].
  apply negb_true_iff. apply sameId_false. congruence.
Qed.

Lemma visited_pointerValid (p : Page) : visited p -> pointerValid p.
Proof.
  induction 1 as [k | p k _ IH | p item _ IH Hin | p uploads _ IH
                 | p target _ IH | p _ IH | p net _ IH].
  - reflexivity.
  - exact IH.
  - unfold pointerValid, act, run; cbn. apply in_map; exact Hin.
  - unfold act. rewrite handleFileChange_run.
    destruct uploads as [|first rest]; [exact IH|].
    unfold pointerValid in *. cbn [page commit activeId queue].
    destruct (activeId p) as [a|] eqn:Ha; cbn [noActive].
    + destruct (isEmpty a); cbn.
      * unfold ids. rewrite map_app. apply in_or_app. right. left. reflexivity.
      * rewrite Ha. unfold ids. rewrite map_app. apply in_or_app. left. exact IH.
    + cbn. unfold ids. rewrite map_app. apply in_or_app. right. left. reflexivity.
  - unfold act. rewrite handleRemoveItem_page. unfold pointerValid in *.
    cbn [commit activeId queue withActiveId withQueue].
    destruct (activeId p) as [a|].
    + destruct (String.eqb a target) eqn:Heq.
      * destruct (filter _ (queue p)) as [|y rest]; [reflexivity|left; reflexivity].
      * apply String.eqb_neq in Heq. apply in_ids_filter_out; assumption.
    + rewrite IH. reflexivity.
  - unfold act. rewrite handleClearQueue_run. reflexivity.
  - unfold act, pointerValid in *. cbn [commit activeId queue].
    destruct (handleProcessQueue_keeps_ids net p) as [Hids Hact].
    rewrite Hact. destruct (activeId p) as [a|].
    + rewrite Hids. exact IH.
    + rewrite IH in Hids. cbn in Hids.
      destruct (queue (page (run (handleProcessQueue net) p)));
        [reflexivity|discriminate].
Qed.

(** Property X5.  On every page brought about by typing a key,
    clicking an item of the list, picking files, removing an item,
    clearing the queue and running batches, the pointer names an item
    of the queue and that item is the one shown, or the pointer names
    nothing, the queue is empty and no item is shown. *)
Theorem visited_pointer_names_an_item (p : Page) :
  visited p ->
  match activeId p with
  | Some a =>
      exists item, In item (queue p) /\ id item = a /\ activeItem p = Some item
  | None => queue p = [] /\ activeItem p = None
  end.
Proof. intros H. apply pointerValid_active, visited_pointerValid, H. Qed.

(** ** The counters after a batch *)

Lemma settleQueue_counts (net : Network) (q : list QueueItem) :
  forall start finals,
    Forall consistent q ->
    Forall2 (fun k final => settles (respond net k) final)
      (seq start (length (filter eligible q))) finals ->
    let n := length (filter eligible q) in
    length (filter (hasStatus Pending) (settleQueue q finals)) = 0 /\
    length (filter (hasStatus Processing) (settleQueue q finals)) = 0 /\
    length (filter (hasStatus Success) (settleQueue q finals)) =
      length (filter (hasStatus Success) q)
      + length (filter (fun k => succeeds (respond net k)) (seq start n)) /\
    length (filter eligible (settleQueue q finals)) =
      length (filter (fun k => negb (succeeds (respond net k))) (seq start n)).
Proof.
  induction q as [|item rest IH]; intros start finals Hc Hset n.
  - cbn. repeat split; reflexivity.
  - inversion Hc as [|? ? Hitem Hrest]; subst.
    unfold n. cbn [filter] in Hset. cbn [settleQueue filter].
    destruct (eligible item) eqn:He.
    + cbn [length seq] in Hset |- *.
      inversion Hset as [|k final ks finals' Hfinal Hset']; subst.
      destruct (IH (S start) finals' Hrest Hset') as (Hp & Hpr & Hs & Hf).
      pose proof (settles_status _ _ item Hfinal) as Hst.
      assert (Hold : hasStatus Success item = false).
      { unfold hasStatus. unfold eligible in He. destruct (status item); congruence. }
      cbn [filter]. rewrite Hold.
      unfold hasStatus, eligible in *. rewrite Hst.
      destruct (succeeds (respond net start)); cbn [negb filter length];
        repeat split; try assumption; lia.
    + destruct (IH start finals Hrest Hset) as (Hp & Hpr & Hs & Hf).
      assert (Hst : status item = Success).
      { unfold consistent in Hitem. unfold eligible in He.
        destruct (status item); try discriminate; [contradiction|reflexivity]. }
      cbn [filter]. unfold hasStatus, eligible in *. rewrite Hst. cbn [length].
      repeat split; try assumption. lia.
Qed.

Lemma runBatch_counts (net : Network) (p : Page) :
  atRest p ->
  isEmpty (trim (apiKey p)) = false ->
  filter eligible (queue p) <> [] ->
  let p' := act (handleProcessQueue net) p in
  let n := length (filter eligible (queue p)) in
  pendingCount p' = 0 /\ processingCount p' = 0 /\
  successCount p' = successCount p + successes net n /\
  length (filter eligible (queue p')) = failures net n /\
  totalCount p' = totalCount p /\
  isProcessing p' = false.
Proof.
  intros (Href & Hnd & Hc) Hkey Hwork p' n.
  destruct (run_settles net p Href Hkey Hwork)
    as (finals & w' & Hrun & Hlen & Hset & Hsame & Hqueue & _ & _ & _ & _ & Hbusy & _).
  assert (Hq : queue p' = settleQueue (queue p) finals).
  { unfold p', act, run. rewrite Hrun. cbn [snd commit queue]. apply Hqueue, Hnd. }
  destruct (settleQueue_counts net (queue p) 0 finals Hc Hset) as (H1 & H2 & H3 & H4).
  unfold pendingCount, processingCount, successCount, totalCount, successes, failures.
  rewrite Hq. repeat split; try assumption.
  - rewrite <- Hq. unfold p', act, run. rewrite Hrun. exact Hsame.
  - unfold p', act, run. rewrite Hrun. exact Hbusy.
Qed.

(** Property X6.  After a batch run from a page at rest, the counters
    the page shows read: no item pending, no item processing, as many
    more successes as calls succeeded; as many items are left to retry
    as calls failed; the number of items is the same and the busy flag
    is off. *)
Theorem runBatch_leaves_nothing_pending (net : Network) (p : Page) :
  atRest p ->
  isEmpty (trim (apiKey p)) = false ->
  filter eligible (queue p) <> [] ->
  let p' := act (handleProcessQueue net) p in
  let n := length (filter eligible (queue p)) in
  pendingCount p' = 0 /\ processingCount p' = 0 /\
  successCount p' = successCount p + successes net n /\
  length (filter eligible (queue p')) = failures net n /\
  totalCount p' = totalCount p /\
  isProcessing p' = false.
Proof. exact (runBatch_counts net p). Qed.

Lemma no_pending_eligible (q : list QueueItem) :
  length (filter (hasStatus Pending) q) = 0 ->
  filter eligible q = filter (hasStatus Error) q.
Proof.
  induction q as [|x q IH]; intros H; [reflexivity|].
  cbn [filter] in *. unfold hasStatus at 1 in H. unfold eligible at 1, hasStatus at 1.
  destruct (status x); cbn [length] in H; try discriminate;
    rewrite (IH H); reflexivity.
Qed.

Lemma run_fetches (net : Network) (p : Page) :
  queueRef p = queue p ->
  isEmpty (trim (apiKey p)) = false ->
  fetches (trace (run (handleProcessQueue net) p)) =
  map (fun item => (file item, trim (apiKey p))) (filter eligible (queue p)).
Proof.
  intros Href Hkey.
  destruct (filter eligible (queue p)) as [|y work] eqn:Hwork.
  - unfold run, handleProcessQueue. cbn [page]. rewrite Hkey, Href, Hwork.
    destruct (queue p); reflexivity.
  - assert (Hne : filter eligible (queue p) <> []) by (rewrite Hwork; discriminate).
    destruct (run_settles net p Href Hkey Hne)
      as (finals & w' & Hrun & Hlen & _ & _ & _ & Hsteps & _).
    unfold run. rewrite Hrun. cbn [snd].
    rewrite <- fetches_steps, Hsteps, <- Hwork. apply fetches_turns; exact Hlen.
Qed.

Lemma run_keeps_successes (net : Network) (p : Page) (item : QueueItem) :
  atRest p -> In item (queue p) -> status item = Success ->
  In item (queue (page (run (handleProcessQueue net) p))).
Proof.
  intros (Href & Hnd & Hc) Hin Hst.
  destruct (isEmpty (trim (apiKey p))) eqn:Hkey.
  { unfold run, handleProcessQueue. cbn [page]. rewrite Hkey. exact Hin. }
  destruct (filter eligible (queue p)) as [|y work] eqn:Hwork.
  { assert (Hsame : forall m,
              In item (queue (page (snd (setPage (withGlobalError m)
                                           {| page := p; trace := [] |})))))
      by (intros m; exact Hin).
    unfold run, handleProcessQueue. cbn [page]. rewrite Hkey, Href, Hwork.
    destruct (queue p); apply Hsame. }
  assert (Hne : filter eligible (queue p) <> []) by (rewrite Hwork; discriminate).
  destruct (run_settles net p Href Hkey Hne)
    as (finals & w' & Hrun & Hlen & _ & _ & Hqueue & _).
  unfold run. rewrite Hrun. cbn [snd]. rewrite (Hqueue Hnd).
  assert (He : eligible item = false) by (unfold eligible; rewrite Hst; reflexivity).
  destruct (In_nth_error _ _ Hin) as [k Hk].
  pose proof (settleQueue_nth (queue p) finals k item Hlen Hk) as H.
  rewrite He in H. eapply nth_error_In; exact H.
Qed.

(** Property X7.  A batch run that follows a batch run sends one
    request for each item the first run left in error, in queue order
    and with the same key, and none for any other item: as many
    requests as calls failed before.  When none failed it is refused
    with the message for a queue without eligible items.  The items
    that succeeded are in the queue unchanged afterwards. *)
Theorem rerun_retries_only_failures (net again : Network) (p : Page) :
  atRest p ->
  isEmpty (trim (apiKey p)) = false ->
  filter eligible (queue p) <> [] ->
  let n := length (filter eligible (queue p)) in
  let p' := act (handleProcessQueue net) p in
  let w'' := run (handleProcessQueue again) p' in
  fetches (trace w'') =
    map (fun item => (file item, trim (apiKey p)))
      (filter (hasStatus Error) (queue p')) /\
  length (fetches (trace w'')) = failures net n /\
  (failures net n = 0 -> refused again p' noEligibleItems) /\
  (forall item, In item (queue p') -> status item = Success ->
     In item (queue (page w''))).
Proof.
  intros Hrest Hkey Hwork n p' w''.
  pose proof (handleProcessQueue_atRest net p Hrest) as Hrest'. fold p' in Hrest'.
  destruct (runBatch_counts net p Hrest Hkey Hwork) as (Hp & _ & _ & Hf & Htotal & _).
  fold p' in Hp, Hf, Htotal. fold n in Hf.
  destruct Hrest as (Href & Hnd & Hc).
  destruct (run_settles net p Href Hkey Hwork)
    as (finals & w' & Hrun & _ & _ & _ & _ & _ & Hk & _).
  assert (Hkey' : apiKey p' = apiKey p).
  { unfold p', act, run. rewrite Hrun. exact Hk. }
  assert (Href' : queueRef p' = queue p') by apply Hrest'.
  assert (Hfetch : fetches (trace w'') =
            map (fun item => (file item, trim (apiKey p)))
              (filter (hasStatus Error) (queue p'))).
  { unfold w''. rewrite run_fetches; [|exact Href'|rewrite Hkey'; exact Hkey].
    rewrite Hkey'. rewrite no_pending_eligible by exact Hp. reflexivity. }
  split; [exact Hfetch|]. split; [|split].
  - rewrite Hfetch, length_map, <- no_pending_eligible by exact Hp. exact Hf.
  - intros Hnone. unfold refused, handleProcessQueue. cbn [page].
    rewrite Hkey', Hkey, Href'.
    assert (He : filter eligible (queue p') = []).
    { apply length_zero_iff_nil. rewrite Hf. exact Hnone. }
    rewrite He.
    destruct (queue p') as [|x q] eqn:Hq; [|reflexivity].
    exfalso. unfold totalCount in Htotal. rewrite Hq in Htotal. cbn in Htotal.
    destruct (queue p); [apply Hwork; reflexivity|discriminate].
  - intros item Hin Hst. apply run_keeps_successes; assumption.
Qed.

(** ** The busy flag *)

Lemma handleFileChange_busy (uploads : list Upload) (w : World) :
  isProcessing (page (snd (handleFileChange uploads w))) = isProcessing (page w).
Proof.
  destruct w as [p t]. rewrite handleFileChange_any_trace, handleFileChange_run.
  destruct uploads; [reflexivity|]. destruct (noActive (activeId p)); reflexivity.
Qed.

Lemma handleRemoveItem_busy (target : string) (w : World) :
  isProcessing (page (snd (handleRemoveItem target w))) = isProcessing (page w).
Proof.
  destruct w as [p t]. rewrite handleRemoveItem_any_trace, handleRemoveItem_page.
  reflexivity.
Qed.

Lemma handleClearQueue_busy (w : World) :
  isProcessing (page (snd (handleClearQueue w))) = isProcessing (page w).
Proof.
  destruct w as [p t]. rewrite handleClearQueue_any_trace, handleClearQueue_run.
  reflexivity.
Qed.

Lemma step_keeps_busy (s s' : Session) :
  step s s' ->
  isProcessing (page (world s)) = running (phase s) ->
  isProcessing (page (world s')) = running (phase s').
Proof.
  intros Hstep Hinv.
  destruct Hstep as [s k | s a | s uploads Hfresh Hheld | s target | s
                    | p t net m Hm | p t net Hk Hq Hw
                    | w w' net key item outcome rest Hbegin
                    | w w' net key item outcome rest Hfinish
                    | w net key];
    cbn [perform world phase page commit isProcessing running] in *.
  - exact Hinv.
  - exact Hinv.
  - rewrite handleFileChange_busy. exact Hinv.
  - rewrite handleRemoveItem_busy. exact Hinv.
  - rewrite handleClearQueue_busy. exact Hinv.
  - exact Hinv.
  - reflexivity.
  - rewrite beginTurn_eq in Hbegin. injection Hbegin as _ <-. exact Hinv.
  - destruct (finishTurn_spec net item outcome w)
      as (final & w'' & Hrun & _ & _ & _ & _ & Hshell).
    rewrite Hrun in Hfinish. injection Hfinish as <-.
    destruct Hshell as (_ & _ & _ & Hb & _). rewrite Hb. exact Hinv.
  - reflexivity.
Qed.

(** Property X8.  Whatever the user does while requests are in flight,
    the busy flag is on exactly from the start of a batch run to its
    end: it is on while the handler holds items or awaits an answer,
    and off on an idle page. *)
Theorem sessions_busy_exactly_while_running (storedKey : string) (s : Session) :
  steps_to (initialSession storedKey) s ->
  isProcessing (page (world s)) = running (phase s).
Proof.
  intros Hsteps. remember (initialSession storedKey) as s0 eqn:Hs0.
  induction Hsteps as [s|s s' s'' _ IH Hstep].
  - subst s. reflexivity.
  - eapply step_keeps_busy; [exact Hstep|]. apply IH; exact Hs0.
Qed.

(** ** The properties on sample pages *)

Lemma handleFileChange_appends_pending_witness :
  [uploadB; uploadC] <> [] /\
  let w' := run (handleFileChange [uploadB; uploadC])
              (pageOf "secret" [itemA] (Some (id itemA))) in
  queue (page w') = [itemA; itemB; itemC] /\
  fetches (trace w') = [] /\
  activeId (page w') = Some (id itemA).
Proof.
  assert (Hne : [uploadB; uploadC] <> []) by discriminate.
  split; [exact Hne|].
  destruct (handleFileChange_appends_pending [uploadB; uploadC]
              (pageOf "secret" [itemA] (Some (id itemA))) Hne)
    as (_ & _ & _ & _ & _ & Hfetch & _ & Hactive & _).
  split; [reflexivity|]. split; [exact Hfetch|exact Hactive].
Defined.

Lemma handleRemoveItem_releases_the_item_witness :
  NoDup (ids (queue threePending)) /\
  In itemA (queue threePending) /\
  trace (run (handleRemoveItem (id itemA)) threePending) =
    [RevokeObjectURL "blob:preview/a.jpg"].
Proof.
  assert (Hin : In itemA (queue threePending)) by (left; reflexivity).
  split; [exact threePending_ids|]. split; [exact Hin|].
  exact (proj1 (handleRemoveItem_releases_the_item threePending (id itemA))
           threePending_ids itemA Hin eq_refl).
Defined.

Lemma handleClearQueue_releases_every_url_witness :
  In doneA (queue (pageOf "secret" [doneA; itemB] None)) /\
  resultUrl doneA = Some "blob:result/0" /\
  let w' := run handleClearQueue (pageOf "secret" [doneA; itemB] None) in
  queue (page w') = [] /\
  In (RevokeObjectURL (previewUrl doneA)) (trace w') /\
  In (RevokeObjectURL "blob:result/0") (trace w').
Proof.
  assert (Hin : In doneA (queue (pageOf "secret" [doneA; itemB] None)))
    by (left; reflexivity).
  split; [exact Hin|]. split; [reflexivity|].
  destruct (handleClearQueue_releases_every_url (pageOf "secret" [doneA; itemB] None))
    as (Hq & _ & _ & Hall & _).
  destruct (Hall doneA Hin) as [Hp Hr].
  split; [exact Hq|]. split; [exact Hp|]. exact (Hr _ eq_refl eq_refl).
Defined.

Lemma afterBatch_reachable : reachable afterBatch.
Proof.
  unfold afterBatch. apply reach_runBatch. apply reach_enqueue.
  - apply reach_setApiKey. apply reach_initial.
  - exact threePending_ids.
Defined.

Lemma unmount_releases_every_url_witness :
  reachable afterBatch /\
  In doneA (queue afterBatch) /\
  In (RevokeObjectURL (previewUrl doneA)) (unmount afterBatch) /\
  In (RevokeObjectURL "blob:result/0") (unmount afterBatch).
Proof.
  assert (Hin : In doneA (queue afterBatch)) by (vm_compute; left; reflexivity).
  split; [exact afterBatch_reachable|]. split; [exact Hin|].
  destruct (unmount_releases_every_url afterBatch doneA afterBatch_reachable Hin)
    as (Hp & Hr & _).
  split; [exact Hp|]. exact (Hr _ eq_refl eq_refl).
Defined.

Lemma visited_pointer_names_an_item_witness :
  let p := act (handleRemoveItem (id itemA))
             (act (handleFileChange [uploadA; uploadB]) (initialPage "")) in
  visited p /\
  match activeId p with
  | Some a =>
      exists item, In item (queue p) /\ id item = a /\ activeItem p = Some item
  | None => queue p = [] /\ activeItem p = None
  end.
Proof.
  intros p.
  assert (Hv : visited p).
  { unfold p. apply visit_remove. apply visit_enqueue. apply visit_initial. }
  split; [exact Hv|]. exact (visited_pointer_names_an_item p Hv).
Defined.

Lemma threePending_atRest : atRest threePending.
Proof.
  split; [reflexivity|]. split; [exact threePending_ids|].
  repeat constructor.
Defined.

Lemma runBatch_leaves_nothing_pending_witness :
  atRest threePending /\
  isEmpty (trim (apiKey threePending)) = false /\
  filter eligible (queue threePending) <> [] /\
  let p' := act (handleProcessQueue failsSecond) threePending in
  pendingCount p' = 0 /\ processingCount p' = 0 /\
  successCount p' = successCount threePending + successes failsSecond 3 /\
  length (filter eligible (queue p')) = failures failsSecond 3.
Proof.
  assert (Hwork : filter eligible (queue threePending) <> []) by discriminate.
  split; [exact threePending_atRest|]. split; [reflexivity|]. split; [exact Hwork|].
  destruct (runBatch_leaves_nothing_pending failsSecond threePending
              threePending_atRest eq_refl Hwork)
    as (Hp & Hpr & Hs & Hf & _).
  split; [exact Hp|]. split; [exact Hpr|]. split; [exact Hs|exact Hf].
Defined.

Lemma rerun_retries_only_failures_witness :
  atRest threePending /\
  isEmpty (trim (apiKey threePending)) = false /\
  filter eligible (queue threePending) <> [] /\
  let p' := act (handleProcessQueue failsSecond) threePending in
  let w'' := run (handleProcessQueue offline) p' in
  length (fetches (trace w'')) = failures failsSecond 3 /\
  forall item, In item (queue p') -> status item = Success ->
    In item (queue (page w'')).
Proof.
  assert (Hwork : filter eligible (queue threePending) <> []) by discriminate.
  split; [exact threePending_atRest|]. split; [reflexivity|]. split; [exact Hwork|].
  destruct (rerun_retries_only_failures failsSecond offline threePending
              threePending_atRest eq_refl Hwork)
    as (_ & Hlen & _ & Hkept).
  split; [exact Hlen|exact Hkept].
Defined.

Lemma sessions_busy_exactly_while_running_witness :
  steps_to (initialSession "") started /\
  isProcessing (page (world started)) = true.
Proof.
  assert (Hsteps : steps_to (initialSession "") started).
  { apply steps_more with (s' := typed).
    - apply steps_more
        with (s' := perform (setPage (withApiKey "secret")) (initialSession "")).
      + apply steps_more with (s' := initialSession ""); [apply steps_none|].
        apply step_setApiKey.
      + apply (step_enqueue
                 (perform (setPage (withApiKey "secret")) (initialSession ""))
                 [uploadA]).
        * repeat constructor; simpl; intuition discriminate.
        * intros u _ [].
    - exact (step_start (page (world typed)) (trace (world typed)) failsSecond
               eq_refl
               (fun H => eq_ind (queue (page (world typed)))
                           (fun q => match q with [] => False | _ :: _ => True end)
                           I [] H)
               (fun H => eq_ind (filter eligible (queueRef (page (world typed))))
                           (fun q => match q with [] => False | _ :: _ => True end)
                           I [] H)). }
  split; [exact Hsteps|].
  exact (sessions_busy_exactly_while_running "" started Hsteps).
Defined.

End QueueFacts.

(* ================================================================== *)
(** * Facts about compression *)
(* ================================================================== *)

Module CompressFacts.
Import Js Compress.
Local Open Scope list_scope.

Lemma inBox_origin (w h x y : N) :
  (x < w)%N -> (y < h)%N -> inBox 0 0 w h x y = true.
Proof.
  intros Hx Hy. unfold inBox.
  rewrite !N.add_0_l.
  assert (H1 : (0 <=? x)%N = true) by (apply N.leb_le; lia).
  assert (H2 : (0 <=? y)%N = true) by (apply N.leb_le; lia).
  assert (H3 : (x <? w)%N = true) by (apply N.ltb_lt; lia).
  assert (H4 : (y <? h)%N = true) by (apply N.ltb_lt; lia).
  rewrite H1, H2, H3, H4. reflexivity.
Qed.

Lemma render_width B file image : width (render B file image) = naturalWidth image.
Proof. unfold render. destruct (targetType file =? "image/jpeg")%string; reflexivity. Qed.

Lemma render_height B file image : height (render B file image) = naturalHeight image.
Proof. unfold render. destruct (targetType file =? "image/jpeg")%string; reflexivity. Qed.



Lemma eightBit_white : eightBit opaqueWhite.
Proof. repeat split; discriminate. Qed.

Lemma eightBit_nothing : eightBit transparentBlack.
Proof. repeat split; discriminate. Qed.

(** The white fill of the empty canvas is white. *)
Lemma fill_white B :
  compositing (sourceOver B) -> sourceOver B opaqueWhite transparentBlack = opaqueWhite.
Proof. intros (Hopaque & _). apply Hopaque; [apply eightBit_white|reflexivity]. Qed.

Lemma render_jpeg B file image x y :
  compositing (sourceOver B) ->
  supportsAlpha file = false ->
  (x < naturalWidth image)%N -> (y < naturalHeight image)%N ->
  bitmap (render B file image) x y = sourceOver B (texel image x y) opaqueWhite.
Proof.
  intros Hlaws Ha Hx Hy. unfold render, targetType. rewrite Ha.
  change ("image/jpeg" =? "image/jpeg")%string with true. cbv iota.
  cbn [bitmap drawImage fillRect setFillStyle setHeight setWidth width height
       fillStyle].
  rewrite !inBox_origin by assumption. rewrite !N.sub_0_r.
  rewrite (fill_white B Hlaws). reflexivity.
Qed.

Lemma render_webp B file image x y :
  supportsAlpha file = true ->
  (x < naturalWidth image)%N -> (y < naturalHeight image)%N ->
  bitmap (render B file image) x y = sourceOver B (texel image x y) transparentBlack.
Proof.
  intros Ha Hx Hy. unfold render, targetType. rewrite Ha.
  change ("image/webp" =? "image/jpeg")%string with false. cbv iota.
  cbn [bitmap drawImage setHeight setWidth width height].
  rewrite !inBox_origin by assumption. rewrite !N.sub_0_r. reflexivity.
Qed.

Lemma compressImage_eq (B : Browser) file quality dataUrl image :
  readAsDataURL B file = Some dataUrl ->
  loadImage B dataUrl = Some image ->
  context2d B = true ->
  encodes B (render B file image) (targetType file) quality = true ->
  compressImage B file quality =
  Normal
    (let result := toBlob B (render B file image) (targetType file) quality in
     {| blob := result; url := createObjectURL B result;
        mimeType := targetType file |}).
Proof.
  intros Hread Hload Hctx Henc. unfold compressImage.
  rewrite Hread, Hload, Hctx, Henc. reflexivity.
Qed.


(** Claim C7.  Under the same conditions and for every quality, the
    blob is the encoding of a canvas whose width and height are the
    natural width and height of the image; the canvas does not depend on
    the quality, which is passed to the encoder only; pixel by pixel it
    is the source pixel at the same coordinates drawn over the
    background, so an opaque pixel of the image is in the canvas as it
    is, at its own place. *)
Theorem compressImage_keeps_dimensions (B : Browser) (file : File)
  (quality : QArith_base.Q) (dataUrl : string) (image : Image) :
  compositing (sourceOver B) ->
  readAsDataURL B file = Some dataUrl ->
  loadImage B dataUrl = Some image ->
  context2d B = true ->
  encodes B (render B file image) (targetType file) quality = true ->
  exists result,
    compressImage B file quality = Normal result /\
    blobWidth (blob result) = naturalWidth image /\
    blobHeight (blob result) = naturalHeight image /\
    requestedQuality (blob result) = quality /\
    (forall other result',
       compressImage B file other = Normal result' ->
       encoded (blob result') = encoded (blob result)) /\
    forall x y, (x < naturalWidth image)%N -> (y < naturalHeight image)%N ->
      bitmap (encoded (blob result)) x y =
        sourceOver B (texel image x y)
          (if supportsAlpha file then transparentBlack else opaqueWhite) /\
      (eightBit (texel image x y) -> alpha (texel image x y) = 255%N ->
       bitmap (encoded (blob result)) x y = texel image x y).
Proof.
  intros Hlaws Hread Hload Hctx Henc.
  eexists. split; [apply (compressImage_eq B file quality dataUrl image); assumption|].
  unfold blobWidth, blobHeight. cbn [blob mimeType requestedQuality encoded toBlob].
  rewrite render_width, render_height.
  split; [reflexivity|]. split; [reflexivity|]. split; [reflexivity|]. split.
  - intros other result' Hother. unfold compressImage in Hother.
    rewrite Hread, Hload, Hctx in Hother. cbn [negb] in Hother.
    destruct (encodes B (render B file image) (targetType file) other);
      [|discriminate].
    injection Hother as <-. reflexivity.
  - intros x y Hx Hy.
    assert (Hpixel : bitmap (render B file image) x y =
                     sourceOver B (texel image x y)
                       (if supportsAlpha file then transparentBlack
                        else opaqueWhite)).
    { destruct (supportsAlpha file) eqn:Ha.
      - apply render_webp; assumption.
      - apply render_jpeg; assumption. }
    split; [exact Hpixel|].
    intros Hbits Ha. rewrite Hpixel. apply (proj1 Hlaws); assumption.
Qed.

(** ** A canvas with premultiplied colours *)

Import CompressSamples.

Lemma rounded_mul (k d : N) : (d <> 0)%N -> rounded (k * d) d = k.
Proof.
  intros Hd. unfold rounded. symmetry.
  apply N.div_unique with (r := d); lia.
Qed.

Lemma rounded_zero (d : N) : (d <> 0)%N -> rounded 0 d = 0%N.
Proof. intros Hd. apply (rounded_mul 0 d Hd). Qed.

Lemma premultiply_opaque (p : Pixel) : alpha p = 255%N -> premultiply p = p.
Proof.
  intros Ha. destruct p as [r g b a]. cbn in Ha. subst a.
  unfold premultiply. cbn [red green blue alpha].
  rewrite !rounded_mul by discriminate. reflexivity.
Qed.

Lemma unpremultiply_opaque (p : Pixel) :
  eightBit p -> alpha p = 255%N -> unpremultiply p = p.
Proof.
  intros (Hr & Hg & Hb & _) Ha. destruct p as [r g b a]. cbn in *. subst a.
  unfold unpremultiply. cbn [red green blue alpha].
  change (255 =? 0)%N with false. cbv iota.
  rewrite !rounded_mul by discriminate.
  rewrite (N.min_r 255 r), (N.min_r 255 g), (N.min_r 255 b) by assumption.
  reflexivity.
Qed.

(** The sample canvas composites as every canvas does. *)
Lemma premultiplied_compositing : compositing premultiplied.
Proof.
  unfold compositing, premultiplied. repeat split.
  - intros s d Hbits Ha. rewrite (premultiply_opaque s Ha).
    assert (Hblend : blend s (premultiply d) = s).
    { destruct s as [r g b a]. cbn in Ha. subst a. unfold blend.
      cbn [red green blue alpha]. change (255 - 255)%N with 0%N.
      rewrite !N.mul_0_r, rounded_zero by discriminate.
      rewrite !N.add_0_r. reflexivity. }
    rewrite Hblend. apply unpremultiply_opaque; assumption.
  - intros s d Ha Hbits Hd.
    assert (Hs : premultiply s = {| red := 0; green := 0; blue := 0; alpha := 0 |}).
    { destruct s as [r g b a]. cbn in Ha. subst a. unfold premultiply.
      cbn [red green blue alpha]. rewrite !N.mul_0_r, rounded_zero by discriminate.
      reflexivity. }
    rewrite Hs.
    assert (Hblend : forall q, blend {| red := 0; green := 0; blue := 0; alpha := 0 |} q = q).
    { intros [r g b a]. unfold blend. cbn [red green blue alpha].
      change (255 - 0)%N with 255%N. rewrite !rounded_mul by discriminate.
      reflexivity. }
    rewrite Hblend. destruct Hd as [Hd| ->].
    + rewrite (premultiply_opaque d Hd). apply unpremultiply_opaque; assumption.
    + reflexivity.
  - intros s d (_ & _ & _ & Hs) Hd. destruct s as [r g b a], d as [r' g' b' a'].
    cbn in Hs, Hd. subst a'.
    unfold premultiply, blend, unpremultiply. cbn [red green blue alpha].
    rewrite (N.mul_comm 255 (255 - a)), !rounded_mul by discriminate.
    replace (a + (255 - a))%N with 255%N by lia.
    change (255 =? 0)%N with false. reflexivity.
  - intros s (_ & _ & _ & Hs). destruct s as [r g b a]. cbn in Hs.
    unfold premultiply, blend, unpremultiply, transparentBlack.
    cbn [red green blue alpha].
    rewrite !N.mul_0_l, !rounded_zero by discriminate. rewrite !N.add_0_r.
    destruct (a =? 0)%N eqn:Hz; [apply N.eqb_eq in Hz; subst a|]; reflexivity.
Qed.

(** What such a canvas makes of colours that are not opaque: over
    white, and read back from an empty canvas, they are not the colours
    drawn. *)
Example premultiplied_colours :
  premultiplied faintRed opaqueWhite =
    {| red := 255; green := 254; blue := 254; alpha := 255 |} /\
  premultiplied halfRed transparentBlack =
    {| red := 199; green := 10; blue := 10; alpha := 128 |} /\
  premultiplied faintRed transparentBlack =
    {| red := 255; green := 0; blue := 0; alpha := 1 |}.
Proof. vm_compute. repeat split; reflexivity. Qed.


Lemma compressImage_keeps_dimensions_witness :
  compositing (sourceOver browser) /\
  readAsDataURL browser pngFile = Some "data:image/png;base64," /\
  loadImage browser "data:image/png;base64," = Some sticker /\
  context2d browser = true /\
  encodes browser (render browser pngFile sticker) (targetType pngFile) seventy
    = true /\
  exists result,
    compressImage browser pngFile seventy = Normal result /\
    blobWidth (blob result) = 2%N /\ blobHeight (blob result) = 1%N.
Proof.
  split; [exact premultiplied_compositing|].
  do 4 (split; [reflexivity|]).
  destruct (compressImage_keeps_dimensions browser pngFile seventy
              "data:image/png;base64," sticker premultiplied_compositing
              eq_refl eq_refl eq_refl eq_refl)
    as (result & Hrun & Hw & Hh & _).
  exists result. split; [exact Hrun|]. split; [exact Hw | exact Hh].
Defined.

Example png_keeps_transparency :
  match compressImage browser pngFile seventy with
  | Normal result =>
      mimeType result = "image/webp" /\
      blobType (blob result) = "image/webp" /\
      bitmap (encoded (blob result)) 0 0 = transparentBlack
  | Throw _ => False
  end.
Proof. vm_compute. repeat split; reflexivity. Qed.

(** With an encoder that does not know WebP the blob is a PNG file; the
    result names the type that was asked for. *)
Example png_without_webp_encoder :
  match compressImage withoutWebp pngFile seventy with
  | Normal result =>
      mimeType result = "image/webp" /\ blobType (blob result) = "image/png"
  | Throw _ => False
  end.
Proof. vm_compute. repeat split; reflexivity. Qed.

(** ** Pixels the canvas keeps *)

(** Property X9.  Inside the image, and in every browser whose
    [source-over] is one, the canvas handed to the encoder holds every
    opaque pixel of the image unchanged, whatever the type of the file;
    for a PNG or WebP file it is empty (transparent black) where the
    image is fully transparent, so no white shows through.  Colours that
    are neither opaque nor fully transparent are the browser's to
    round. *)
Theorem render_keeps_visible_pixels (B : Browser) (file : File) (image : Image)
  (x y : N) :
  compositing (sourceOver B) ->
  (x < naturalWidth image)%N -> (y < naturalHeight image)%N ->
  eightBit (texel image x y) ->
  let drawn := bitmap (render B file image) x y in
  (alpha (texel image x y) = 255%N -> drawn = texel image x y) /\
  (supportsAlpha file = true -> alpha (texel image x y) = 0%N ->
   drawn = transparentBlack).
Proof.
  intros Hlaws Hx Hy Hbits drawn. unfold drawn.
  destruct Hlaws as (Hopaque & Hclear & Hsolid & Hempty).
  assert (Hlaws : compositing (sourceOver B)) by (repeat split; assumption).
  split.
  - intros Ha. destruct (supportsAlpha file) eqn:Hs.
    + rewrite render_webp by assumption. apply Hopaque; assumption.
    + rewrite render_jpeg by assumption. apply Hopaque; assumption.
  - intros Hs Hz. rewrite render_webp by assumption.
    apply Hclear; [exact Hz | apply eightBit_nothing | right; reflexivity].
Qed.

Lemma render_keeps_visible_pixels_witness :
  compositing (sourceOver browser) /\
  (1 < naturalWidth sticker)%N /\ (0 < naturalHeight sticker)%N /\
  eightBit (texel sticker 1 0) /\
  alpha (texel sticker 1 0) = 255%N /\
  bitmap (render browser gifFile sticker) 1 0 =
    {| red := 200; green := 10; blue := 10; alpha := 255 |}.
Proof.
  assert (Hbits : eightBit (texel sticker 1 0)) by (repeat split; discriminate).
  split; [exact premultiplied_compositing|].
  split; [reflexivity|]. split; [reflexivity|]. split; [exact Hbits|].
  split; [reflexivity|].
  exact (proj1 (render_keeps_visible_pixels browser gifFile sticker 1 0
                  premultiplied_compositing eq_refl eq_refl Hbits) eq_refl).
Defined.

End CompressFacts.

(* ================================================================== *)
(** * Facts about the generation route *)
(* ================================================================== *)

Module GenerateFacts.
Import Js Eff Generate.
Local Open Scope list_scope.
Local Open Scope eff_scope.

Lemma callVolcengine_eq (srv : Server) (key : string) (requestBody : value)
  (responseFormat : ResponseFormat) (calls : list Call) :
  callVolcengine srv key (payloadBase requestBody) responseFormat calls =
  (match answer srv (length calls) with
   | Normal reply => Normal (resultOf reply responseFormat)
   | Throw e => Throw e
   end,
   calls ++ [requestFor key requestBody responseFormat]).
Proof.
  unfold callVolcengine, requestFor, resultOf.
  destruct (answer srv (length calls)); reflexivity.
Qed.

Lemma shouldRetryWithBase64_iff (result : VolcengineCallResult) :
  shouldRetryWithBase64 result = Normal true <-> urlDeliveryUnavailable result.
Proof.
  unfold shouldRetryWithBase64, urlDeliveryUnavailable.
  destruct (ok result); [split; [discriminate | intros [H _]; discriminate]|].
  destruct (format result); cbn [isUrl negb];
    [|split; [discriminate | intros (_ & H & _); discriminate]].
  destruct (status result =? 404)%N eqn:Es.
  - apply N.eqb_eq in Es. split; auto.
  - apply N.eqb_neq in Es.
    destruct (truthy (providerMessage (parsedBody result))); cbn [negb].
    + destruct (toString (providerMessage (parsedBody result))) as [text|e].
      * split.
        -- intros H. injection H as H. repeat split; auto. right. split; [reflexivity|].
           exists text. auto.
        -- intros (_ & _ & [H|(_ & text' & Ht & H)]); [contradiction|].
           injection Ht as <-. rewrite H. reflexivity.
      * split; [discriminate|].
        intros (_ & _ & [H|(_ & text' & Ht & _)]); [contradiction|discriminate].
    + split; [discriminate|].
      intros (_ & _ & [H|[H _]]); [contradiction | discriminate].
Qed.

Lemma shouldRetryWithBase64_url (result : VolcengineCallResult) :
  shouldRetryWithBase64 result = Normal true -> format result = Url.
Proof. intros H. apply shouldRetryWithBase64_iff in H. apply H. Qed.






(** ** The images of a reply *)




Lemma printable_true (v : value) :
  printable v = true -> exists text, toString v = Normal text.
Proof. unfold printable. destruct (toString v); [eauto|discriminate]. Qed.

Lemma printable_false (v : value) :
  printable v = false -> exists e, toString v = Throw e.
Proof. unfold printable. destruct (toString v); [discriminate|eauto]. Qed.





(** ** The responses of the route *)

Lemma json_relay (srv : Server) (body : value) (s : N) :
  json srv body s None =
  if acceptsStatus s
  then Normal {| res_status := s; res_body := body; res_cacheControl := None |}
  else Throw (ThrownError (refusal srv s)).
Proof. reflexivity. Qed.

(** The end of [POST] once the last reply is there. *)
Lemma POST_tail (srv : Server) (last : VolcengineCallResult) (calls : list Call) :
  tryCatch
    (fun c : list Call =>
       (if negb (ok last)
        then
          await (json srv
                   (VObj [("error",
                           or_ (providerMessage (parsedBody last))
                               (VStr "生成失败，请稍后再试。"));
                          ("details", parsedBody last)])
                   (status last) None)
        else
          images <- await (normalizeImages (parsedBody last)) ;;
          await (json srv
                   (VObj [("data",
                           VObj [("images", VArr (map imageValue images));
                                 ("raw", parsedBody last);
                                 ("responseFormat",
                                  VStr (formatName (format last)))])])
                   200 (Some "no-store"))) c)
    (fun e =>
       await (json srv
                (VObj [("error", VStr "服务异常，请稍后重试。");
                       ("details",
                        VStr match e with
                             | ThrownError m => m
                             | ThrownOther shown => shown
                             end)])
                500 None)) calls =
  (Normal (responseTo srv last), calls).
Proof.
  unfold tryCatch, responseTo.
  destruct (ok last); cbn [negb].
  - unfold bind, await.
    destruct (normalizeImages (parsedBody last)); reflexivity.
  - unfold await. rewrite json_relay.
    destruct (acceptsStatus (status last)); reflexivity.
Qed.

(** The route on a request that reaches the provider. *)
Lemma serve_accepted (srv : Server) (requestBody : value) (key : string) :
  nullish requestBody = false ->
  isEmpty (promptOf requestBody) = false ->
  resolvedApiKey srv requestBody = Some key ->
  isEmpty key = false ->
  let requested := initialResponseFormat requestBody in
  serve srv (Normal requestBody) =
  match answer srv 0 with
  | Throw e => (Normal (serverError e), [requestFor key requestBody requested])
  | Normal first =>
      match shouldRetryWithBase64 (resultOf first requested) with
      | Throw e => (Normal (serverError e), [requestFor key requestBody requested])
      | Normal true =>
          (match answer srv 1 with
           | Throw e => Normal (serverError e)
           | Normal second => Normal (responseTo srv (resultOf second B64Json))
           end,
           [requestFor key requestBody Url; requestFor key requestBody B64Json])
      | Normal false =>
          (Normal (responseTo srv (resultOf first requested)),
           [requestFor key requestBody requested])
      end
  end.
Proof.
  intros Hbody Hprompt Hkey Hkey' requested.
  unfold serve, POST.
  pose proof (POST_tail srv) as Htail. unfold tryCatch in Htail |- *.
  unfold bind at 1, await at 1.
  unfold bind at 1, await at 1, requireObjectCoercible. rewrite Hbody.
  rewrite Hprompt, Hkey, Hkey'.
  unfold bind at 1. rewrite callVolcengine_eq. cbn [length app].
  fold requested.
  destruct (answer srv 0) as [first|e] eqn:Hfirst; [|reflexivity].
  unfold bind at 1, await at 1.
  destruct (shouldRetryWithBase64 (resultOf first requested)) as [[|]|e] eqn:Hretry;
    [| |reflexivity].
  - unfold bind at 1. rewrite callVolcengine_eq. cbn [length app].
    assert (Hurl : requested = Url)
      by (apply shouldRetryWithBase64_url in Hretry; exact Hretry).
    rewrite Hurl.
    destruct (answer srv 1) as [second|e]; [|reflexivity].
    specialize (Htail (resultOf second B64Json)
                  [requestFor key requestBody Url; requestFor key requestBody B64Json]).
    cbv beta in Htail.
    destruct (ok (resultOf second B64Json)); cbn [negb] in Htail |- *.
    + unfold bind at 1 in Htail. unfold bind at 1.
      destruct (await (normalizeImages (parsedBody (resultOf second B64Json))) _)
        as [[images|e] c] eqn:Hn; exact Htail.
    + exact Htail.
  - unfold bind at 1, ret at 1.
    specialize (Htail (resultOf first requested)
                  [requestFor key requestBody requested]).
    cbv beta in Htail.
    destruct (ok (resultOf first requested)); cbn [negb] in Htail |- *.
    + unfold bind at 1 in Htail. unfold bind at 1.
      destruct (await (normalizeImages (parsedBody (resultOf first requested))) _)
        as [[images|e] c] eqn:Hn; exact Htail.
    + exact Htail.
Qed.

(** The route on a request that does not. *)
Lemma serve_rejected (srv : Server) (request : completion value) :
  accepted srv request = false ->
  serve srv request =
  (Normal match request with
          | Throw e => serverError e
          | Normal requestBody =>
              if nullish requestBody
              then serverError
                     (ThrownError "Cannot read properties of null or undefined")
              else if isEmpty (promptOf requestBody)
              then badRequest missingPrompt
              else badRequest missingKey
          end, []).
Proof.
  unfold accepted, serve, POST, tryCatch.
  destruct request as [requestBody|e]; [|reflexivity].
  unfold bind at 1, await at 1.
  unfold bind at 1, await at 1, requireObjectCoercible.
  destruct (nullish requestBody); [reflexivity|]. cbn [negb andb].
  destruct (isEmpty (promptOf requestBody)); [reflexivity|]. cbn [negb andb].
  destruct (resolvedApiKey srv requestBody) as [key|]; [|reflexivity].
  destruct (isEmpty key); [reflexivity|discriminate].
Qed.

Lemma accepted_true (srv : Server) (request : completion value) :
  accepted srv request = true ->
  exists requestBody key,
    request = Normal requestBody /\ nullish requestBody = false /\
    isEmpty (promptOf requestBody) = false /\
    resolvedApiKey srv requestBody = Some key /\ isEmpty key = false.
Proof.
  unfold accepted. destruct request as [requestBody|e]; [|discriminate].
  intros H. apply andb_true_iff in H. destruct H as [H Hk].
  apply andb_true_iff in H. destruct H as [Hn Hp].
  apply negb_true_iff in Hn, Hp.
  destruct (resolvedApiKey srv requestBody) as [key|] eqn:Hkey; [|discriminate].
  apply negb_true_iff in Hk. exists requestBody, key.
  split; [reflexivity|]. split; [exact Hn|]. split; [exact Hp|].
  split; [exact Hkey|exact Hk].
Qed.

Lemma serverError_reportsFailure e : reportsFailure (serverError e).
Proof. repeat split. Qed.

Lemma badRequest_reportsFailure m :
  isEmpty m = false -> reportsFailure (badRequest m).
Proof. intros H. repeat split. cbn. rewrite H. reflexivity. Qed.

Lemma relayed_reportsFailure r : ok r = false -> reportsFailure (relayed r).
Proof.
  unfold ok, reportsFailure, relayed. cbn [res_status res_body res_cacheControl].
  intros H. split; [|split; [|reflexivity]].
  - apply andb_false_iff in H. apply orb_true_iff.
    destruct H as [H|H]; [left|right]; apply N.leb_gt in H; apply N.ltb_lt; exact H.
  - cbn. unfold or_.
    destruct (truthy (providerMessage (parsedBody r))) eqn:Ht; [exact Ht|reflexivity].
Qed.

Lemma responseTo_reports srv r :
  reportsImages (responseTo srv r) \/ reportsFailure (responseTo srv r).
Proof.
  unfold responseTo. destruct (ok r) eqn:Hok.
  - destruct (normalizeImages (parsedBody r)) as [images|e].
    + left. repeat split. do 3 eexists. reflexivity.
    + right. apply serverError_reportsFailure.
  - right. destruct (acceptsStatus (status r)).
    + apply relayed_reportsFailure; exact Hok.
    + apply serverError_reportsFailure.
Qed.

Lemma serve_answers (srv : Server) (request : completion value) :
  exists response calls,
    serve srv request = (Normal response, calls) /\
    length calls <= 2 /\
    (forall requestBody,
       request = Normal requestBody ->
       initialResponseFormat requestBody = B64Json -> length calls <= 1) /\
    (reportsImages response \/ reportsFailure response) /\
    (calls = [] <-> accepted srv request = false).
Proof.
  destruct (accepted srv request) eqn:Hacc.
  - destruct (accepted_true srv request Hacc)
      as (requestBody & key & -> & Hn & Hp & Hk & Hk').
    rewrite (serve_accepted srv requestBody key Hn Hp Hk Hk').
    destruct (answer srv 0) as [first|e].
    + destruct (shouldRetryWithBase64 _) as [[|]|e] eqn:Hretry.
      * assert (Hurl : initialResponseFormat requestBody = Url)
          by (apply shouldRetryWithBase64_url in Hretry; exact Hretry).
        destruct (answer srv 1) as [second|e]; do 2 eexists;
          (split; [reflexivity|]); (split; [cbn; lia|]);
          (split; [intros b Hb Hf; injection Hb as <-; congruence|]);
          (split; [|split; discriminate]).
        -- apply responseTo_reports.
        -- right. apply serverError_reportsFailure.
      * do 2 eexists. split; [reflexivity|]. split; [cbn; lia|].
        split; [intros; cbn; lia|].
        split; [apply responseTo_reports|split; discriminate].
      * do 2 eexists. split; [reflexivity|]. split; [cbn; lia|].
        split; [intros; cbn; lia|].
        split; [right; apply serverError_reportsFailure|split; discriminate].
    + do 2 eexists. split; [reflexivity|]. split; [cbn; lia|].
      split; [intros; cbn; lia|].
      split; [right; apply serverError_reportsFailure|split; discriminate].
  - rewrite (serve_rejected srv request Hacc). do 2 eexists.
    split; [reflexivity|]. split; [cbn; lia|]. split; [intros; cbn; lia|].
    split; [|tauto].
    right. destruct request as [requestBody|e]; [|apply serverError_reportsFailure].
    destruct (nullish requestBody); [apply serverError_reportsFailure|].
    destruct (isEmpty (promptOf requestBody)); apply badRequest_reportsFailure;
      reflexivity.
Qed.




Import GenerateSamples.


Example omitted_format_404_falls_back :
  let response := fst (serve urlClosed (Normal request)) in
  match response with
  | Normal r =>
      res_status r = 200%N /\
      reportedFormat r = VStr "b64_json" /\
      optGet (optGet (res_body r) "data") "images" =
        VArr [VObj [("id", VStr "image-0");
                    ("url", VStr "data:image/png;base64,iVBORw0KGgo=");
                    ("mimeType", VStr "image/png");
                    ("size", VStr "2048x2048");
                    ("prompt", VNull); ("revisedPrompt", VNull);
                    ("seed", VNull); ("created", VNull)]]
  | Throw _ => False
  end /\
  map sentFormat (snd (serve urlClosed (Normal request))) =
    [VStr "url"; VStr "b64_json"].
Proof. vm_compute. repeat split; reflexivity. Qed.

(** Property X10.  Whatever the request and whatever the provider
    does, the route answers and does not throw; it sends the provider
    at most two requests, at most one when the body asks for
    [b64_json]; its response either has status 200, the header
    [Cache-Control: no-store] and the images, the raw reply and the
    format under [data], or has a status outside the 2xx range, a
    truthy [error] and no cache header. *)
Theorem POST_always_answers (srv : Server) (request : completion value) :
  exists response calls,
    serve srv request = (Normal response, calls) /\
    length calls <= 2 /\
    (forall requestBody,
       request = Normal requestBody ->
       initialResponseFormat requestBody = B64Json -> length calls <= 1) /\
    (reportsImages response \/ reportsFailure response).
Proof.
  destruct (serve_answers srv request)
    as (response & calls & Hserve & Hlen & Hone & Hshape & _).
  exists response, calls. auto.
Qed.

(** Property X11.  The provider is contacted exactly when the request
    can be read, is not [null], has a prompt that is not blank, and a
    key that is not empty comes with it or is configured.  Otherwise
    nothing is sent: a request that cannot be read or is [null] gets
    status 500, with the message of the error when reading threw; a
    blank or missing prompt gets status 400 with the prompt message,
    also when the key is missing too; a missing key alone gets status
    400 with the key message. *)
Theorem POST_rejects_without_calling (srv : Server) (request : completion value) :
  (snd (serve srv request) = [] <-> accepted srv request = false) /\
  (accepted srv request = false ->
   exists response,
     serve srv request = (Normal response, []) /\
     match request with
     | Throw e =>
         res_status response = 500%N /\
         optGet (res_body response) "details" =
           VStr match e with
                | ThrownError m => m
                | ThrownOther shown => shown
                end
     | Normal requestBody =>
         if nullish requestBody then res_status response = 500%N
         else if isEmpty (promptOf requestBody)
         then response = badRequest missingPrompt
         else response = badRequest missingKey
     end).
Proof.
  split.
  - destruct (serve_answers srv request) as (response & calls & Hserve & _ & _ & _ & H).
    rewrite Hserve. exact H.
  - intros Hacc. rewrite (serve_rejected srv request Hacc).
    eexists. split; [reflexivity|].
    destruct request as [requestBody|e]; [|split; reflexivity].
    destruct (nullish requestBody); [reflexivity|].
    destruct (isEmpty (promptOf requestBody)); reflexivity.
Qed.




(** ** The properties on sample requests *)

Lemma POST_always_answers_witness :
  initialResponseFormat asBase64 = B64Json /\
  exists response calls,
    serve urlClosed (Normal asBase64) = (Normal response, calls) /\
    length calls <= 1.
Proof.
  split; [reflexivity|].
  destruct (POST_always_answers urlClosed (Normal asBase64))
    as (response & calls & Hserve & _ & Hone & _).
  exists response, calls. split; [exact Hserve|]. exact (Hone asBase64 eq_refl eq_refl).
Defined.

Lemma POST_rejects_without_calling_witness :
  accepted urlClosed (Normal (VObj [("apiKey", VStr "ark-key")])) = false /\
  exists response,
    serve urlClosed (Normal (VObj [("apiKey", VStr "ark-key")])) =
      (Normal response, []) /\
    response = badRequest missingPrompt.
Proof.
  split; [reflexivity|].
  destruct (proj2 (POST_rejects_without_calling urlClosed
                     (Normal (VObj [("apiKey", VStr "ark-key")]))) eq_refl)
    as (response & Hserve & Hresponse).
  exists response. split; [exact Hserve|exact Hresponse].
Defined.


(** A reply with status 304 is answered with 500. *)
Example not_modified_is_answered_500 :
  match fst (serve notModified (Normal request)) with
  | Normal r =>
      res_status r = 500%N /\
      optGet (res_body r) "error" = VStr "服务异常，请稍后重试。"
  | Throw _ => False
  end.
Proof. vm_compute. split; reflexivity. Qed.

(** An image as base64 with a type of its own, and a payload that
    cannot be converted. *)
Example images_of_sample_replies :
  match normalizeImages asJpeg with
  | Normal [image] =>
      url image = VStr "data:image/jpeg;base64,/9j/4AAQ" /\
      mimeType image = VStr "image/jpeg" /\
      Generate.id image = "image-1"%string
  | _ => False
  end /\
  normalizeImages unprintable = Throw (ThrownError cannotConvert).
Proof. vm_compute. repeat split; reflexivity. Qed.

End GenerateFacts.

(* ================================================================== *)
(** * Facts about content extraction *)
(* ================================================================== *)

Module IdentifyFacts.
Import Js Eff Identify.
Local Open Scope list_scope.
Local Open Scope eff_scope.

Lemma pushText_eq (blockName t : string) (blocks : list NormalizedContentBlock) :
  pushText blockName t blocks =
  (Normal tt,
   if isEmpty t then blocks else blocks ++ [{| id := blockName; text := t |}]).
Proof. unfold pushText. destruct (isEmpty t); reflexivity. Qed.











Import IdentifySamples.


Example hello_one_block :
  extractMessageContent hello = Normal [{| id := "choice-0-text-0"; text := "hello" |}].
Proof. vm_compute. reflexivity. Qed.

Example empty_array_no_block : extractMessageContent emptyArray = Normal [].
Proof. vm_compute. reflexivity. Qed.

Example mixed_blocks :
  extractMessageContent mixed =
  Normal [{| id := "choice-0-text-0"; text := "a cat" |};
          {| id := "choice-0-text-2"; text := "on a sofa" |}].
Proof. vm_compute. reflexivity. Qed.


Example text_not_a_string_throws :
  extractMessageContent
    (responseWith (VArr [VObj [("type", VStr "text"); ("text", VNum 5)]])) =
  Throw (ThrownError "item.text.trim is not a function").
Proof. vm_compute. reflexivity. Qed.

Example output_text_large_number :
  extractMessageContent (VObj [("output_text", VNum (10 ^ 21))]) =
  Normal [{| id := "fallback-output-text"; text := "1e+21" |}].
Proof. vm_compute. reflexivity. Qed.

Example output_text_without_conversion :
  extractMessageContent (VObj [("output_text", VObj [("toString", VNum 1)])]) =
  Throw (ThrownError cannotConvert).
Proof. vm_compute. reflexivity. Qed.

Example primitive_response_throws :
  exists m, extractMessageContent (VStr "not JSON") = Throw (ThrownError m).
Proof. eexists. vm_compute. reflexivity. Qed.

Example output_text_fallback :
  extractMessageContent (VObj [("output_text", VStr " a dog ")]) =
  Normal [{| id := "fallback-output-text"; text := "a dog" |}].
Proof. vm_compute. reflexivity. Qed.


(** ** The blocks as the page shows them *)

Lemma blockId_injective (index innerIndex index' innerIndex' : nat) :
  blockId index innerIndex = blockId index' innerIndex' ->
  index = index' /\ innerIndex = innerIndex'.
Proof.
  unfold blockId. intros H.
  apply (JsFacts.append_inj_l "choice-") in H.
  change ("-text-" ++ showNat innerIndex)%string
    with (String "-" ("text-" ++ showNat innerIndex))%string in H.
  change ("-text-" ++ showNat innerIndex')%string
    with (String "-" ("text-" ++ showNat innerIndex'))%string in H.
  apply JsFacts.digits_then_dash in H; try apply JsFacts.digits_showNat.
  destruct H as [Hi Hj]. apply (JsFacts.append_inj_l "text-") in Hj.
  split; apply JsFacts.showNat_injective; assumption.
Qed.

Lemma pushedFrom_nil index i : pushedFrom index i [].
Proof. split; [constructor|contradiction]. Qed.

Lemma pushText_trimmed (index i : nat) (s : string)
  (blocks : list NormalizedContentBlock) :
  exists new,
    pushText (blockId index i) (trim s) blocks = (Normal tt, blocks ++ new) /\
    pushedAt index i new.
Proof.
  rewrite pushText_eq. destruct (isEmpty (trim s)) eqn:He.
  - exists []. rewrite app_nil_r. split; [reflexivity|left; reflexivity].
  - eexists. split; [reflexivity|]. right. exists (trim s).
    split; [reflexivity|]. split; [exact He|apply JsFacts.trim_idempotent].
Qed.

(** One element of an array content appends at most one block, also
    when it throws. *)
Lemma contentItem_out (index : nat) (item : value) (i : nat)
  (blocks : list NormalizedContentBlock) :
  exists c new,
    contentItem index item i blocks = (c, blocks ++ new) /\ pushedAt index i new.
Proof.
  assert (Hnone : forall c : completion unit,
            exists c' new, (c, blocks) = (c', blocks ++ new) /\ pushedAt index i new).
  { intros c. exists c, []. rewrite app_nil_r. split; [reflexivity|left; reflexivity]. }
  assert (Hpush : forall s,
            exists c' new,
              pushText (blockId index i) (trim s) blocks = (c', blocks ++ new) /\
              pushedAt index i new).
  { intros s. destruct (pushText_trimmed index i s blocks) as (new & Heq & Hnew).
    exists (Normal tt), new. split; assumption. }
  unfold contentItem.
  destruct item as [| |b|z|s|xs|fields]; try apply Hnone; [apply Hpush|].
  destruct (lookup "type" fields) as [kind|]; [|apply Hnone].
  destruct kind as [| |b|z|k|xs|fs]; try apply Hnone.
  destruct (k =? "text")%string; [|apply Hnone].
  destruct (optGet (VObj fields) "text") as [| |b|z|t|xs|fs];
    try apply Hnone; apply Hpush.
Qed.

Lemma pushedFrom_cons index i first rest :
  pushedAt index i first ->
  pushedFrom index (S i) rest ->
  pushedFrom index i (first ++ rest).
Proof.
  intros Hfirst [Hnd Hall].
  assert (Hweak : forall b, In b rest ->
            clean b /\ exists j, i <= j /\ id b = blockId index j).
  { intros b Hb. destruct (Hall b Hb) as (Hc & j & Hj & Hid).
    split; [exact Hc|]. exists j. split; [lia|exact Hid]. }
  destruct Hfirst as [->|(t & -> & He & Ht)]; [split; assumption|].
  split.
  - cbn. constructor; [|exact Hnd]. intros Hin. apply in_map_iff in Hin.
    destruct Hin as (b & Hb & Hbin). destruct (Hall b Hbin) as (_ & j & Hj & Hid).
    rewrite Hid in Hb. apply blockId_injective in Hb. lia.
  - intros b [<-|Hb]; [|apply Hweak; exact Hb].
    split; [split; assumption|]. exists i. split; [lia|reflexivity].
Qed.

Lemma forEachFrom_items_out (index : nat) (items : list value) :
  forall i blocks,
    exists c new,
      forEachFrom i items (contentItem index) blocks = (c, blocks ++ new) /\
      pushedFrom index i new.
Proof.
  induction items as [|item rest IH]; intros i blocks.
  - exists (Normal tt), []. rewrite app_nil_r.
    split; [reflexivity|apply pushedFrom_nil].
  - cbn [forEachFrom]. unfold bind.
    destruct (contentItem_out index item i blocks) as (c & first & Heq & Hfirst).
    rewrite Heq. destruct c as [[]|e].
    + destruct (IH (S i) (blocks ++ first)) as (c' & new & Heq' & Hnew).
      rewrite Heq'. exists c', (first ++ new). rewrite app_assoc.
      split; [reflexivity|]. apply pushedFrom_cons; assumption.
    + exists (Throw e), (first ++ []). rewrite app_nil_r. split; [reflexivity|].
      rewrite <- (app_nil_r first).
      apply pushedFrom_cons; [assumption|apply pushedFrom_nil].
Qed.

Lemma choiceItem_out (choice : value) (index : nat)
  (blocks : list NormalizedContentBlock) :
  exists c new,
    choiceItem choice index blocks = (c, blocks ++ new) /\ pushedFrom index 0 new.
Proof.
  unfold choiceItem.
  destruct (optGet (optGet choice "message") "content") as [| |b|z|s|items|fs];
    try (exists (Normal tt), []; rewrite app_nil_r; split;
         [reflexivity|apply pushedFrom_nil]).
  - destruct (pushText_trimmed index 0 s blocks) as (new & Heq & Hnew).
    exists (Normal tt), new. split; [exact Heq|].
    rewrite <- (app_nil_r new).
    apply pushedFrom_cons; [exact Hnew|apply pushedFrom_nil].
  - unfold forEach. apply forEachFrom_items_out.
Qed.

Lemma pushedByChoices_cons index first rest :
  pushedFrom index 0 first -> pushedByChoices (S index) rest ->
  pushedByChoices index (first ++ rest).
Proof.
  intros [Hnd1 Hall1] [Hnd2 Hall2]. split.
  - rewrite map_app. apply NoDup_app; try assumption.
    intros a Ha1 Ha2. apply in_map_iff in Ha1, Ha2.
    destruct Ha1 as (b1 & <- & Hb1). destruct Ha2 as (b2 & Heq & Hb2).
    destruct (Hall1 b1 Hb1) as (_ & j & _ & Hid1).
    destruct (Hall2 b2 Hb2) as (_ & k & j' & Hk & Hid2).
    rewrite Hid1, Hid2 in Heq. apply blockId_injective in Heq. lia.
  - intros b Hb. apply in_app_or in Hb. destruct Hb as [Hb|Hb].
    + destruct (Hall1 b Hb) as (Hc & j & _ & Hid). split; [exact Hc|].
      exists index, j. split; [lia|exact Hid].
    + destruct (Hall2 b Hb) as (Hc & k & j & Hk & Hid). split; [exact Hc|].
      exists k, j. split; [lia|exact Hid].
Qed.

Lemma forEachFrom_choices_out (choices : list value) :
  forall index blocks,
    exists c new,
      forEachFrom index choices choiceItem blocks = (c, blocks ++ new) /\
      pushedByChoices index new.
Proof.
  induction choices as [|choice rest IH]; intros index blocks.
  - exists (Normal tt), []. rewrite app_nil_r.
    split; [reflexivity|split; [constructor|contradiction]].
  - cbn [forEachFrom]. unfold bind.
    destruct (choiceItem_out choice index blocks) as (c & first & Heq & Hfirst).
    rewrite Heq. destruct c as [[]|e].
    + destruct (IH (S index) (blocks ++ first)) as (c' & new & Heq' & Hnew).
      rewrite Heq'. exists c', (first ++ new). rewrite app_assoc.
      split; [reflexivity|]. apply pushedByChoices_cons; assumption.
    + exists (Throw e), (first ++ []). rewrite app_nil_r. split; [reflexivity|].
      rewrite <- (app_nil_r first). apply pushedByChoices_cons; [assumption|].
      split; [constructor|contradiction].
Qed.

(** Property X14.  Whenever [extractMessageContent] returns blocks,
    whatever the response, their identifiers are pairwise distinct, so
    they can serve as keys of the list the page renders, and every
    block has a text that is not empty and has no white space at
    either end. *)
Theorem extractMessageContent_blocks_are_distinct_and_clean (result : value)
  (blocks : list NormalizedContentBlock) :
  extractMessageContent result = Normal blocks ->
  NoDup (map id blocks) /\
  forall b, In b blocks -> isEmpty (text b) = false /\ trim (text b) = text b.
Proof.
  unfold extractMessageContent. destruct (negb (truthy result)).
  { intros H. injection H as <-. split; [constructor|contradiction]. }
  unfold forEach.
  destruct (forEachFrom_choices_out
              match optGet result "choices" with VArr cs => cs | _ => [] end 0 [])
    as (c & new & Heq & Hnd & Hall).
  rewrite Heq. cbn [app]. destruct c as [[]|e]; [|discriminate].
  destruct new as [|b0 new'].
  - destruct (hasProperty "output_text" result) as [[|]|]; try discriminate.
    + destruct (toString _) as [shown|e]; [|discriminate].
      destruct (isEmpty (trim shown)) eqn:He; intros H; injection H as <-.
      * split; [constructor|contradiction].
      * split; [repeat constructor; intros []|].
        intros b [<-|[]]. split; [exact He|apply JsFacts.trim_idempotent].
    + intros H; injection H as <-. split; [constructor|contradiction].
  - intros H; injection H as <-. split; [exact Hnd|].
    intros b Hb. apply Hall; exact Hb.
Qed.

Lemma extractMessageContent_blocks_are_distinct_and_clean_witness :
  extractMessageContent mixed =
    Normal [{| id := "choice-0-text-0"; text := "a cat" |};
            {| id := "choice-0-text-2"; text := "on a sofa" |}] /\
  NoDup ["choice-0-text-0"; "choice-0-text-2"]%string.
Proof.
  split; [reflexivity|].
  exact (proj1 (extractMessageContent_blocks_are_distinct_and_clean mixed
                  [{| id := "choice-0-text-0"; text := "a cat" |};
                   {| id := "choice-0-text-2"; text := "on a sofa" |}]
                  eq_refl)).
Defined.

End IdentifyFacts.

(* ================================================================== *)
(** * Facts about the compression page *)
(* ================================================================== *)

Module CompressPageFacts.
Import Js Eff Compress CompressPage.
Local Open Scope list_scope.
Local Open Scope eff_scope.

Lemma extensionOf_targetType (f : File) :
  extensionOf (targetType f) = if supportsAlpha f then "webp" else "jpeg".
Proof. unfold targetType. destruct (supportsAlpha f); reflexivity. Qed.

(** Property X15.  A file named [stem.extension], the extension being
    what follows the last dot and holding no slash, is saved after
    compression as [stem-compressed.webp] when it is a PNG or a WebP
    file and as [stem-compressed.jpeg] otherwise, and its cut-out on
    the remove-background page as [stem-no-bg.png]: dots inside the
    stem stay.  A name without a dot is kept whole. *)
Theorem download_names_keep_the_stem (f : File) :
  (forall stem extension,
     file_name f = (stem ++ "." ++ extension)%string ->
     plain extension = true -> extension <> ""%string ->
     deriveDownloadName (Some f) (targetType f) =
       (stem ++ "-compressed." ++
        (if supportsAlpha f then "webp" else "jpeg"))%string /\
     forall item, RemoveBackground.file item = f ->
       RemoveBackground.resultName item = (stem ++ "-no-bg.png")%string) /\
  (includes (file_name f) "." = false ->
   deriveDownloadName (Some f) (targetType f) =
     (file_name f ++ "-compressed." ++
      (if supportsAlpha f then "webp" else "jpeg"))%string /\
   forall item, RemoveBackground.file item = f ->
     RemoveBackground.resultName item = (file_name f ++ "-no-bg.png")%string).
Proof.
  split.
  - intros stem extension Hname Hplain Hne.
    assert (Hdrop : dropExtension (file_name f) = stem).
    { rewrite Hname. apply JsFacts.dropExtension_stem; assumption. }
    split.
    + unfold deriveDownloadName. rewrite Hdrop, extensionOf_targetType. reflexivity.
    + intros item <-. unfold RemoveBackground.resultName. rewrite Hdrop. reflexivity.
  - intros Hdot. pose proof (JsFacts.dropExtension_no_dot _ Hdot) as Hdrop. split.
    + unfold deriveDownloadName. rewrite Hdrop, extensionOf_targetType. reflexivity.
    + intros item <-. unfold RemoveBackground.resultName. rewrite Hdrop. reflexivity.
Qed.




Import CompressSamples.

Lemma download_names_keep_the_stem_witness :
  file_name pngFile = ("sticker" ++ "." ++ "png")%string /\
  plain "png" = true /\ "png"%string <> ""%string /\
  deriveDownloadName (Some pngFile) (targetType pngFile) = "sticker-compressed.webp".
Proof.
  assert (Hne : "png"%string <> ""%string) by discriminate.
  split; [reflexivity|]. split; [reflexivity|]. split; [exact Hne|].
  exact (proj1 (proj1 (download_names_keep_the_stem pngFile)
                  "sticker"%string "png"%string eq_refl eq_refl Hne)).
Defined.

Example gif_is_saved_as_jpeg :
  let p' := snd (handleCompress browser
                   (withFile (Some gifFile) CompressPage.initialPage)) in
  isCompressing p' = false /\ error p' = None /\
  downloadName p' = "sticker-compressed.jpeg".
Proof. vm_compute. repeat split; reflexivity. Qed.

End CompressPageFacts.

(* ================================================================== *)
(** * Facts about the recognition route *)
(* ================================================================== *)

Module IdentifyRouteFacts.
Import Js Eff Generate.
Import IdentifyRoute.
Local Open Scope list_scope.
Local Open Scope eff_scope.

(** The route on a request that reaches the provider. *)
Lemma recognition_accepted (srv : Server) (requestBody : value)
  (imageDataUrl key : string) :
  optGet (coalesce requestBody (VObj [])) "imageDataUrl" = VStr imageDataUrl ->
  startsWith imageDataUrl "data:image/" = true ->
  resolvedApiKey srv (coalesce requestBody (VObj [])) = Some key ->
  isEmpty key = false ->
  serve srv (Normal requestBody) =
  (match answer srv 0 with
   | Normal reply => Normal (responseTo srv reply)
   | Throw e => Normal (serverError e)
   end,
   [{| authorization := ("Bearer " ++ key)%string;
       body := payload (textPrompt (optGet (coalesce requestBody (VObj [])) "prompt"))
                 imageDataUrl |}]).
Proof.
  intros Himage Hprefix Hkey Hkey'.
  unfold serve, POST, tryCatch.
  unfold bind at 1, await at 1. cbv zeta.
  rewrite Himage, Hprefix, Hkey, Hkey'. cbn [negb].
  unfold bind at 1, callProvider. cbn [length app].
  destruct (answer srv 0) as [reply|e]; [|reflexivity].
  cbn [fst snd]. unfold responseTo, replyOk, delivered, relayed, parsedOf.
  destruct ((200 <=? reply_status reply) && (reply_status reply <=? 299))%N;
    cbn [negb]; [reflexivity|].
  unfold await, json.
  destruct (acceptsStatus (reply_status reply)); reflexivity.
Qed.

(** The route on a request that does not. *)
Lemma recognition_rejected (srv : Server) (request : completion value) :
  accepted srv request = false ->
  serve srv request =
  (Normal match request with
          | Throw e => serverError e
          | Normal requestBody =>
              match optGet (coalesce requestBody (VObj [])) "imageDataUrl" with
              | VStr imageDataUrl =>
                  if startsWith imageDataUrl "data:image/"
                  then badRequest IdentifyRoute.missingKey
                  else badRequest invalidImage
              | _ => badRequest invalidImage
              end
          end, []).
Proof.
  unfold accepted, serve, POST, tryCatch.
  destruct request as [requestBody|e]; [|reflexivity].
  unfold bind at 1, await at 1. cbv zeta.
  destruct (optGet (coalesce requestBody (VObj [])) "imageDataUrl");
    try reflexivity.
  destruct (startsWith s "data:image/"); [|reflexivity]. cbn [negb andb].
  destruct (resolvedApiKey srv (coalesce requestBody (VObj []))) as [key|];
    [|reflexivity].
  destruct (isEmpty key); [reflexivity|discriminate].
Qed.

Lemma recognition_accepted_true (srv : Server) (request : completion value) :
  accepted srv request = true ->
  exists requestBody imageDataUrl key,
    request = Normal requestBody /\
    optGet (coalesce requestBody (VObj [])) "imageDataUrl" = VStr imageDataUrl /\
    startsWith imageDataUrl "data:image/" = true /\
    resolvedApiKey srv (coalesce requestBody (VObj [])) = Some key /\
    isEmpty key = false.
Proof.
  unfold accepted. destruct request as [requestBody|e]; [|discriminate]. cbv zeta.
  destruct (optGet (coalesce requestBody (VObj [])) "imageDataUrl") eqn:Himage;
    try discriminate.
  intros H. apply andb_true_iff in H. destruct H as [Hp Hk].
  destruct (resolvedApiKey srv (coalesce requestBody (VObj []))) as [key|] eqn:Hkey;
    [|discriminate].
  apply negb_true_iff in Hk. exists requestBody, s, key.
  split; [reflexivity|]. split; [exact Himage|]. split; [exact Hp|].
  split; [exact Hkey|exact Hk].
Qed.

Lemma recognition_relayed_reportsFailure reply :
  replyOk reply = false -> reportsFailure (relayed reply).
Proof.
  unfold replyOk, reportsFailure, relayed. cbn [res_status res_body res_cacheControl].
  intros H. split; [|split; [|reflexivity]].
  - apply andb_false_iff in H. apply orb_true_iff.
    destruct H as [H|H]; [left|right]; apply N.leb_gt in H; apply N.ltb_lt; exact H.
  - cbn. unfold or_.
    destruct (truthy (providerMessage (parsedOf reply))) eqn:Ht; [exact Ht|reflexivity].
Qed.

(** Property X17.  Whatever the request and whatever the provider
    does, the recognition route answers and does not throw, and sends
    the provider at most one request: exactly one when the request can
    be read, carries a string [imageDataUrl] that starts with
    [data:image/], and a key that is not empty comes with it or is
    configured, none otherwise.  The response either has status 200,
    [Cache-Control: no-store] and the provider's body under [data], or
    a status outside the 2xx range with a truthy [error].  A request
    that is turned away gets 500 when it cannot be read, 400 with the
    image message when the image is missing, not a string or not a
    data URL of an image (a [null] body included), and 400 with the key
    message when only the key is missing. *)
Theorem recognition_POST_answers_every_request (srv : Server)
  (request : completion value) :
  exists response calls,
    serve srv request = (Normal response, calls) /\
    length calls <= 1 /\
    (calls = [] <-> accepted srv request = false) /\
    ((res_status response = 200%N /\
      res_cacheControl response = Some "no-store"%string /\
      exists data, res_body response = VObj [("data"%string, data)]) \/
     reportsFailure response) /\
    (accepted srv request = false ->
     match request with
     | Throw e => response = serverError e
     | Normal requestBody =>
         match optGet (coalesce requestBody (VObj [])) "imageDataUrl" with
         | VStr imageDataUrl =>
             if startsWith imageDataUrl "data:image/"
             then response = badRequest IdentifyRoute.missingKey
             else response = badRequest invalidImage
         | _ => response = badRequest invalidImage
         end
     end).
Proof.
  destruct (accepted srv request) eqn:Hacc.
  - destruct (recognition_accepted_true srv request Hacc)
      as (requestBody & imageDataUrl & key & -> & Hi & Hp & Hk & Hk').
    rewrite (recognition_accepted srv requestBody imageDataUrl key Hi Hp Hk Hk').
    destruct (answer srv 0) as [reply|e]; do 2 eexists;
      (split; [reflexivity|]); (split; [cbn; lia|]);
      (split; [split; discriminate|]); (split; [|discriminate]).
    + unfold responseTo. destruct (replyOk reply) eqn:Hok.
      * left. repeat split. eexists. reflexivity.
      * right. destruct (acceptsStatus (reply_status reply)).
        -- apply recognition_relayed_reportsFailure; exact Hok.
        -- apply GenerateFacts.serverError_reportsFailure.
    + right. apply GenerateFacts.serverError_reportsFailure.
  - rewrite (recognition_rejected srv request Hacc). do 2 eexists.
    split; [reflexivity|]. split; [cbn; lia|]. split; [tauto|]. split.
    + right. destruct request as [requestBody|e];
        [|apply GenerateFacts.serverError_reportsFailure].
      destruct (optGet (coalesce requestBody (VObj [])) "imageDataUrl");
        try (apply GenerateFacts.badRequest_reportsFailure; reflexivity).
      destruct (startsWith s "data:image/");
        apply GenerateFacts.badRequest_reportsFailure; reflexivity.
    + intros _. destruct request as [requestBody|e]; [|reflexivity].
      destruct (optGet (coalesce requestBody (VObj [])) "imageDataUrl");
        try reflexivity.
      destruct (startsWith s "data:image/"); reflexivity.
Qed.


Import PageSamples.

Lemma recognition_POST_answers_every_request_witness :
  accepted recognizer (Normal (VObj [("prompt"%string, VStr "hi")])) = false /\
  exists response calls,
    serve recognizer (Normal (VObj [("prompt"%string, VStr "hi")])) =
      (Normal response, calls) /\
    calls = [] /\ response = badRequest invalidImage.
Proof.
  split; [reflexivity|].
  destruct (recognition_POST_answers_every_request recognizer
              (Normal (VObj [("prompt"%string, VStr "hi")])))
    as (response & calls & Hserve & _ & Hcalls & _ & Hrejected).
  exists response, calls. split; [exact Hserve|].
  split; [exact (proj2 Hcalls eq_refl)|exact (Hrejected eq_refl)].
Defined.


(** A reply with status 304 is answered with 500. *)
Example recognition_not_modified_is_answered_500 :
  match fst (serve GenerateSamples.notModified
               (Normal (VObj [("imageDataUrl"%string, VStr "data:image/png;base64,UE5H");
                              ("apiKey"%string, VStr "ark-key")]))) with
  | Normal r =>
      res_status r = 500%N /\
      optGet (res_body r) "error" = VStr "服务异常，请稍后重试。"
  | Throw _ => False
  end.
Proof. vm_compute. split; reflexivity. Qed.

End IdentifyRouteFacts.

(* ================================================================== *)
(** * Facts about the recognition page *)
(* ================================================================== *)

Module IdentifyPageFacts.
Import Js Eff Generate.
Import IdentifyRoute.
Import IdentifyPage.
Local Open Scope list_scope.
Local Open Scope eff_scope.

Lemma recognition_submit_eq (B : Browser) (w : World) (f : File) :
  file (page w) = Some f ->
  handleSubmit B w = (Normal tt, outcome B f w).
Proof.
  intros Hf. unfold handleSubmit, outcome. rewrite Hf.
  unfold bind at 1, setPage at 1, modify at 1.
  unfold bind at 1, setPage at 1, modify at 1.
  unfold bind at 1, setPage at 1, modify at 1.
  cbn [page sent].
  unfold bind at 1, tryCatch, bind at 1, await at 1, readFileAsDataUrl.
  destruct (readAsDataURL B f) as [dataUrl|]; [|reflexivity].
  unfold bind at 1, fetch. cbn [page sent].
  destruct (respond B (length (sent w)) (requestBody dataUrl (apiKey (page w))))
    as [response|e]; [|reflexivity].
  unfold bind at 1, await at 1.
  destruct (http_json response) as [received|e]; [|reflexivity].
  destruct (http_ok response); reflexivity.
Qed.

(** Property X19.  A submission on the recognition page does not
    throw and keeps the file, its preview and the key.  Without a file
    it shows the message asking for one, posts nothing and leaves the
    loading flag and the result alone.  With a file it ends with the
    loading flag off and never with both an error and a result; when
    the file cannot be read it shows the reading error and posts
    nothing, otherwise it posts one body, holding the data URL and, if
    the key field is not blank, the trimmed key. *)
Theorem recognition_submit_settles (B : Browser) (w : World) :
  let w' := snd (handleSubmit B w) in
  fst (handleSubmit B w) = Normal tt /\
  file (page w') = file (page w) /\
  previewUrl (page w') = previewUrl (page w) /\
  apiKey (page w') = apiKey (page w) /\
  match file (page w) with
  | None =>
      error (page w') = Some (VStr noFile) /\ sent w' = sent w /\
      isLoading (page w') = isLoading (page w) /\
      result (page w') = result (page w)
  | Some f =>
      isLoading (page w') = false /\
      (error (page w') = None \/ result (page w') = VNull) /\
      match readAsDataURL B f with
      | None => error (page w') = Some (VStr readFailed) /\ sent w' = sent w
      | Some dataUrl =>
          sent w' = sent w ++ [requestBody dataUrl (apiKey (page w))]
      end
  end.
Proof.
  intros w'. unfold w'. destruct (file (page w)) as [f|] eqn:Hf.
  - rewrite (recognition_submit_eq B w f Hf). cbn [fst snd]. unfold outcome.
    destruct (readAsDataURL B f) as [dataUrl|]; cbn [page sent].
    + destruct (respond B _ _) as [response|e];
        [destruct (http_json response) as [received|e];
         [destruct (http_ok response)|]|];
        cbn; repeat split; auto.
    + cbn; repeat split; auto.
  - unfold handleSubmit. rewrite Hf. cbn. repeat split; try reflexivity.
    exact Hf.
Qed.




Import PageSamples.


(** A reply of the provider that is not JSON reaches the page as a
    string, on which [extractMessageContent] throws. *)
Example text_reply_breaks_the_page :
  let w' := snd (handleSubmit (throughRoute PageSamples.chatty reader) uploaded) in
  result (page w') = VStr "OK" /\ error (page w') = None /\
  exists e, contentBlocks (page w') = Throw e.
Proof. vm_compute. repeat split. eexists. reflexivity. Qed.

End IdentifyPageFacts.

(* ================================================================== *)
(** * Facts about the generation page *)
(* ================================================================== *)

Module GeneratePageFacts.
Import Js Eff Generate GenerateFacts.
Import GeneratePage.
Local Open Scope list_scope.
Local Open Scope eff_scope.

Lemma generation_submit_eq (respond : nat -> value -> completion HttpResponse)
  (w : World) :
  isEmpty (trim (prompt (page w))) = false ->
  handleSubmit respond w = (Normal tt, outcome respond w).
Proof.
  intros Hp. unfold handleSubmit, outcome. rewrite Hp.
  unfold bind at 1, setPage at 1, modify at 1.
  unfold bind at 1, setPage at 1, modify at 1.
  unfold bind at 1, setPage at 1, modify at 1.
  unfold bind at 1, setPage at 1, modify at 1.
  cbn [page sent].
  unfold bind at 1, tryCatch, bind at 1, fetch. cbn [page sent].
  destruct (respond (length (sent w)) (requestBody (page w))) as [answered|e];
    [|reflexivity].
  unfold bind at 1, await at 1.
  destruct (http_json answered) as [received|e]; [|reflexivity].
  destruct (http_ok answered); reflexivity.
Qed.

(** Property X21.  A submission on the generation page does not throw
    and keeps what the form holds.  With a blank prompt it shows the
    message asking for one and touches nothing else: nothing is posted
    and an earlier response stays on the page.  With a prompt it ends
    with the loading flag off and the preview closed, never with both
    an error and a response, and has posted exactly one body.  After a
    reset the prompt is blank, so a submission is turned away and posts
    nothing, while key, size, mode and watermark are as before. *)
Theorem generation_submit_settles (respond : nat -> value -> completion HttpResponse)
  (w : World) :
  let p := page w in
  let w' := snd (handleSubmit respond w) in
  let p' := page w' in
  fst (handleSubmit respond w) = Normal tt /\
  (prompt p' = prompt p /\ negativePrompt p' = negativePrompt p /\
   apiKey p' = apiKey p /\ size p' = size p /\
   sequentialMode p' = sequentialMode p /\ watermark p' = watermark p) /\
  (if isEmpty (trim (prompt p))
   then error p' = Some (VStr blankPrompt) /\ sent w' = sent w /\
        isLoading p' = isLoading p /\ response p' = response p /\
        previewImage p' = previewImage p
   else isLoading p' = false /\ previewImage p' = VNull /\
        (error p' = None \/ response p' = VNull) /\
        sent w' = sent w ++ [requestBody p]) /\
  (let cleared := snd (handleReset w) in
   let after := snd (handleSubmit respond cleared) in
   prompt (page cleared) = ""%string /\ response (page cleared) = VNull /\
   error (page cleared) = None /\
   apiKey (page cleared) = apiKey p /\ size (page cleared) = size p /\
   sequentialMode (page cleared) = sequentialMode p /\
   watermark (page cleared) = watermark p /\
   sent after = sent w /\ error (page after) = Some (VStr blankPrompt)).
Proof.
  intros p w' p'. unfold p', w', p.
  split; [|split; [|split]].
  - destruct (isEmpty (trim (prompt (page w)))) eqn:Hp.
    + unfold handleSubmit. rewrite Hp. reflexivity.
    + rewrite (generation_submit_eq respond w Hp). reflexivity.
  - destruct (isEmpty (trim (prompt (page w)))) eqn:Hp.
    + unfold handleSubmit. rewrite Hp. cbn. repeat split; reflexivity.
    + rewrite (generation_submit_eq respond w Hp). cbn [fst snd]. unfold outcome.
      cbn [page sent].
      destruct (respond _ _) as [answered|e];
        [destruct (http_json answered) as [received|e];
         [destruct (http_ok answered)|]|];
        cbn; repeat split; auto.
  - destruct (isEmpty (trim (prompt (page w)))) eqn:Hp.
    + unfold handleSubmit. rewrite Hp. cbn. repeat split; reflexivity.
    + rewrite (generation_submit_eq respond w Hp). cbn [fst snd]. unfold outcome.
      cbn [page sent].
      destruct (respond _ _) as [answered|e];
        [destruct (http_json answered) as [received|e];
         [destruct (http_ok answered)|]|];
        cbn; repeat split; auto.
  - cbn. repeat split; reflexivity.
Qed.





Import PageSamples.


End GeneratePageFacts.

(* ================================================================== *)
(** * Facts about the shared helpers *)
(* ================================================================== *)

Module FileSizeFacts.
Import Js FileSize.
Local Open Scope list_scope.

(** [scaled] is the nearest integer, ties going up. *)
Lemma scaled_nearest (num den : N) (digits : nat) :
  (0 < den)%N ->
  let t := scaled num den digits in
  (2 * den * t <= 2 * num * 10 ^ N.of_nat digits + den
   < 2 * den * (t + 1))%N.
Proof.
  intros Hden t. unfold t, scaled.
  set (a := (2 * num * 10 ^ N.of_nat digits + den)%N).
  set (b := (2 * den)%N).
  assert (Hb : (b <> 0)%N) by (unfold b; lia).
  pose proof (N.Div0.mul_div_le a b).
  pose proof (N.mul_succ_div_gt a b Hb). lia.
Qed.

Lemma showN_one_digit (d : N) : (d < 10)%N -> String.length (showN d) = 1.
Proof.
  intros H.
  assert (Hd : In d [0; 1; 2; 3; 4; 5; 6; 7; 8; 9]%N).
  { destruct d as [|p]; [left; reflexivity|].
    do 10 (destruct p as [p|p|]; try lia; cbn; auto 12). }
  cbn in Hd. repeat (destruct Hd as [<-|Hd]; [reflexivity|]). contradiction.
Qed.

(** Property X23.  For a size a number holds exactly (below 2 to the
    53), [formatFileSize] shows a dash for the size 0, the size itself
    in bytes below 1024, kilobytes with one decimal below 1024 times
    1024 and megabytes with two decimals from there on.  The
    figure shown is the one nearest to the exact quotient, the upper
    one of two equally near: at most half a unit of the last decimal
    away.  In kilobytes it lies between 1.0 and 1024.0, the latter
    being shown for sizes just below a megabyte. *)
Theorem formatFileSize_shows_the_nearest_figure (size : N) :
  (size < 2 ^ 53)%N ->
  let shown := formatFileSize (Some size) in
  (size = 0%N -> shown = "-"%string) /\
  ((0 < size < 1024)%N -> shown = (showN size ++ " B")%string) /\
  ((1024 <= size < 1024 * 1024)%N ->
   exists tenths,
     shown = (showN (tenths / 10) ++ "." ++ showN (tenths mod 10) ++ " KB")%string /\
     (10 <= tenths <= 10240)%N /\
     (2048 * tenths <= 20 * size + 1024 < 2048 * (tenths + 1))%N) /\
  ((1024 * 1024 <= size)%N ->
   exists hundredths,
     shown =
       (showN (hundredths / 100) ++ "."
        ++ zeros (2 - String.length (showN (hundredths mod 100)))
        ++ showN (hundredths mod 100) ++ " MB")%string /\
     (100 <= hundredths)%N /\
     (2097152 * hundredths <= 200 * size + 1048576
      < 2097152 * (hundredths + 1))%N).
Proof.
  intros _ shown. unfold shown, formatFileSize. repeat split.
  - intros ->. reflexivity.
  - intros [Hpos Hlt].
    destruct (N.eqb_spec size 0); [lia|].
    destruct (N.ltb_spec size 1024); [|lia].
    assert (Hs : scaled size 1 0 = size).
    { unfold scaled. change (10 ^ N.of_nat 0)%N with 1%N.
      symmetry. apply N.div_unique with (r := 1%N); lia. }
    unfold toFixed. rewrite Hs. reflexivity.
  - intros [Hge Hlt].
    destruct (N.eqb_spec size 0); [lia|].
    destruct (N.ltb_spec size 1024); [lia|].
    destruct (N.ltb_spec size (1024 * 1024)); [|lia].
    pose proof (scaled_nearest size 1024 1 ltac:(lia)) as Hnear. cbv zeta in Hnear.
    change (10 ^ N.of_nat 1)%N with 10%N in Hnear.
    exists (scaled size 1024 1). split; [|split; lia].
    unfold toFixed. change (10 ^ N.of_nat 1)%N with 10%N.
    rewrite showN_one_digit by (apply N.mod_lt; discriminate).
    cbn [Nat.sub zeros]. rewrite !JsFacts.append_assoc. reflexivity.
  - intros Hge.
    destruct (N.eqb_spec size 0); [lia|].
    destruct (N.ltb_spec size 1024); [lia|].
    destruct (N.ltb_spec size (1024 * 1024)); [lia|].
    pose proof (scaled_nearest size (1024 * 1024) 2 ltac:(lia)) as Hnear.
    cbv zeta in Hnear. change (10 ^ N.of_nat 2)%N with 100%N in Hnear.
    exists (scaled size (1024 * 1024) 2). split; [|split; lia].
    unfold toFixed. change (10 ^ N.of_nat 2)%N with 100%N.
    rewrite !JsFacts.append_assoc. reflexivity.
Qed.

Lemma formatFileSize_shows_the_nearest_figure_witness :
  (1536 < 2 ^ 53)%N /\ (1024 <= 1536 < 1024 * 1024)%N /\
  exists tenths,
    formatFileSize (Some 1536%N) =
      (showN (tenths / 10) ++ "." ++ showN (tenths mod 10) ++ " KB")%string /\
    (10 <= tenths <= 10240)%N.
Proof.
  assert (Hsafe : (1536 < 2 ^ 53)%N) by reflexivity.
  assert (Hrange : (1024 <= 1536 < 1024 * 1024)%N)
    by (split; [discriminate|reflexivity]).
  split; [exact Hsafe|]. split; [exact Hrange|].
  destruct (proj1 (proj2 (proj2 (formatFileSize_shows_the_nearest_figure 1536%N
                                   Hsafe)))
              Hrange)
    as (tenths & Hshown & Hbounds & _).
  exists tenths. split; [exact Hshown|exact Hbounds].
Defined.

Example sizes_as_shown :
  formatFileSize None = "-"%string /\
  formatFileSize (Some 512%N) = "512 B"%string /\
  formatFileSize (Some 1280%N) = "1.3 KB"%string /\
  formatFileSize (Some 1048575%N) = "1024.0 KB"%string /\
  formatFileSize (Some 5347737%N) = "5.10 MB"%string.
Proof. vm_compute. repeat split; reflexivity. Qed.

End FileSizeFacts.

Module KeyStorageFacts.
Import Js KeyStorage.
Local Open Scope list_scope.

(** Property X24.  With a storage that works, the key a page persists
    is the key it starts with after a reload, an empty key included
    (its entry is removed), and persisting under one name leaves the
    values stored under other names as they are; the three pages use
    three different names.  With a storage whose methods throw,
    persisting does nothing and a page starts with an empty key. *)
Theorem stored_key_survives_reload (name apiKey : string) (st : Storage) :
  match st with
  | Working entries =>
      storedKey name (persist name apiKey st) = apiKey /\
      (forall other, other <> name ->
         storedKey other (persist name apiKey st) = storedKey other st)
  | Failing =>
      persist name apiKey st = Failing /\ storedKey name st = ""%string
  end /\
  removeBackgroundName <> generateName /\
  removeBackgroundName <> identifyName /\
  generateName <> identifyName.
Proof.
  split; [|repeat split; discriminate].
  destruct st as [entries|];
    [|split; unfold persist; destruct (isEmpty apiKey); reflexivity].
  unfold persist, storedKey. split.
  - destruct apiKey as [|c k]; cbn; rewrite String.eqb_refl; reflexivity.
  - intros other Hne. apply String.eqb_neq in Hne.
    destruct apiKey as [|c k]; cbn; rewrite Hne; reflexivity.
Qed.

Lemma stored_key_survives_reload_witness :
  generateName <> removeBackgroundName /\
  let st := persist removeBackgroundName "rb-key" (Working (fun _ => None)) in
  storedKey removeBackgroundName st = "rb-key"%string /\
  storedKey generateName st = ""%string.
Proof.
  assert (Hne : generateName <> removeBackgroundName) by discriminate.
  split; [exact Hne|].
  destruct (proj1 (stored_key_survives_reload removeBackgroundName "rb-key"
                     (Working (fun _ => None))))
    as [Hsame Hother].
  split; [exact Hsame|exact (Hother generateName Hne)].
Defined.

End KeyStorageFacts.
